(** * Geocoin Carrier: the board, the memento store and the session controller

    A shallow embedding of [src/board.ts] and of the last revision of
    [src/main.ts] (the one with [movementHistory], [reset-game] and
    [saveGameState] / [loadGameState]), with the refresh of the revision
    before it (module [Rev2]) for comparison.

    Conventions of the embedding.
    - A JavaScript [number] that holds a grid index, a serial or a coin count
      is a [Z].  A coordinate in degrees is a [Z] too, in fixed point with
      seven decimals (one unit is 1e-7 degree), so [TILE_DEGREES = 1e-4] is
      [1000] units and [Math.floor (x / tileWidth)] is [Z.div], which rounds
      towards minus infinity.  Rounding errors in coordinates, the sign of
      zero and integers beyond 2^53 are outside the model.
    - A fractional [number] that is not a coordinate is a rational, and a
      product of such numbers is taken as JavaScript takes it ([Js.mul]): the
      exact product rounded to the nearest binary64 number, ties to even.
      The coin count [Math.floor (luck * 100)] is computed this way.
    - A JavaScript string is a [string] (code units below 256).
    - A [Map] is a list of entries in insertion order, a [Set] a list of its
      elements in insertion order.
    - [luck] (from [luck.ts], not part of the sources at hand) is a parameter:
      a function from keys to rationals (every binary64 number is one).
    - Leaflet objects are reduced to what the program stores in them: a
      rectangle is its bounds and the cache and cell captured by its popup. *)

From Stdlib Require Import ZArith QArith Qround Qpower List String Ascii Bool.
From Stdlib Require Import Lia Lqa.
From Stdlib Require Import Decimal DecimalString DecimalZ DecimalPos DecimalFacts.
From Stdlib Require Import Permutation.
Import ListNotations.

#[local] Open Scope string_scope.
#[local] Open Scope Z_scope.

(** ** Host-language values: number printing, [Map], [Set] *)

Module Js.

(** [`${n}`] and [Number.prototype.toString] on an integer. *)
Definition string_of_Z (n : Z) : string :=
  NilZero.string_of_int (Z.to_int n).

Definition is_digit (c : ascii) : bool :=
  match c with
  | "0" | "1" | "2" | "3" | "4" | "5" | "6" | "7" | "8" | "9" => true
  | _ => false
  end%char.

(** The longest prefix of decimal digits and what follows it. *)
Fixpoint span_digits (s : string) : string * string :=
  match s with
  | String c r =>
      if is_digit c
      then let (ds, rest) := span_digits r in (String c ds, rest)
      else (EmptyString, s)
  | EmptyString => (EmptyString, EmptyString)
  end.

(** Value of a non-empty string of digits. *)
Definition Z_of_digits (ds : string) : option Z :=
  match ds with
  | EmptyString => None
  | _ => option_map Z.of_uint (NilEmpty.uint_of_string ds)
  end.

(** An optional minus sign and digits at the head of [s]. *)
Definition read_int (s : string) : option (Z * string) :=
  match s with
  | String "-" r =>
      let (ds, rest) := span_digits r in
      option_map (fun n => (- n, rest)) (Z_of_digits ds)
  | _ =>
      let (ds, rest) := span_digits s in
      option_map (fun n => (n, rest)) (Z_of_digits ds)
  end.

Definition Map (V : Type) : Type := list (string * V).

Section MapOps.
Context {V : Type}.

Fixpoint map_get (k : string) (m : Map V) : option V :=
  match m with
  | [] => None
  | (k', v) :: m' => if String.eqb k k' then Some v else map_get k m'
  end.

Definition map_has (k : string) (m : Map V) : bool :=
  match map_get k m with Some _ => true | None => false end.

(** [set] overwrites in place, or appends a new entry. *)
Fixpoint map_set (k : string) (v : V) (m : Map V) : Map V :=
  match m with
  | [] => [(k, v)]
  | (k', v') :: m' =>
      if String.eqb k k' then (k', v) :: m' else (k', v') :: map_set k v m'
  end.

Fixpoint map_delete (k : string) (m : Map V) : Map V :=
  match m with
  | [] => []
  | (k', v') :: m' =>
      if String.eqb k k' then m' else (k', v') :: map_delete k m'
  end.

Definition map_keys (m : Map V) : list string := List.map fst m.
Definition map_values (m : Map V) : list V := List.map snd m.
End MapOps.

Definition set_has (k : string) (s : list string) : bool :=
  existsb (String.eqb k) s.

Definition set_add (k : string) (s : list string) : list string :=
  if set_has k s then s else s ++ [k].

(** [String.prototype.toLowerCase] on the letters A to Z. *)
Definition lower_char (c : ascii) : ascii :=
  let n := nat_of_ascii c in
  if (andb (Nat.leb 65 n) (Nat.leb n 90)) then ascii_of_nat (n + 32) else c.

Fixpoint toLowerCase (s : string) : string :=
  match s with
  | EmptyString => EmptyString
  | String c r => String (lower_char c) (toLowerCase r)
  end.

(** *** Products of numbers

    [x * y] is the exact product rounded to the nearest binary64 number,
    ties to the one with an even significand.  A binary64 number other than
    zero is [m * 2^e] for integers [m] and [e] with [2^52 <= |m| < 2^53];
    overflow and subnormal numbers are left out (the products taken by the
    program lie between 0 and 100). *)

(** Round to the nearest integer, ties to the even one. *)
Definition round_half_even (q : Q) : Z :=
  let f := Qfloor q in
  match (q - inject_Z f ?= 1 # 2)%Q with
  | Lt => f
  | Gt => f + 1
  | Eq => if Z.even f then f else f + 1
  end.

(** [q * 2^e] *)
Definition scale (q : Q) (e : Z) : Q := (q * 2 ^ e)%Q.

(** The exponent [e] with [2^52 <= q / 2^e < 2^53], for a positive [q]. *)
Definition exponent (q : Q) : Z :=
  let k := Z.log2 (Qnum q) - Z.log2 (Zpos (Qden q)) - 52 in
  let s := scale q (- k) in
  if negb (Qle_bool (inject_Z (2 ^ 52)) s) then k - 1
  else if Qle_bool (inject_Z (2 ^ 53)) s then k + 1
  else k.

Definition round_positive (q : Q) : Q :=
  let e := exponent q in
  scale (inject_Z (round_half_even (scale q (- e)))) e.

(** The binary64 number nearest to [q]. *)
Definition round64 (q : Q) : Q :=
  match Qnum q with
  | 0 => 0%Q
  | Zpos _ => round_positive q
  | Zneg _ => (- round_positive (- q))%Q
  end.

(** [x * y] *)
Definition mul (x y : Q) : Q := round64 (x * y).

End Js.

(** ** board.ts *)

Record Cell : Type := mkCell { i : Z; j : Z }.

Record Coin : Type := mkCoin { spawnLocation : Cell; serial : Z }.

Record Cache : Type := mkCache {
  coins : list Coin;
  serialNumber : Z;
  location : Cell
}.

Record LatLng : Type := latLng { lat : Z; lng : Z }.

Record LatLngBounds : Type := latLngBounds {
  southWest : Z * Z;
  northEast : Z * Z
}.

(** An object allocated by the canonicalizer: [ident] stands for the
    reference (two objects are the same reference iff they carry the same
    [ident]), [cell_of] for the fields [{ i, j }]. *)
Record CellObj : Type := mkCellObj { ident : nat; cell_of : Cell }.

(** [class Board]: the two read-only numbers and the private [knownCells];
    [allocated] counts the cell objects created so far and names the next. *)
Record Board : Type := mkBoard {
  tileWidth : Z;
  tileVisibilityRadius : Z;
  knownCells : Js.Map CellObj;
  allocated : nat
}.

Definition newBoard (tileWidth tileVisibilityRadius : Z) : Board :=
  mkBoard tileWidth tileVisibilityRadius [] 0.

(** [[i, j].toString()] *)
Definition knownKey (c : Cell) : string :=
  Js.string_of_Z (i c) ++ "," ++ Js.string_of_Z (j c).

Definition getCanonicalCell (cell : Cell) (b : Board) : CellObj * Board :=
  let key := knownKey cell in
  let b' :=
    if negb (Js.map_has key (knownCells b))
    then mkBoard (tileWidth b) (tileVisibilityRadius b)
           (Js.map_set key (mkCellObj (allocated b) (mkCell (i cell) (j cell)))
              (knownCells b))
           (S (allocated b))
    else b in
  match Js.map_get key (knownCells b') with
  | Some o => (o, b')
  | None => (mkCellObj (allocated b') cell, b')   (* unreachable: the key was just set *)
  end.

Definition getCellForPoint (point : LatLng) (b : Board) : CellObj * Board :=
  getCanonicalCell (mkCell (lat point / tileWidth b) (lng point / tileWidth b)) b.

Definition getCellBounds (cell : Cell) (b : Board) : LatLngBounds :=
  latLngBounds (i cell * tileWidth b, j cell * tileWidth b)
               ((i cell + 1) * tileWidth b, (j cell + 1) * tileWidth b).

(** The integers [lo, lo+1, ...], [n] of them: the values a counting [for]
    loop goes through. *)
Fixpoint count_from (lo : Z) (n : nat) : list Z :=
  match n with
  | O => []
  | S n' => lo :: count_from (lo + 1) n'
  end.

(** [for (let x = -r; x <= r; x++)] *)
Definition offsets (r : Z) : list Z := count_from (- r) (Z.to_nat (2 * r + 1)).

(** Canonicalize the cells of a list one after the other, threading the board. *)
Fixpoint canonicalize_all (cs : list Cell) (b : Board) : list CellObj * Board :=
  match cs with
  | [] => ([], b)
  | c :: cs' =>
      let (o, b1) := getCanonicalCell c b in
      let (os, b2) := canonicalize_all cs' b1 in
      (o :: os, b2)
  end.

Definition getCellsNearPoint (point : LatLng) (b : Board) : list CellObj * Board :=
  let (originCell, b0) := getCellForPoint point b in
  let origin := cell_of originCell in
  canonicalize_all
    (flat_map (fun di =>
       List.map (fun dj => mkCell (i origin + di) (j origin + dj))
                (offsets (tileVisibilityRadius b)))
       (offsets (tileVisibilityRadius b)))
    b0.

Definition createNewCache (cell : Cell) (numCoins : Z) : Cache :=
  let serials := count_from 0 (Z.to_nat numCoins) in
  mkCache (List.map (fun s => mkCoin cell s) serials)
          (Z.of_nat (List.length serials))
          cell.

(** [cellToString] of main.ts: the key of a cell in [cacheStates] and
    [activeCacheRects]. *)
Definition cellToString (cell : Cell) : string :=
  Js.string_of_Z (i cell) ++ ":" ++ Js.string_of_Z (j cell).

Definition parse_cell_key (key : string) : option Cell :=
  match Js.read_int key with
  | Some (ci, String ":" rest) =>
      match Js.read_int rest with
      | Some (cj, EmptyString) => Some (mkCell ci cj)
      | _ => None
      end
  | _ => None
  end.

(** Modelled from the spec: [Board.getCellAtKey], which [populateMap] calls
    and board.ts does not define.  Its caller names its purpose ("Convert key
    to Cell object") and the spec has every cell pass through the
    canonicalizer, so it reads the two integers of an ["i:j"] key and
    canonicalizes that cell.  A string that is no such key gives the cell
    (0, 0); [populateMap] only passes keys made by [cellToString]. *)
Definition getCellAtKey (key : string) (b : Board) : CellObj * Board :=
  match parse_cell_key key with
  | Some c => getCanonicalCell c b
  | None => getCanonicalCell (mkCell 0 0) b
  end.

(** ** JSON text: [JSON.stringify] and [JSON.parse] *)

Module Json.

#[local] Set Warnings "-register-all".

Inductive json : Type :=
| JNull
| JBool (b : bool)
| JNum (n : Z)
| JStr (s : string)
| JArr (elements : list json)
| JObj (members : list (string * json)).

(** [SyntaxError] is the exception [JSON.parse] throws.  [Unsupported] marks
    text the embedding does not interpret (a number with a fraction or an
    exponent, an escape beyond code unit 255): nothing is claimed there. *)
Inductive parse_error : Type := SyntaxError | Unsupported.

Inductive result (A : Type) : Type :=
| Ok (a : A)
| Err (e : parse_error).
Arguments Ok {A} a.
Arguments Err {A} e.

Definition dquote : ascii := "034"%char.
Definition backslash : ascii := "092"%char.

Definition hex_char (n : nat) : ascii :=
  match n with
  | 0 => "0" | 1 => "1" | 2 => "2" | 3 => "3" | 4 => "4" | 5 => "5" | 6 => "6"
  | 7 => "7" | 8 => "8" | 9 => "9" | 10 => "a" | 11 => "b" | 12 => "c"
  | 13 => "d" | 14 => "e" | _ => "f"
  end%char%nat.

(** [QuoteJSONString], one code unit at a time. *)
Definition escape_char (c : ascii) : string :=
  if Ascii.eqb c dquote then String backslash (String dquote EmptyString)
  else if Ascii.eqb c backslash then String backslash (String backslash EmptyString)
  else if Ascii.eqb c "008" then String backslash "b"
  else if Ascii.eqb c "009" then String backslash "t"
  else if Ascii.eqb c "010" then String backslash "n"
  else if Ascii.eqb c "012" then String backslash "f"
  else if Ascii.eqb c "013" then String backslash "r"
  else if (nat_of_ascii c <? 32)%nat
  then String backslash
         (String "u" (String "0" (String "0"
           (String (hex_char (nat_of_ascii c / 16))
             (String (hex_char (nat_of_ascii c mod 16)) EmptyString)))))
  else String c EmptyString.

Fixpoint escape (s : string) : string :=
  match s with
  | EmptyString => EmptyString
  | String c r => escape_char c ++ escape r
  end.

Definition quote (s : string) : string :=
  String dquote (escape s ++ String dquote EmptyString).

(** [JSON.stringify] without indentation. *)
Fixpoint stringify (v : json) : string :=
  match v with
  | JNull => "null"
  | JBool true => "true"
  | JBool false => "false"
  | JNum n => Js.string_of_Z n
  | JStr s => quote s
  | JArr l =>
      "[" ++
      (fix elems (l : list json) : string :=
         match l with
         | [] => "]"
         | [x] => stringify x ++ "]"
         | x :: l' => stringify x ++ "," ++ elems l'
         end) l
  | JObj m =>
      "{" ++
      (fix membs (m : list (string * json)) : string :=
         match m with
         | [] => "}"
         | [(k, x)] => quote k ++ ":" ++ stringify x ++ "}"
         | (k, x) :: m' => quote k ++ ":" ++ stringify x ++ "," ++ membs m'
         end) m
  end.

Definition print_elements (l : list json) : string :=
  (fix elems (l : list json) : string :=
     match l with
     | [] => "]"
     | [x] => stringify x ++ "]"
     | x :: l' => stringify x ++ "," ++ elems l'
     end) l.

Definition print_members (m : list (string * json)) : string :=
  (fix membs (m : list (string * json)) : string :=
     match m with
     | [] => "}"
     | [(k, x)] => quote k ++ ":" ++ stringify x ++ "}"
     | (k, x) :: m' => quote k ++ ":" ++ stringify x ++ "," ++ membs m'
     end) m.

Fixpoint json_size (v : json) : nat :=
  match v with
  | JArr l =>
      S ((fix sizes (l : list json) : nat :=
            match l with
            | [] => O
            | x :: l' => S (json_size x + sizes l')
            end) l)
  | JObj m =>
      S ((fix sizes (m : list (string * json)) : nat :=
            match m with
            | [] => O
            | (_, x) :: m' => S (json_size x + sizes m')
            end) m)
  | _ => 1%nat
  end.

Definition elements_size (l : list json) : nat :=
  (fix sizes (l : list json) : nat :=
     match l with
     | [] => O
     | x :: l' => S (json_size x + sizes l')
     end) l.

Definition members_size (m : list (string * json)) : nat :=
  (fix sizes (m : list (string * json)) : nat :=
     match m with
     | [] => O
     | (_, x) :: m' => S (json_size x + sizes m')
     end) m.

Definition is_ws (c : ascii) : bool :=
  (Ascii.eqb c " " || Ascii.eqb c "009" || Ascii.eqb c "010" || Ascii.eqb c "013")%bool.

Fixpoint skip_ws (s : string) : string :=
  match s with
  | String c r => if is_ws c then skip_ws r else s
  | EmptyString => EmptyString
  end.

Definition hex_value (c : ascii) : option nat :=
  let n := nat_of_ascii c in
  if (andb (48 <=? n) (n <=? 57))%nat then Some (n - 48)%nat
  else if (andb (97 <=? n) (n <=? 102))%nat then Some (n - 87)%nat
  else if (andb (65 <=? n) (n <=? 70))%nat then Some (n - 55)%nat
  else None.

Definition hex4 (a b c d : ascii) : option nat :=
  match hex_value a, hex_value b, hex_value c, hex_value d with
  | Some x, Some y, Some z, Some w => Some (((x * 16 + y) * 16 + z) * 16 + w)%nat
  | _, _, _, _ => None
  end.

Definition cons_char (c : ascii) (r : result (string * string)) : result (string * string) :=
  match r with
  | Ok (s, rest) => Ok (String c s, rest)
  | Err e => Err e
  end.

(** The characters of a string literal after its opening quote, up to and
    including the closing quote. *)
Fixpoint parse_string_body (s : string) : result (string * string) :=
  match s with
  | EmptyString => Err SyntaxError
  | String c r =>
      if Ascii.eqb c dquote then Ok (EmptyString, r)
      else if Ascii.eqb c backslash then
        match r with
        | EmptyString => Err SyntaxError
        | String e r1 =>
            if Ascii.eqb e dquote then cons_char dquote (parse_string_body r1)
            else if Ascii.eqb e backslash then cons_char backslash (parse_string_body r1)
            else if Ascii.eqb e "/" then cons_char "/" (parse_string_body r1)
            else if Ascii.eqb e "b" then cons_char "008" (parse_string_body r1)
            else if Ascii.eqb e "t" then cons_char "009" (parse_string_body r1)
            else if Ascii.eqb e "n" then cons_char "010" (parse_string_body r1)
            else if Ascii.eqb e "f" then cons_char "012" (parse_string_body r1)
            else if Ascii.eqb e "r" then cons_char "013" (parse_string_body r1)
            else if Ascii.eqb e "u" then
              match r1 with
              | String h1 (String h2 (String h3 (String h4 r2))) =>
                  match hex4 h1 h2 h3 h4 with
                  | Some n =>
                      if (n <? 256)%nat
                      then cons_char (ascii_of_nat n) (parse_string_body r2)
                      else Err Unsupported
                  | None => Err SyntaxError
                  end
              | _ => Err SyntaxError
              end
            else Err SyntaxError
        end
      else if (nat_of_ascii c <? 32)%nat then Err SyntaxError
      else cons_char c (parse_string_body r)
  end.

(** [s] starts with [lit]: what follows it. *)
Fixpoint strip_prefix (lit s : string) : option string :=
  match lit, s with
  | EmptyString, _ => Some s
  | String a lit', String b s' => if Ascii.eqb a b then strip_prefix lit' s' else None
  | String _ _, EmptyString => None
  end.

Definition parse_literal (lit : string) (v : json) (s : string) : result (json * string) :=
  match strip_prefix lit s with
  | Some rest => Ok (v, rest)
  | None => Err SyntaxError
  end.

Definition string_tail (s : string) : string :=
  match s with
  | String _ r => r
  | EmptyString => EmptyString
  end.

Definition starts_with (c : ascii) (s : string) : bool :=
  match s with
  | String c' _ => Ascii.eqb c' c
  | EmptyString => false
  end.

Definition is_empty (s : string) : bool :=
  match s with
  | EmptyString => true
  | String _ _ => false
  end.

(** A number token: an optional minus sign, then either a single zero or
    digits that do not start with zero; a fraction or an exponent after it is
    left uninterpreted. *)
Definition parse_number (s : string) : result (json * string) :=
  let negative := starts_with "-" s in
  let s1 := if negative then string_tail s else s in
  let (ds, rest) := Js.span_digits s1 in
  if is_empty ds then Err SyntaxError
  else if (starts_with "0" ds && negb (is_empty (string_tail ds)))%bool
  then Err SyntaxError
  else
    match Js.Z_of_digits ds with
    | None => Err SyntaxError
    | Some n =>
        if (starts_with "." rest || starts_with "e" rest || starts_with "E" rest)%bool
        then Err Unsupported
        else Ok (JNum (if negative then - n else n), rest)
    end.

(** Recursive descent; [fuel] bounds the nesting and the number of siblings.
    [parse] starts with the length of the text, which is enough for every
    text [stringify] prints. *)
Fixpoint parse_value (fuel : nat) (s : string) {struct fuel} : result (json * string) :=
  match fuel with
  | O => Err Unsupported
  | S f =>
      match skip_ws s with
      | EmptyString => Err SyntaxError
      | String c r =>
          if Ascii.eqb c "n" then parse_literal "null" JNull (String c r)
          else if Ascii.eqb c "t" then parse_literal "true" (JBool true) (String c r)
          else if Ascii.eqb c "f" then parse_literal "false" (JBool false) (String c r)
          else if Ascii.eqb c dquote then
            match parse_string_body r with
            | Ok (str, rest) => Ok (JStr str, rest)
            | Err e => Err e
            end
          else if Ascii.eqb c "[" then
            if starts_with "]" (skip_ws r)
            then Ok (JArr [], string_tail (skip_ws r))
            else
              match parse_elements f r with
              | Ok (l, rest) => Ok (JArr l, rest)
              | Err e => Err e
              end
          else if Ascii.eqb c "{" then
            if starts_with "}" (skip_ws r)
            then Ok (JObj [], string_tail (skip_ws r))
            else
              match parse_members f r with
              | Ok (m, rest) => Ok (JObj m, rest)
              | Err e => Err e
              end
          else if (Ascii.eqb c "-" || Js.is_digit c)%bool then parse_number (String c r)
          else Err SyntaxError
      end
  end
with parse_elements (fuel : nat) (s : string) {struct fuel} : result (list json * string) :=
  match fuel with
  | O => Err Unsupported
  | S f =>
      match parse_value f s with
      | Err e => Err e
      | Ok (v, r) =>
          if starts_with "," (skip_ws r) then
            match parse_elements f (string_tail (skip_ws r)) with
            | Ok (l, rest) => Ok (v :: l, rest)
            | Err e => Err e
            end
          else if starts_with "]" (skip_ws r)
          then Ok ([v], string_tail (skip_ws r))
          else Err SyntaxError
      end
  end
with parse_members (fuel : nat) (s : string) {struct fuel}
  : result (list (string * json) * string) :=
  match fuel with
  | O => Err Unsupported
  | S f =>
      if starts_with dquote (skip_ws s) then
        match parse_string_body (string_tail (skip_ws s)) with
        | Err e => Err e
        | Ok (k, r1) =>
            if starts_with ":" (skip_ws r1) then
              match parse_value f (string_tail (skip_ws r1)) with
              | Err e => Err e
              | Ok (v, r3) =>
                  if starts_with "," (skip_ws r3) then
                    match parse_members f (string_tail (skip_ws r3)) with
                    | Ok (m, rest) => Ok ((k, v) :: m, rest)
                    | Err e => Err e
                    end
                  else if starts_with "}" (skip_ws r3)
                  then Ok ([(k, v)], string_tail (skip_ws r3))
                  else Err SyntaxError
              end
            else Err SyntaxError
        end
      else Err SyntaxError
  end.

(** [JSON.parse]: one value, white space around it, nothing else. *)
Definition parse (s : string) : result json :=
  match parse_value (S (String.length s)) s with
  | Err e => Err e
  | Ok (v, rest) =>
      match skip_ws rest with
      | EmptyString => Ok v
      | String _ _ => Err SyntaxError
      end
  end.

(** Property read [o.name]: the last member of that name, as [JSON.parse]
    lets a later duplicate win. *)
Fixpoint get_prop (name : string) (members : list (string * json)) : option json :=
  match members with
  | [] => None
  | (k, v) :: rest =>
      match get_prop name rest with
      | Some v' => Some v'
      | None => if String.eqb name k then Some v else None
      end
  end.

End Json.

(** ** main.ts: the session *)

(** What a [leaflet.Rectangle] of the program carries: its bounds and the
    [cache] and [cell] its popup callback closes over. *)
Record Rectangle : Type := mkRectangle {
  rect_bounds : LatLngBounds;
  popup_cache : Cache;
  popup_cell : Cell
}.

(** The module-level variables of main.ts and the one [localStorage] item
    the program uses ([None] when [getItem] returns [null]). *)
Record Game : Type := mkGame {
  board : Board;
  playerWallet : list Coin;
  cacheStates : Js.Map (list Coin);
  activeCacheRects : Js.Map Rectangle;
  playerMarker : LatLng;
  movementHistory : list LatLng;
  localStorage : option string
}.

(** How a handler ends: it runs to its end, it is left by an exception of the
    kind named, or it takes the session to values the typed embedding has no
    place for (nothing is claimed about those). *)
Inductive Outcome : Type :=
| Done (g : Game)
| Uncaught (e : Json.parse_error) (g : Game)
| OutsideModel.

Definition OAKES_CLASSROOM : LatLng := latLng 369894000 (-1220627000).
Definition TILE_DEGREES : Z := 1000.
Definition NEIGHBORHOOD_SIZE : Z := 8.
(** [0.1].  The literal is the binary64 number nearest to one tenth; no
    binary64 number lies between the two, so [luck < 0.1] on numbers is the
    comparison with one tenth. *)
Definition CACHE_SPAWN_PROBABILITY : Q := 1 # 10.

Definition with_board (b : Board) (g : Game) : Game :=
  mkGame b (playerWallet g) (cacheStates g) (activeCacheRects g)
         (playerMarker g) (movementHistory g) (localStorage g).
Definition with_playerWallet (w : list Coin) (g : Game) : Game :=
  mkGame (board g) w (cacheStates g) (activeCacheRects g)
         (playerMarker g) (movementHistory g) (localStorage g).
Definition with_cacheStates (m : Js.Map (list Coin)) (g : Game) : Game :=
  mkGame (board g) (playerWallet g) m (activeCacheRects g)
         (playerMarker g) (movementHistory g) (localStorage g).
Definition with_activeCacheRects (m : Js.Map Rectangle) (g : Game) : Game :=
  mkGame (board g) (playerWallet g) (cacheStates g) m
         (playerMarker g) (movementHistory g) (localStorage g).
Definition with_playerMarker (p : LatLng) (g : Game) : Game :=
  mkGame (board g) (playerWallet g) (cacheStates g) (activeCacheRects g)
         p (movementHistory g) (localStorage g).
Definition with_movementHistory (h : list LatLng) (g : Game) : Game :=
  mkGame (board g) (playerWallet g) (cacheStates g) (activeCacheRects g)
         (playerMarker g) h (localStorage g).
Definition with_localStorage (s : option string) (g : Game) : Game :=
  mkGame (board g) (playerWallet g) (cacheStates g) (activeCacheRects g)
         (playerMarker g) (movementHistory g) s.

(** [Array.prototype.pop]: the last element and the shortened array. *)
Definition pop {A : Type} (l : list A) : option (A * list A) :=
  match List.rev l with
  | [] => None
  | x :: r => Some (x, List.rev r)
  end.

Definition Qlt_bool (x y : Q) : bool :=
  (Qnum x * QDen y <? Qnum y * QDen x)%Z.

Definition serializeCoin (coin : Coin) : string :=
  Js.string_of_Z (i (spawnLocation coin)) ++ ":" ++
  Js.string_of_Z (j (spawnLocation coin)) ++ "#" ++ Js.string_of_Z (serial coin).

(** *** The persisted snapshot *)

Definition encode_coin (c : Coin) : Json.json :=
  Json.JObj
    [("spawnLocation",
      Json.JObj [("i", Json.JNum (i (spawnLocation c)));
                 ("j", Json.JNum (j (spawnLocation c)))]);
     ("serial", Json.JNum (serial c))].

Definition encode_entry (e : string * list Coin) : Json.json :=
  Json.JArr [Json.JStr (fst e); Json.JArr (List.map encode_coin (snd e))].

Definition encode_latLng (p : LatLng) : Json.json :=
  Json.JObj [("lat", Json.JNum (lat p)); ("lng", Json.JNum (lng p))].

(** The object literal [gameState] of [saveGameState]. *)
Definition encode_state (g : Game) : Json.json :=
  Json.JObj
    [("playerWallet", Json.JArr (List.map encode_coin (playerWallet g)));
     ("cacheStates", Json.JArr (List.map encode_entry (cacheStates g)));
     ("movementHistory", Json.JArr (List.map encode_latLng (movementHistory g)))].

Definition saveGameState (g : Game) : Game :=
  with_localStorage (Some (Json.stringify (encode_state g))) g.

(** Reading the parsed snapshot back.  A document is accepted when the
    untyped reads of [loadGameState] give values of the declared types:
    coins as [saveGameState] writes them, entries that start with a key and
    a coin array, points with numeric [lat] and [lng]. *)
Fixpoint decode_list {A : Type} (f : Json.json -> option A) (l : list Json.json)
  : option (list A) :=
  match l with
  | [] => Some []
  | x :: l' =>
      match f x, decode_list f l' with
      | Some a, Some r => Some (a :: r)
      | _, _ => None
      end
  end.

Definition decode_coin (v : Json.json) : option Coin :=
  match v with
  | Json.JObj [(k1, Json.JObj [(k2, Json.JNum ci); (k3, Json.JNum cj)]);
               (k4, Json.JNum s)] =>
      if (String.eqb k1 "spawnLocation" && String.eqb k2 "i" &&
          String.eqb k3 "j" && String.eqb k4 "serial")%bool
      then Some (mkCoin (mkCell ci cj) s)
      else None
  | _ => None
  end.

Definition decode_coins (v : Json.json) : option (list Coin) :=
  match v with
  | Json.JArr l => decode_list decode_coin l
  | _ => None
  end.

(** The destructuring [[cellKey, coins]] of one element of [cacheStates]. *)
Definition decode_entry (v : Json.json) : option (string * list Coin) :=
  match v with
  | Json.JArr (Json.JStr k :: cs :: _) =>
      match decode_coins cs with
      | Some l => Some (k, l)
      | None => None
      end
  | _ => None
  end.

Definition decode_latLng (v : Json.json) : option LatLng :=
  match v with
  | Json.JObj m =>
      match Json.get_prop "lat" m, Json.get_prop "lng" m with
      | Some (Json.JNum a), Some (Json.JNum b) => Some (latLng a b)
      | _, _ => None
      end
  | _ => None
  end.

Record Snapshot : Type := mkSnapshot {
  snap_wallet : list Coin;
  snap_entries : list (string * list Coin);
  snap_history : list LatLng
}.

Definition decode_state (v : Json.json) : option Snapshot :=
  match v with
  | Json.JObj m =>
      match Json.get_prop "playerWallet" m,
            Json.get_prop "cacheStates" m,
            Json.get_prop "movementHistory" m with
      | Some w, Some (Json.JArr es), Some (Json.JArr ps) =>
          match decode_coins w, decode_list decode_entry es,
                decode_list decode_latLng ps with
          | Some w', Some es', Some ps' => Some (mkSnapshot w' es' ps')
          | _, _, _ => None
          end
      | _, _, _ => None
      end
  | _ => None
  end.

(** *** Caches entering and leaving the visibility window *)

(** The five buttons and the position sensor. *)
Inductive Direction : Type := MoveUp | MoveDown | MoveLeft | MoveRight.

Inductive Event : Type :=
| ClickMove (d : Direction)
| PositionUpdate (latitude longitude : Z)
| ClickCollect (cellKey : string)
| ClickDeposit (cellKey : string)
| ClickReset (confirmation : option string).

Section Session.

Variable luck : string -> Q.

Definition cellLuck (cell : Cell) : Q := luck (cellToString cell).

Definition spawnCache (cellToSpawn : Cell) (g : Game) : Game :=
  let bounds := getCellBounds cellToSpawn (board g) in
  let pointValue := Qfloor (Js.mul (cellLuck cellToSpawn) 100) in
  let cache := createNewCache cellToSpawn pointValue in
  let g1 :=
    with_cacheStates
      (Js.map_set (cellToString cellToSpawn) (coins cache) (cacheStates g)) g in
  with_activeCacheRects
    (Js.map_set (cellToString cellToSpawn)
       (mkRectangle bounds cache cellToSpawn) (activeCacheRects g1)) g1.

(** [savedCoins] is read under a non-null assertion; [restoreCacheIfNeeded]
    calls this only after [has], so the [None] branch is never taken. *)
Definition restoreCache (cell : Cell) (g : Game) : Game :=
  match Js.map_get (cellToString cell) (cacheStates g) with
  | Some savedCoins =>
      let bounds := getCellBounds cell (board g) in
      let cache := mkCache savedCoins (Z.of_nat (List.length savedCoins)) cell in
      with_activeCacheRects
        (Js.map_set (cellToString cell) (mkRectangle bounds cache cell)
           (activeCacheRects g)) g
  | None => g
  end.

Definition spawnCacheIfNeeded (cell : Cell) (cellKey : string) (g : Game) : Game :=
  if negb (Js.map_has cellKey (cacheStates g)) then
    if Qlt_bool (cellLuck cell) CACHE_SPAWN_PROBABILITY
    then spawnCache cell g
    else g
  else g.

Definition restoreCacheIfNeeded (cell : Cell) (cellKey : string) (g : Game) : Game :=
  if (Js.map_has cellKey (cacheStates g) &&
      negb (Js.map_has cellKey (activeCacheRects g)))%bool
  then restoreCache cell g
  else g.

Definition getVisibleCells (location : LatLng) (b : Board) : list string * Board :=
  let (nearbyCells, b') := getCellsNearPoint location b in
  (fold_left (fun visibleCells neighbor =>
                Js.set_add (cellToString (cell_of neighbor)) visibleCells)
             nearbyCells [],
   b').

Definition removeInactiveCaches (visibleCells : list string) (g : Game) : Game :=
  with_activeCacheRects
    (filter (fun entry => Js.set_has (fst entry) visibleCells)
            (activeCacheRects g)) g.

(** The body of the loop of [populateMap]. *)
Definition visitCell (g : Game) (cellKey : string) : Game :=
  let (cell, b) := getCellAtKey cellKey (board g) in
  restoreCacheIfNeeded (cell_of cell) cellKey
    (spawnCacheIfNeeded (cell_of cell) cellKey (with_board b g)).

Definition populateMap (g : Game) : Game :=
  let (visibleCells, b) := getVisibleCells (playerMarker g) (board g) in
  removeInactiveCaches visibleCells
    (fold_left visitCell visibleCells (with_board b g)).

(** *** The handlers *)

Definition movePlayer (deltaLat deltaLng : Z) (g : Game) : Game :=
  let location :=
    latLng (lat (playerMarker g) + deltaLat) (lng (playerMarker g) + deltaLng) in
  let g1 := with_playerMarker location g in
  let g2 := with_movementHistory (movementHistory g1 ++ [location]) g1 in
  populateMap g2.

Definition clickMove (d : Direction) (g : Game) : Game :=
  match d with
  | MoveUp => movePlayer TILE_DEGREES 0 g
  | MoveDown => movePlayer (- TILE_DEGREES) 0 g
  | MoveLeft => movePlayer 0 (- TILE_DEGREES) g
  | MoveRight => movePlayer 0 TILE_DEGREES g
  end.

(** The success callback of [watchPosition]. *)
Definition positionUpdate (latitude longitude : Z) (g : Game) : Game :=
  let newLocation := latLng latitude longitude in
  let g1 := with_playerMarker newLocation g in
  let g2 := with_movementHistory (movementHistory g1 ++ [newLocation]) g1 in
  populateMap g2.

(** The collect button of the popup of the rectangle registered under
    [cellKey]; without such a rectangle there is no button to click. *)
Definition collect (cellKey : string) (g : Game) : Game :=
  match Js.map_get cellKey (activeCacheRects g) with
  | None => g
  | Some rect =>
      let cache := popup_cache rect in
      let cell := popup_cell rect in
      match pop (coins cache) with
      | None => g
      | Some (coin, rest) =>
          let cache' := mkCache rest (serialNumber cache) (location cache) in
          let g1 :=
            with_activeCacheRects
              (Js.map_set cellKey (mkRectangle (rect_bounds rect) cache' cell)
                 (activeCacheRects g)) g in
          let g2 := with_playerWallet (playerWallet g1 ++ [coin]) g1 in
          let g3 :=
            with_cacheStates
              (Js.map_set (cellToString cell) (coins cache') (cacheStates g2)) g2 in
          saveGameState g3
      end
  end.

Definition deposit (cellKey : string) (g : Game) : Game :=
  match Js.map_get cellKey (activeCacheRects g) with
  | None => g
  | Some rect =>
      let cache := popup_cache rect in
      let cell := popup_cell rect in
      match pop (playerWallet g) with
      | None => g
      | Some (coin, rest) =>
          let g1 := with_playerWallet rest g in
          let cache' :=
            mkCache (coins cache ++ [coin]) (serialNumber cache) (location cache) in
          let g2 :=
            with_activeCacheRects
              (Js.map_set cellKey (mkRectangle (rect_bounds rect) cache' cell)
                 (activeCacheRects g1)) g1 in
          let g3 :=
            with_cacheStates
              (Js.map_set (cellToString cell) (coins cache') (cacheStates g2)) g2 in
          saveGameState g3
      end
  end.

(** [confirmation?.toLowerCase() === "yes"] *)
Definition confirmed (confirmation : option string) : bool :=
  match confirmation with
  | Some answer => String.eqb (Js.toLowerCase answer) "yes"
  | None => false
  end.

(** The loop "Return all coins to their original caches": every entry is set
    to a copy of itself. *)
Definition rewriteEntries (m : Js.Map (list Coin)) : Js.Map (list Coin) :=
  fold_left (fun acc entry => Js.map_set (fst entry) (snd entry) acc) m m.

(** The click handler of [reset-game].  [movementHistory.length = 1] keeps
    the first point of a non-empty array; on an empty one it would leave a
    hole, which no [list LatLng] can hold. *)
Definition resetGame (confirmation : option string) (g : Game) : Outcome :=
  if confirmed confirmation then
    match movementHistory g with
    | [] => OutsideModel
    | first :: _ =>
        let g1 := with_playerWallet [] g in
        let g2 := with_cacheStates (rewriteEntries (cacheStates g1)) g1 in
        let g3 := with_activeCacheRects [] g2 in
        let g4 := with_movementHistory [first] g3 in
        let g5 := with_playerMarker OAKES_CLASSROOM g4 in
        let g6 := saveGameState g5 in
        Done (populateMap g6)
    end
  else Done g.

Definition loadGameState (g : Game) : Outcome :=
  match localStorage g with
  | None => Done g
  | Some EmptyString => Done g
  | Some savedState =>
      match Json.parse savedState with
      | Json.Err Json.SyntaxError => Uncaught Json.SyntaxError g
      | Json.Err Json.Unsupported => OutsideModel
      | Json.Ok gameState =>
          match decode_state gameState with
          | None => OutsideModel
          | Some snap =>
              let g1 := with_playerWallet (snap_wallet snap) g in
              let g2 :=
                with_cacheStates
                  (fold_left (fun m entry => Js.map_set (fst entry) (snd entry) m)
                             (snap_entries snap) []) g1 in
              let g3 := with_movementHistory (snap_history snap) g2 in
              let g4 :=
                match List.rev (movementHistory g3) with
                | lastLocation :: _ => with_playerMarker lastLocation g3
                | [] => g3
                end in
              Done (populateMap g4)
          end
      end
  end.

Definition handle (e : Event) (g : Game) : Outcome :=
  match e with
  | ClickMove d => Done (clickMove d g)
  | PositionUpdate latitude longitude => Done (positionUpdate latitude longitude g)
  | ClickCollect cellKey => Done (collect cellKey g)
  | ClickDeposit cellKey => Done (deposit cellKey g)
  | ClickReset confirmation => resetGame confirmation g
  end.

(** A sequence of events, stopping at the first handler that does not end
    normally. *)
Fixpoint run (es : list Event) (g : Game) : Outcome :=
  match es with
  | [] => Done g
  | e :: es' =>
      match handle e g with
      | Done g' => run es' g'
      | other => other
      end
  end.

(** The module-level initial values, over whatever the browser has stored. *)
Definition initial (stored : option string) : Game :=
  mkGame (newBoard TILE_DEGREES NEIGHBORHOOD_SIZE) [] [] []
         OAKES_CLASSROOM [OAKES_CLASSROOM] stored.

(** The page load: the module body ends with [loadGameState()]. *)
Definition start (stored : option string) : Outcome :=
  loadGameState (initial stored).

(** The sessions the program can be in. *)
Inductive reachable : Game -> Prop :=
| reach_start stored g :
    start stored = Done g -> reachable g
| reach_step g e g' :
    reachable g -> handle e g = Done g' -> reachable g'.

End Session.

(** ** The memento revision of main.ts

    The revision before persistence (the second of the three in the file):
    it has [cacheStates] and [activeCacheRects] but neither
    [movementHistory] nor [saveGameState].  Its [spawnCache] and
    [restoreCache] are, word for word, those of the last revision; its
    [populateMap] does in one loop over the cell objects what the last
    revision does through [getVisibleCells], [getCellAtKey],
    [spawnCacheIfNeeded], [restoreCacheIfNeeded] and
    [removeInactiveCaches].  The fields of [Game] this revision does not have
    are carried along untouched. *)
Module Rev2.
Section Session.

Variable luck : string -> Q.

(** One turn of the loop over [board.getCellsNearPoint(location)]: the
    session and the set [visibleCells] so far. *)
Definition visitNeighbor (acc : Game * list string) (neighbor : CellObj)
  : Game * list string :=
  let (g, visibleCells) := acc in
  let cellKey := cellToString (cell_of neighbor) in
  let visibleCells' := Js.set_add cellKey visibleCells in
  if (negb (Js.map_has cellKey (cacheStates g)) &&
      Qlt_bool (cellLuck luck (cell_of neighbor)) CACHE_SPAWN_PROBABILITY)%bool
  then (spawnCache luck (cell_of neighbor) g, visibleCells')
  else if (Js.map_has cellKey (cacheStates g) &&
           negb (Js.map_has cellKey (activeCacheRects g)))%bool
  then (restoreCache (cell_of neighbor) g, visibleCells')
  else (g, visibleCells').

Definition populateMap (g : Game) : Game :=
  let (nearby, b) := getCellsNearPoint (playerMarker g) (board g) in
  let (g1, visibleCells) := fold_left visitNeighbor nearby (with_board b g, []) in
  removeInactiveCaches visibleCells g1.

Definition movePlayer (deltaLat deltaLng : Z) (g : Game) : Game :=
  let location :=
    latLng (lat (playerMarker g) + deltaLat) (lng (playerMarker g) + deltaLng) in
  populateMap (with_playerMarker location g).

End Session.
End Rev2.

(** ** Predicates and reference functions used by the statements *)

(** What follows a printed integer does not continue it. *)
Definition no_digit_head (rest : string) : Prop :=
  match rest with
  | String c _ => Js.is_digit c = false
  | EmptyString => True
  end.

(** What may follow a value inside a document: nothing, or the comma or
    the closing bracket of the enclosing array or object. *)
Definition delimited (rest : string) : Prop :=
  match rest with
  | EmptyString => True
  | String c _ => c = ","%char \/ c = "]"%char \/ c = "}"%char
  end.

(** The entries of [knownCells] are filed under the key of the cell they
    hold, and their identities are below the allocation counter. *)
Definition board_ok (b : Board) : Prop :=
  forall k o, In (k, o) (knownCells b) ->
    k = knownKey (cell_of o) /\ (ident o < allocated b)%nat.

(** The cells of the square around a point, row after row. *)
Definition near_cells (tw r : Z) (p : LatLng) : list Cell :=
  flat_map (fun di =>
     List.map (fun dj => mkCell (lat p / tw + di) (lng p / tw + dj)) (offsets r))
     (offsets r).

(** A document that [stringify] and [parse_value] take there and back. *)
Definition parses_back (v : Json.json) : Prop :=
  forall fuel rest,
    (Json.json_size v <= fuel)%nat -> delimited rest ->
    Json.parse_value fuel (Json.stringify v ++ rest) = Json.Ok (v, rest).

(** The keys of the cells in the visibility window of the player's position. *)
Definition window_keys (g : Game) : list string :=
  List.map cellToString
    (near_cells (tileWidth (board g)) (tileVisibilityRadius (board g))
                (playerMarker g)).

Definition in_window (g : Game) (cellKey : string) : bool :=
  Js.set_has cellKey (window_keys g).

(** A rendered cache mirrors the store: its rectangle is registered under
    the key of its cell and its coins are the entry of that key. *)
Definition mirrors (store : Js.Map (list Coin)) (k : string) (r : Rectangle) : Prop :=
  cellToString (popup_cell r) = k /\
  Js.map_get k store = Some (coins (popup_cache r)).

(** The well-formed sessions: sound board, maps with one entry per key,
    every rendered cache a mirror of its store entry. *)
Definition coherent (g : Game) : Prop :=
  board_ok (board g) /\
  NoDup (Js.map_keys (cacheStates g)) /\
  NoDup (Js.map_keys (activeCacheRects g)) /\
  forall k r, In (k, r) (activeCacheRects g) -> mirrors (cacheStates g) k r.

(** The rectangle [spawnCache] and [restoreCache] put on the map for a cell
    that holds the coins [cs]. *)
Definition rendering (b : Board) (c : Cell) (cs : list Coin) : Rectangle :=
  mkRectangle (getCellBounds c b) (mkCache cs (Z.of_nat (List.length cs)) c) c.

(** The spawn test of [spawnCacheIfNeeded] on a key. *)
Definition lucky (luck : string -> Q) (k : string) : bool :=
  Qlt_bool (luck k) CACHE_SPAWN_PROBABILITY.

(** The coins a cell spawns with. *)
Definition spawned_coins (luck : string -> Q) (c : Cell) : list Coin :=
  coins (createNewCache c (Qfloor (Js.mul (luck (cellToString c)) 100))).

(** The store entry of a cell after a refresh that visits it, from its entry
    before. *)
Definition store_after (luck : string -> Q) (c : Cell) (before : option (list Coin))
  : option (list Coin) :=
  match before with
  | Some cs => Some cs
  | None =>
      if lucky luck (cellToString c) then Some (spawned_coins luck c) else None
  end.

(** The rectangle of a cell after a refresh that visits it, from its
    rectangle before and its store entry after. *)
Definition active_after (b : Board) (c : Cell) (before : option Rectangle)
  (entry : option (list Coin)) : option Rectangle :=
  match before with
  | Some r => Some r
  | None =>
      match entry with
      | Some cs => Some (rendering b c cs)
      | None => None
      end
  end.

(** All the coins of a session: the wallet, then the store entry by entry. *)
Definition all_coins (g : Game) : list Coin :=
  (playerWallet g ++ List.concat (Js.map_values (cacheStates g)))%list.

Definition total_coins (g : Game) : nat := List.length (all_coins g).

(** The state a snapshot stands for. *)
Definition snapshot_of (g : Game) : Snapshot :=
  mkSnapshot (playerWallet g) (cacheStates g) (movementHistory g).

Definition stored_snapshot (g : Game) : option Snapshot :=
  match localStorage g with
  | None => None
  | Some text =>
      match Json.parse text with
      | Json.Ok doc => decode_state doc
      | Json.Err _ => None
      end
  end.

(** Everything of a session but the board's private cell cache. *)
Definition same_session (g g' : Game) : Prop :=
  playerWallet g' = playerWallet g /\
  playerMarker g' = playerMarker g /\
  movementHistory g' = movementHistory g /\
  localStorage g' = localStorage g /\
  tileWidth (board g') = tileWidth (board g) /\
  tileVisibilityRadius (board g') = tileVisibilityRadius (board g).

(** The board every session is created with. *)
Definition standard_board (g : Game) : Prop :=
  tileWidth (board g) = TILE_DEGREES /\
  tileVisibilityRadius (board g) = NEIGHBORHOOD_SIZE.

(** The events that move the player. *)
Definition is_movement (e : Event) : bool :=
  match e with
  | ClickMove _ | PositionUpdate _ _ => true
  | _ => false
  end.

(** A sample of [luck] for the worked sessions: two lucky cells just north
    of the classroom, every other cell unlucky. *)
Definition sample_key_a : string := "369895:-1220627".
Definition sample_key_b : string := "369895:-1220626".
Definition sample_luck (k : string) : Q :=
  if String.eqb k sample_key_a then 5 # 100
  else if String.eqb k sample_key_b then 3 # 100
  else 1 # 2.

(** The largest binary64 number below one tenth, [0.09999999999999999], and a
    [luck] that gives it to the cell just north of the classroom. *)
Definition just_below_a_tenth : Q := 7205759403792793 # 72057594037927936.

Definition rounding_luck (k : string) : Q :=
  if String.eqb k sample_key_a then just_below_a_tenth else 1 # 2.

(** The session after one click on the up button, starting with nothing
    stored. *)
Definition sample_session : Game := clickMove sample_luck MoveUp (initial None).

Definition sample_cell_a : Cell := mkCell 369895 (-1220627).
Definition sample_cell_b : Cell := mkCell 369895 (-1220626).

(** The sample session after collecting one coin at its first lucky cell. *)
Definition sample_collected : Game := collect sample_key_a sample_session.

(** Then depositing that coin into the second lucky cell. *)
Definition sample_deposited : Game := deposit sample_key_b sample_collected.

(** Or, instead, resetting the game with the coin still in the wallet. *)
Definition sample_after_reset : Game :=
  match resetGame sample_luck (Some "yes") sample_collected with
  | Done g => g
  | _ => sample_collected
  end.

(** A fresh page on which the first event is a confirmed reset. *)
Definition sample_fresh_reset : Game :=
  match resetGame sample_luck (Some "yes") (initial None) with
  | Done g => g
  | _ => initial None
  end.

(** A stored string that is not JSON. *)
Definition broken_text : string := "{".

(** The rectangle the sample session shows at its first lucky cell. *)
Definition sample_rect_a : Rectangle :=
  rendering (newBoard TILE_DEGREES NEIGHBORHOOD_SIZE) sample_cell_a
            (spawned_coins sample_luck sample_cell_a).


(** ** Predicates used by the further properties *)

(** A board as the canonicalizer builds it from an empty one: entries filed
    under the key of their cell, one entry per key, and the objects numbered
    in the order of their allocation. *)
Definition board_sound (b : Board) : Prop :=
  board_ok b /\
  NoDup (Js.map_keys (knownCells b)) /\
  List.map (fun entry => ident (snd entry)) (knownCells b) = List.seq 0 (allocated b).

(** The session a movement to [p] hands to the refresh. *)
Definition after_move (p : LatLng) (g : Game) : Game :=
  with_movementHistory (movementHistory g ++ [p]) (with_playerMarker p g).

(** The session a confirmed reset saves and hands to the refresh, [first]
    being the first point of the history. *)
Definition after_clear (first : LatLng) (g : Game) : Game :=
  saveGameState
    (mkGame (board g) [] (cacheStates g) [] OAKES_CLASSROOM [first] (localStorage g)).

(** The session [loadGameState] rebuilds from a decoded snapshot on a fresh
    page and hands to the refresh. *)
Definition rebuilt_from (snap : Snapshot) (stored : option string) : Game :=
  mkGame (newBoard TILE_DEGREES NEIGHBORHOOD_SIZE)
         (snap_wallet snap)
         (fold_left (fun m entry => Js.map_set (fst entry) (snd entry) m)
                    (snap_entries snap) [])
         []
         (List.last (snap_history snap) OAKES_CLASSROOM)
         (snap_history snap) stored.

(** A rectangle as [spawnCache] and [restoreCache] draw it and the popup
    handlers keep it: drawn at the bounds of its cell, its cache located at
    that cell. *)
Definition drawn_for_its_cell (b : Board) (r : Rectangle) : Prop :=
  location (popup_cache r) = popup_cell r /\
  rect_bounds r = getCellBounds (popup_cell r) b.

(** Every coin of the session is there once, and comes from a cell that has
    a store entry. *)
Definition coins_accounted (g : Game) : Prop :=
  NoDup (all_coins g) /\
  forall coin, In coin (all_coins g) ->
    Js.map_has (cellToString (spawnLocation coin)) (cacheStates g) = true.

(** The trail of a session that started at the classroom: the history begins
    there and ends at the player's position. *)
Definition trail_ok (g : Game) : Prop :=
  List.hd_error (movementHistory g) = Some OAKES_CLASSROOM /\
  List.last (movementHistory g) OAKES_CLASSROOM = playerMarker g.

(** The board has filed the cell. *)
Definition knows (b : Board) (c : Cell) : Prop :=
  Js.map_has (knownKey c) (knownCells b) = true.

(** What the stored snapshot is to the session: nothing stored and an empty
    wallet, or a snapshot with the wallet of the session, a beginning of its
    history and a beginning of its store. *)
Definition snapshot_lags (g : Game) : Prop :=
  match stored_snapshot g with
  | Some snap =>
      snap_wallet snap = playerWallet g /\
      (exists later, movementHistory g = (snap_history snap ++ later)%list) /\
      (exists extra, cacheStates g = (snap_entries snap ++ extra)%list)
  | None => localStorage g = None /\ playerWallet g = []
  end.

(** The rectangles of the cells of a list that have a store entry, one per
    cell in the order of the list, each with the coins of its entry. *)
Definition rectangles_of (b : Board) (store : Js.Map (list Coin)) (cells : list Cell)
  : Js.Map Rectangle :=
  flat_map (fun c =>
              match Js.map_get (cellToString c) store with
              | Some cs => [(cellToString c, rendering b c cs)]
              | None => []
              end) cells.

(** ** Facts about the host-language values *)

Section MapFacts.
Context {V : Type}.
Implicit Types (m : Js.Map V) (k : string) (v : V).

Lemma map_get_set_same k v m : Js.map_get k (Js.map_set k v m) = Some v.
Proof.
  induction m as [|[k' v'] m IH]; simpl.
  - now rewrite String.eqb_refl.
  - destruct (String.eqb k k') eqn:E; simpl; rewrite E; auto.
Qed.

Lemma map_get_app_l k v m (extra : Js.Map V) :
  Js.map_get k m = Some v -> Js.map_get k (m ++ extra)%list = Some v.
Proof.
  induction m as [|[k' v'] m IH]; simpl; [discriminate|].
  destruct (String.eqb k k'); auto.
Qed.

Lemma map_has_set_same k v m : Js.map_has k (Js.map_set k v m) = true.
Proof. unfold Js.map_has. now rewrite map_get_set_same. Qed.

Lemma map_get_set_other k k' v m :
  k <> k' -> Js.map_get k (Js.map_set k' v m) = Js.map_get k m.
Proof.
  intros Hne. induction m as [|[k0 v0] m IH]; simpl.
  - apply String.eqb_neq in Hne. now rewrite Hne.
  - destruct (String.eqb k' k0) eqn:E; simpl.
    + apply String.eqb_eq in E. subst k0.
      apply String.eqb_neq in Hne. now rewrite Hne.
    + now rewrite IH.
Qed.

Lemma map_get_In k v m : Js.map_get k m = Some v -> In (k, v) m.
Proof.
  induction m as [|[k' v'] m IH]; simpl; [discriminate|].
  destruct (String.eqb k k') eqn:E.
  - apply String.eqb_eq in E. intros [= ->]. subst. now left.
  - auto.
Qed.

Lemma map_get_None_keys k m :
  Js.map_get k m = None <-> ~ In k (Js.map_keys m).
Proof.
  induction m as [|[k' v'] m IH]; simpl.
  - tauto.
  - destruct (String.eqb k k') eqn:E.
    + apply String.eqb_eq in E. subst. split; [discriminate | intros H; elim H; now left].
    + apply String.eqb_neq in E. rewrite IH. split.
      * intros H [H1|H1]; [congruence | tauto].
      * tauto.
Qed.

Lemma map_has_true k m :
  Js.map_has k m = true <-> exists v, Js.map_get k m = Some v.
Proof.
  unfold Js.map_has. destruct (Js.map_get k m).
  - split; eauto.
  - split; [discriminate | intros [v [=]]].
Qed.

Lemma map_has_false k m :
  Js.map_has k m = false <-> Js.map_get k m = None.
Proof.
  unfold Js.map_has. destruct (Js.map_get k m); split; congruence.
Qed.

Lemma map_has_keys k m : Js.map_has k m = true <-> In k (Js.map_keys m).
Proof.
  destruct (Js.map_has k m) eqn:E.
  - split; auto. intros _.
    destruct (in_dec string_dec k (Js.map_keys m)) as [H|H]; auto.
    apply map_get_None_keys in H. apply map_has_false in H. congruence.
  - split; [discriminate|]. intros H. apply map_has_false in E.
    apply map_get_None_keys in E. tauto.
Qed.

Lemma map_set_absent k v m :
  Js.map_get k m = None -> Js.map_set k v m = (m ++ [(k, v)])%list.
Proof.
  induction m as [|[k' v'] m IH]; simpl; auto.
  destruct (String.eqb k k'); [discriminate|].
  intros H. now rewrite IH.
Qed.

Lemma map_set_keys_present k v m :
  Js.map_has k m = true -> Js.map_keys (Js.map_set k v m) = Js.map_keys m.
Proof.
  unfold Js.map_has. induction m as [|[k' v'] m IH]; simpl; [discriminate|].
  destruct (String.eqb k k'); simpl; auto.
  intros H. now rewrite IH.
Qed.

Lemma map_set_In k v m k0 v0 :
  In (k0, v0) (Js.map_set k v m) -> (k0 = k /\ v0 = v) \/ In (k0, v0) m.
Proof.
  induction m as [|[k' v'] m IH]; simpl.
  - intros [[= <- <-]|[]]. now left.
  - destruct (String.eqb k k') eqn:E; simpl.
    + apply String.eqb_eq in E. subst k'.
      intros [[= <- <-]|H]; auto.
    + intros [H|H]; auto. destruct (IH H); auto.
Qed.

Lemma map_set_NoDup k v m :
  NoDup (Js.map_keys m) -> NoDup (Js.map_keys (Js.map_set k v m)).
Proof.
  intros H. destruct (Js.map_has k m) eqn:E.
  - now rewrite map_set_keys_present.
  - apply map_has_false in E. rewrite (map_set_absent _ _ _ E).
    unfold Js.map_keys. rewrite List.map_app. simpl.
    apply NoDup_app; auto.
    + constructor; [intros []|constructor].
    + intros x Hx [<-|[]]. now apply map_get_None_keys in E.
Qed.

Lemma map_set_same_value k v m :
  Js.map_get k m = Some v -> Js.map_set k v m = m.
Proof.
  induction m as [|[k' v'] m IH]; simpl; [discriminate|].
  destruct (String.eqb k k') eqn:E.
  - now intros [= ->].
  - intros H. now rewrite IH.
Qed.

Lemma In_map_get k v m :
  NoDup (Js.map_keys m) -> In (k, v) m -> Js.map_get k m = Some v.
Proof.
  induction m as [|[k' v'] m IH]; simpl; [tauto|].
  intros Hnd [[= -> ->]|Hin].
  - now rewrite String.eqb_refl.
  - inversion Hnd as [|? ? Hni Hnd']; subst.
    destruct (String.eqb k k') eqn:E; auto.
    apply String.eqb_eq in E. subst k'.
    elim Hni. change k with (fst (k, v)). now apply in_map.
Qed.

(** Setting every entry of a map to itself changes nothing. *)
Lemma fold_set_self (l m : Js.Map V) :
  NoDup (Js.map_keys m) -> incl l m ->
  fold_left (fun acc e => Js.map_set (fst e) (snd e) acc) l m = m.
Proof.
  intros Hnd. induction l as [|[k v] l IH]; simpl; auto.
  intros Hin. rewrite map_set_same_value.
  - apply IH. intros x Hx. apply Hin. now right.
  - apply In_map_get; auto. apply Hin. now left.
Qed.

(** Filling an empty map from a list of entries with distinct keys gives
    that list. *)
Lemma fold_set_append (l m : Js.Map V) :
  NoDup (Js.map_keys (m ++ l)%list) ->
  fold_left (fun acc e => Js.map_set (fst e) (snd e) acc) l m = (m ++ l)%list.
Proof.
  revert m. induction l as [|[k v] l IH]; simpl; intros m Hnd.
  - now rewrite List.app_nil_r.
  - rewrite map_set_absent.
    + rewrite IH; rewrite <- List.app_assoc; simpl; auto.
    + apply map_get_None_keys. unfold Js.map_keys in *.
      rewrite List.map_app in Hnd. simpl in Hnd.
      apply NoDup_remove_2 in Hnd. intros H. apply Hnd.
      apply in_or_app. now left.
Qed.
End MapFacts.

Lemma set_has_In k s : Js.set_has k s = true <-> In k s.
Proof.
  unfold Js.set_has. rewrite existsb_exists. split.
  - intros [x [Hx E]]. apply String.eqb_eq in E. now subst.
  - intros H. exists k. split; auto. apply String.eqb_refl.
Qed.

Lemma set_add_In k x s : In x (Js.set_add k s) <-> x = k \/ In x s.
Proof.
  unfold Js.set_add. destruct (Js.set_has k s) eqn:E.
  - apply set_has_In in E. split; auto. intros [->|H]; auto.
  - rewrite in_app_iff. simpl. intuition.
Qed.

Lemma set_add_NoDup k s : NoDup s -> NoDup (Js.set_add k s).
Proof.
  intros H. unfold Js.set_add. destruct (Js.set_has k s) eqn:E; auto.
  apply NoDup_app; auto.
  - constructor; [intros []|constructor].
  - intros x Hx [<-|[]].
    apply set_has_In in Hx. congruence.
Qed.

Lemma string_app_nil_r (s : string) : s ++ EmptyString = s.
Proof. induction s; simpl; congruence. Qed.

Lemma string_app_assoc (a b c : string) : (a ++ b) ++ c = a ++ (b ++ c).
Proof. induction a; simpl; congruence. Qed.

Lemma string_length_app (a b : string) :
  String.length (a ++ b) = (String.length a + String.length b)%nat.
Proof. induction a; simpl; congruence. Qed.

(** *** Printing an integer and reading it back *)

Lemma uint_string_head d :
  d <> Nil ->
  exists c s, NilEmpty.string_of_uint d = String c s /\ Js.is_digit c = true.
Proof.
  destruct d; intros H; try congruence; simpl; eauto.
Qed.

Lemma span_digits_uint d rest :
  no_digit_head rest ->
  Js.span_digits (NilEmpty.string_of_uint d ++ rest)
  = (NilEmpty.string_of_uint d, rest).
Proof.
  intros H. induction d; simpl; try (rewrite IHd; reflexivity).
  destruct rest as [|c r]; simpl in *; auto. now rewrite H.
Qed.

Lemma Z_of_digits_uint d :
  d <> Nil ->
  Js.Z_of_digits (NilEmpty.string_of_uint d) = Some (Z.of_uint d).
Proof.
  intros H. unfold Js.Z_of_digits.
  destruct (uint_string_head d H) as [c [s [E _]]].
  rewrite E, <- E. now rewrite NilEmpty.usu.
Qed.

Lemma of_uint_to_uint p : Z.of_uint (Pos.to_uint p) = Z.pos p.
Proof.
  unfold Z.of_uint. now rewrite DecimalPos.Unsigned.of_to.
Qed.

Lemma nzhead_not_D0 d d' : nzhead d <> D0 d'.
Proof. induction d; simpl; try discriminate; auto. Qed.

Lemma to_uint_not_D0 p d : Pos.to_uint p <> D0 d.
Proof.
  intros E.
  pose proof (DecimalPos.Unsigned.to_of (Pos.to_uint p)) as H.
  rewrite DecimalPos.Unsigned.of_to in H. simpl in H.
  rewrite E in H. unfold unorm in H. simpl in H.
  destruct (nzhead d) eqn:En;
    try (rewrite <- En in H; symmetry in H; now apply nzhead_not_D0 in H).
  apply (DecimalPos.Unsigned.to_uint_nonzero p).
  rewrite E. exact H.
Qed.

Lemma string_of_Z_pos p :
  Js.string_of_Z (Z.pos p) = NilEmpty.string_of_uint (Pos.to_uint p).
Proof.
  unfold Js.string_of_Z. simpl. unfold NilZero.string_of_uint.
  destruct (Pos.to_uint p) eqn:E; auto.
  now apply DecimalPos.Unsigned.to_uint_nonnil in E.
Qed.

Lemma string_of_Z_neg p :
  Js.string_of_Z (Z.neg p) = String "-" (NilEmpty.string_of_uint (Pos.to_uint p)).
Proof.
  unfold Js.string_of_Z. simpl. unfold NilZero.string_of_uint.
  destruct (Pos.to_uint p) eqn:E; auto.
  now apply DecimalPos.Unsigned.to_uint_nonnil in E.
Qed.

Lemma read_int_string_of_Z z rest :
  no_digit_head rest ->
  Js.read_int (Js.string_of_Z z ++ rest) = Some (z, rest).
Proof.
  intros H. destruct z as [|p|p].
  - change (Js.string_of_Z 0) with "0". simpl.
    destruct rest as [|c r]; simpl in *; auto. now rewrite H.
  - rewrite string_of_Z_pos.
    destruct (uint_string_head (Pos.to_uint p)) as [c [s [E Hc]]];
      [apply DecimalPos.Unsigned.to_uint_nonnil|].
    unfold Js.read_int.
    rewrite E. simpl.
    assert (Hgoal :
      (let (ds, rest0) := Js.span_digits (String c s ++ rest) in
       option_map (fun n => (n, rest0)) (Js.Z_of_digits ds)) = Some (Z.pos p, rest)).
    { rewrite <- E, span_digits_uint by auto.
      rewrite Z_of_digits_uint by apply DecimalPos.Unsigned.to_uint_nonnil.
      simpl. now rewrite of_uint_to_uint. }
    destruct c as [[] [] [] [] [] [] [] []]; try exact Hgoal; discriminate.
  - rewrite string_of_Z_neg. simpl.
    rewrite span_digits_uint by auto.
    rewrite Z_of_digits_uint by apply DecimalPos.Unsigned.to_uint_nonnil.
    simpl. now rewrite of_uint_to_uint.
Qed.

Lemma parse_cell_key_cellToString c : parse_cell_key (cellToString c) = Some c.
Proof.
  unfold parse_cell_key, cellToString.
  rewrite read_int_string_of_Z by reflexivity.
  change (":" ++ Js.string_of_Z (j c)) with (String ":" (Js.string_of_Z (j c))).
  cbv iota beta.
  rewrite <- (string_app_nil_r (Js.string_of_Z (j c))).
  rewrite read_int_string_of_Z by exact I.
  now destruct c.
Qed.

Lemma cellToString_inj c c' : cellToString c = cellToString c' -> c = c'.
Proof.
  intros E. pose proof (parse_cell_key_cellToString c) as H.
  rewrite E, parse_cell_key_cellToString in H. congruence.
Qed.

Lemma knownKey_inj c c' : knownKey c = knownKey c' -> c = c'.
Proof.
  assert (R : forall x, exists a b,
             Js.read_int (knownKey x) = Some (a, String "," b) /\
             Js.read_int b = Some (j x, EmptyString) /\ a = i x).
  { intros x. exists (i x), (Js.string_of_Z (j x)). repeat split.
    - unfold knownKey. now rewrite read_int_string_of_Z.
    - rewrite <- (string_app_nil_r (Js.string_of_Z (j x))).
      now rewrite read_int_string_of_Z. }
  intros E. destruct (R c) as [a [b [H1 [H2 H3]]]].
  destruct (R c') as [a' [b' [H1' [H2' H3']]]].
  rewrite E in H1. rewrite H1 in H1'. injection H1' as <- <-.
  rewrite H2 in H2'. injection H2' as Hj.
  destruct c, c'; simpl in *; congruence.
Qed.

(** ** The board *)

Lemma getCanonicalCell_known c b :
  Js.map_has (knownKey c) (knownCells b) = true ->
  exists o, Js.map_get (knownKey c) (knownCells b) = Some o /\
            getCanonicalCell c b = (o, b).
Proof.
  intros H. unfold getCanonicalCell. rewrite H. simpl.
  apply map_has_true in H. destruct H as [o Ho]. exists o. now rewrite Ho.
Qed.

Lemma getCanonicalCell_fresh c b :
  Js.map_has (knownKey c) (knownCells b) = false ->
  getCanonicalCell c b =
    (mkCellObj (allocated b) c,
     mkBoard (tileWidth b) (tileVisibilityRadius b)
       (knownCells b ++ [(knownKey c, mkCellObj (allocated b) c)])%list
       (S (allocated b))).
Proof.
  intros H. unfold getCanonicalCell. rewrite H. simpl.
  rewrite map_get_set_same.
  apply map_has_false in H. rewrite (map_set_absent _ _ _ H).
  now destruct c.
Qed.

(** A call of the canonicalizer keeps what is cached and files the cell it
    was asked for. *)
Lemma getCanonicalCell_cached c b :
  let (o, b') := getCanonicalCell c b in
  Js.map_get (knownKey c) (knownCells b') = Some o /\
  (forall k o', Js.map_get k (knownCells b) = Some o' ->
                Js.map_get k (knownCells b') = Some o') /\
  tileWidth b' = tileWidth b /\
  tileVisibilityRadius b' = tileVisibilityRadius b.
Proof.
  destruct (Js.map_has (knownKey c) (knownCells b)) eqn:E.
  - destruct (getCanonicalCell_known c b E) as [o [Ho ->]]. auto.
  - rewrite (getCanonicalCell_fresh c b E). simpl.
    apply map_has_false in E.
    rewrite <- (map_set_absent _ _ _ E). rewrite map_get_set_same.
    repeat split; auto.
    intros k o' Hk. rewrite map_get_set_other; auto. congruence.
Qed.

Lemma getCanonicalCell_ok c b :
  board_ok b ->
  let (o, b') := getCanonicalCell c b in
  cell_of o = c /\ board_ok b'.
Proof.
  intros Hok. destruct (Js.map_has (knownKey c) (knownCells b)) eqn:E.
  - destruct (getCanonicalCell_known c b E) as [o [Ho ->]]. split; auto.
    apply map_get_In in Ho. apply Hok in Ho. destruct Ho as [Hk _].
    symmetry. now apply knownKey_inj.
  - rewrite (getCanonicalCell_fresh c b E). simpl. split; auto.
    intros k o Hin. simpl in Hin. apply in_app_or in Hin.
    destruct Hin as [Hin|[[= <- <-]|[]]]; simpl.
    + apply Hok in Hin. destruct Hin. split; auto.
    + split; auto.
Qed.

Lemma canonicalize_all_cached cs : forall b,
  let (os, b') := canonicalize_all cs b in
  (forall k o, Js.map_get k (knownCells b) = Some o ->
               Js.map_get k (knownCells b') = Some o) /\
  tileWidth b' = tileWidth b /\
  tileVisibilityRadius b' = tileVisibilityRadius b.
Proof.
  induction cs as [|c cs IH]; intros b; simpl; auto.
  pose proof (getCanonicalCell_cached c b) as H1.
  destruct (getCanonicalCell c b) as [o b1].
  specialize (IH b1). destruct (canonicalize_all cs b1) as [os b2].
  destruct H1 as [_ [H1 [H2 H3]]]. destruct IH as [H4 [H5 H6]].
  repeat split; try congruence. auto.
Qed.

Lemma canonicalize_all_ok cs : forall b,
  board_ok b ->
  let (os, b') := canonicalize_all cs b in
  List.map cell_of os = cs /\ board_ok b'.
Proof.
  induction cs as [|c cs IH]; intros b Hok; simpl; auto.
  pose proof (getCanonicalCell_ok c b Hok) as H1.
  destruct (getCanonicalCell c b) as [o b1]. destruct H1 as [H1 H2].
  specialize (IH b1 H2). destruct (canonicalize_all cs b1) as [os b2].
  destruct IH. simpl. split; auto. congruence.
Qed.

Lemma newBoard_ok tw r : board_ok (newBoard tw r).
Proof. intros k o []. Qed.

Lemma getCellsNearPoint_ok p b :
  board_ok b ->
  let (os, b') := getCellsNearPoint p b in
  List.map cell_of os = near_cells (tileWidth b) (tileVisibilityRadius b) p /\
  board_ok b' /\
  tileWidth b' = tileWidth b /\
  tileVisibilityRadius b' = tileVisibilityRadius b.
Proof.
  intros Hok. unfold getCellsNearPoint, getCellForPoint.
  pose proof (getCanonicalCell_ok (mkCell (lat p / tileWidth b) (lng p / tileWidth b)) b Hok) as H1.
  pose proof (getCanonicalCell_cached (mkCell (lat p / tileWidth b) (lng p / tileWidth b)) b) as H2.
  destruct (getCanonicalCell _ b) as [o b0].
  destruct H1 as [H1 H1']. destruct H2 as [_ [_ [H2 H3]]].
  match goal with |- context [canonicalize_all ?l b0] =>
    pose proof (canonicalize_all_ok l b0 H1') as H4;
    pose proof (canonicalize_all_cached l b0) as H5;
    destruct (canonicalize_all l b0) as [os b2]
  end.
  destruct H4 as [H4 H4']. destruct H5 as [_ [H5 H6]].
  rewrite H4, H1. simpl. unfold near_cells.
  split; [reflexivity|]. split; [assumption|]. split; congruence.
Qed.

(** ** JSON text: what [stringify] writes, [parse] reads back *)

Lemma json_induction (P : Json.json -> Prop) :
  P Json.JNull ->
  (forall b, P (Json.JBool b)) ->
  (forall n, P (Json.JNum n)) ->
  (forall s, P (Json.JStr s)) ->
  (forall l, Forall P l -> P (Json.JArr l)) ->
  (forall m, Forall (fun kv => P (snd kv)) m -> P (Json.JObj m)) ->
  forall v, P v.
Proof.
  intros Hnull Hbool Hnum Hstr Harr Hobj.
  fix IH 1. intros [| b | n | s | l | m].
  - exact Hnull.
  - apply Hbool.
  - apply Hnum.
  - apply Hstr.
  - apply Harr. induction l as [|x l IHl]; constructor; [apply IH | exact IHl].
  - apply Hobj. induction m as [|[k x] m IHm]; constructor; [apply IH | exact IHm].
Qed.

Lemma escape_char_parse c tail :
  Json.parse_string_body (Json.escape_char c ++ tail)
  = Json.cons_char c (Json.parse_string_body tail).
Proof.
  destruct c as [[] [] [] [] [] [] [] []]; reflexivity.
Qed.

Lemma parse_string_body_escape s rest :
  Json.parse_string_body (Json.escape s ++ String Json.dquote rest) = Json.Ok (s, rest).
Proof.
  induction s as [|c s IH]; simpl.
  - reflexivity.
  - rewrite string_app_assoc, escape_char_parse, IH. reflexivity.
Qed.

Lemma delimited_no_digit rest : delimited rest -> no_digit_head rest.
Proof.
  destruct rest as [|c r]; simpl; auto.
  intros [->|[->| ->]]; reflexivity.
Qed.

Lemma delimited_no_fraction rest :
  delimited rest ->
  (Json.starts_with "." rest || Json.starts_with "e" rest
   || Json.starts_with "E" rest)%bool = false.
Proof.
  destruct rest as [|c r]; simpl; auto.
  intros [->|[->| ->]]; reflexivity.
Qed.

Lemma parse_number_uint (negative : bool) p rest :
  delimited rest ->
  (let (ds, rest0) :=
     Js.span_digits (NilEmpty.string_of_uint (Pos.to_uint p) ++ rest) in
   if Json.is_empty ds then Json.Err Json.SyntaxError
   else if (Json.starts_with "0" ds && negb (Json.is_empty (Json.string_tail ds)))%bool
   then Json.Err Json.SyntaxError
   else
     match Js.Z_of_digits ds with
     | None => Json.Err Json.SyntaxError
     | Some n =>
         if (Json.starts_with "." rest0 || Json.starts_with "e" rest0
             || Json.starts_with "E" rest0)%bool
         then Json.Err Json.Unsupported
         else Json.Ok (Json.JNum (if negative then - n else n), rest0)
     end)
  = Json.Ok (Json.JNum (if negative then Z.neg p else Z.pos p), rest).
Proof.
  intros Hd.
  rewrite span_digits_uint by now apply delimited_no_digit.
  rewrite Z_of_digits_uint by apply DecimalPos.Unsigned.to_uint_nonnil.
  rewrite of_uint_to_uint, delimited_no_fraction by assumption.
  pose proof (to_uint_not_D0 p) as Hz.
  pose proof (DecimalPos.Unsigned.to_uint_nonnil p) as Hn.
  destruct (Pos.to_uint p) as [|d|d|d|d|d|d|d|d|d|d]; simpl;
    try congruence; try (destruct negative; reflexivity).
Qed.

Lemma parse_number_string_of_Z z rest :
  delimited rest ->
  Json.parse_number (Js.string_of_Z z ++ rest) = Json.Ok (Json.JNum z, rest).
Proof.
  intros Hd. destruct z as [|p|p].
  - change (Js.string_of_Z 0) with "0". unfold Json.parse_number. simpl.
    pose proof (delimited_no_digit rest Hd) as Hn.
    pose proof (delimited_no_fraction rest Hd) as Hf.
    destruct rest as [|c r]; simpl in *; auto.
    rewrite Hn. simpl. now rewrite Hf.
  - rewrite string_of_Z_pos. unfold Json.parse_number.
    destruct (uint_string_head (Pos.to_uint p)) as [c [s [E Hc]]];
      [apply DecimalPos.Unsigned.to_uint_nonnil|].
    assert (Hneg : Json.starts_with "-" (NilEmpty.string_of_uint (Pos.to_uint p) ++ rest) = false).
    { rewrite E. simpl. destruct c as [[] [] [] [] [] [] [] []]; auto; discriminate. }
    rewrite Hneg. apply (parse_number_uint false p rest Hd).
  - rewrite string_of_Z_neg. unfold Json.parse_number.
    cbn [append Json.starts_with Json.string_tail]. rewrite Ascii.eqb_refl.
    apply (parse_number_uint true p rest Hd).
Qed.

(** The first character of a printed integer. *)
Lemma string_of_Z_head z :
  exists c s, Js.string_of_Z z = String c s /\
              (Ascii.eqb c "-" || Js.is_digit c)%bool = true.
Proof.
  destruct z as [|p|p].
  - exists "0"%char, EmptyString. split; reflexivity.
  - rewrite string_of_Z_pos.
    destruct (uint_string_head (Pos.to_uint p)) as [c [s [E Hc]]];
      [apply DecimalPos.Unsigned.to_uint_nonnil|].
    exists c, s. split; auto. rewrite Hc. apply orb_true_r.
  - rewrite string_of_Z_neg. eexists _, _. split; reflexivity.
Qed.

Lemma number_head_dispatch c :
  (Ascii.eqb c "-" || Js.is_digit c)%bool = true ->
  Json.is_ws c = false /\ Ascii.eqb c "n" = false /\ Ascii.eqb c "t" = false /\
  Ascii.eqb c "f" = false /\ Ascii.eqb c Json.dquote = false /\
  Ascii.eqb c "[" = false /\ Ascii.eqb c "{" = false /\
  Ascii.eqb c "]" = false /\ Ascii.eqb c "}" = false.
Proof.
  destruct c as [[] [] [] [] [] [] [] []]; simpl; intros H;
    try discriminate; repeat split; reflexivity.
Qed.

(** A printed value starts with a character that is neither white space nor
    a closing bracket. *)
Lemma stringify_head v :
  exists c s, Json.stringify v = String c s /\
              Json.is_ws c = false /\
              Ascii.eqb c "]" = false /\ Ascii.eqb c "}" = false.
Proof.
  destruct v as [| [] | n | s | l | m];
    try (eexists _, _; repeat split; reflexivity).
  destruct (string_of_Z_head n) as [c [s [E H]]].
  exists c, s. apply number_head_dispatch in H. simpl. tauto.
Qed.

Lemma skip_ws_stringify v rest :
  Json.skip_ws (Json.stringify v ++ rest) = Json.stringify v ++ rest.
Proof.
  destruct (stringify_head v) as [c [s [E [H _]]]].
  rewrite E. simpl. now rewrite H.
Qed.

Lemma starts_with_stringify c v rest :
  c = "]"%char \/ c = "}"%char ->
  Json.starts_with c (Json.stringify v ++ rest) = false.
Proof.
  destruct (stringify_head v) as [c' [s [E [_ [H1 H2]]]]].
  rewrite E. simpl. intros [->| ->]; assumption.
Qed.

Lemma stringify_arr l : Json.stringify (Json.JArr l) = "[" ++ Json.print_elements l.
Proof. reflexivity. Qed.

Lemma stringify_obj m : Json.stringify (Json.JObj m) = "{" ++ Json.print_members m.
Proof. reflexivity. Qed.

Lemma print_elements_cons x y l :
  Json.print_elements (x :: y :: l)
  = Json.stringify x ++ "," ++ Json.print_elements (y :: l).
Proof. reflexivity. Qed.

Lemma print_members_cons k x e m :
  Json.print_members ((k, x) :: e :: m)
  = Json.quote k ++ ":" ++ Json.stringify x ++ "," ++ Json.print_members (e :: m).
Proof. reflexivity. Qed.

Lemma json_size_arr l : Json.json_size (Json.JArr l) = S (Json.elements_size l).
Proof. reflexivity. Qed.

Lemma json_size_obj m : Json.json_size (Json.JObj m) = S (Json.members_size m).
Proof. reflexivity. Qed.

Lemma parse_value_S f s :
  Json.parse_value (S f) s =
  match Json.skip_ws s with
  | EmptyString => Json.Err Json.SyntaxError
  | String c r =>
      if Ascii.eqb c "n" then Json.parse_literal "null" Json.JNull (String c r)
      else if Ascii.eqb c "t" then Json.parse_literal "true" (Json.JBool true) (String c r)
      else if Ascii.eqb c "f" then Json.parse_literal "false" (Json.JBool false) (String c r)
      else if Ascii.eqb c Json.dquote then
        match Json.parse_string_body r with
        | Json.Ok (str, rest) => Json.Ok (Json.JStr str, rest)
        | Json.Err e => Json.Err e
        end
      else if Ascii.eqb c "[" then
        if Json.starts_with "]" (Json.skip_ws r)
        then Json.Ok (Json.JArr [], Json.string_tail (Json.skip_ws r))
        else
          match Json.parse_elements f r with
          | Json.Ok (l, rest) => Json.Ok (Json.JArr l, rest)
          | Json.Err e => Json.Err e
          end
      else if Ascii.eqb c "{" then
        if Json.starts_with "}" (Json.skip_ws r)
        then Json.Ok (Json.JObj [], Json.string_tail (Json.skip_ws r))
        else
          match Json.parse_members f r with
          | Json.Ok (m, rest) => Json.Ok (Json.JObj m, rest)
          | Json.Err e => Json.Err e
          end
      else if (Ascii.eqb c "-" || Js.is_digit c)%bool then Json.parse_number (String c r)
      else Json.Err Json.SyntaxError
  end.
Proof. reflexivity. Qed.

Lemma parse_elements_S f s :
  Json.parse_elements (S f) s =
  match Json.parse_value f s with
  | Json.Err e => Json.Err e
  | Json.Ok (v, r) =>
      if Json.starts_with "," (Json.skip_ws r) then
        match Json.parse_elements f (Json.string_tail (Json.skip_ws r)) with
        | Json.Ok (l, rest) => Json.Ok (v :: l, rest)
        | Json.Err e => Json.Err e
        end
      else if Json.starts_with "]" (Json.skip_ws r)
      then Json.Ok ([v], Json.string_tail (Json.skip_ws r))
      else Json.Err Json.SyntaxError
  end.
Proof. reflexivity. Qed.

Lemma parse_members_S f s :
  Json.parse_members (S f) s =
  if Json.starts_with Json.dquote (Json.skip_ws s) then
    match Json.parse_string_body (Json.string_tail (Json.skip_ws s)) with
    | Json.Err e => Json.Err e
    | Json.Ok (k, r1) =>
        if Json.starts_with ":" (Json.skip_ws r1) then
          match Json.parse_value f (Json.string_tail (Json.skip_ws r1)) with
          | Json.Err e => Json.Err e
          | Json.Ok (v, r3) =>
              if Json.starts_with "," (Json.skip_ws r3) then
                match Json.parse_members f (Json.string_tail (Json.skip_ws r3)) with
                | Json.Ok (m, rest) => Json.Ok ((k, v) :: m, rest)
                | Json.Err e => Json.Err e
                end
              else if Json.starts_with "}" (Json.skip_ws r3)
              then Json.Ok ([(k, v)], Json.string_tail (Json.skip_ws r3))
              else Json.Err Json.SyntaxError
          end
        else Json.Err Json.SyntaxError
    end
  else Json.Err Json.SyntaxError.
Proof. reflexivity. Qed.

Lemma skip_ws_nonws c r :
  Json.is_ws c = false -> Json.skip_ws (String c r) = String c r.
Proof. intros H. simpl. now rewrite H. Qed.

(** One step of the parser over text that starts with known characters. *)
Ltac norm_app :=
  repeat first [rewrite string_app_assoc | progress cbn [append]].

Ltac json_step :=
  norm_app;
  repeat (rewrite skip_ws_nonws by reflexivity);
  cbn [Json.starts_with Json.string_tail];
  repeat match goal with
         | |- context [Ascii.eqb ?a ?b] =>
             let v := eval vm_compute in (Ascii.eqb a b) in
             progress change (Ascii.eqb a b) with v
         end;
  cbn iota.

Lemma parse_elements_print x l :
  Forall parses_back (x :: l) ->
  forall fuel rest,
    (Json.elements_size (x :: l) <= fuel)%nat -> delimited rest ->
    Json.parse_elements fuel (Json.print_elements (x :: l) ++ rest)
    = Json.Ok (x :: l, rest).
Proof.
  revert x. induction l as [|y l IH]; intros x HF fuel rest Hsz Hd;
    inversion HF as [|? ? Hx HF']; subst;
    (destruct fuel as [|f]; [simpl in Hsz; lia|]);
    rewrite parse_elements_S.
  - change (Json.print_elements [x]) with (Json.stringify x ++ "]").
    norm_app. rewrite Hx.
    + reflexivity.
    + simpl in Hsz. lia.
    + simpl. auto.
  - rewrite print_elements_cons. norm_app. rewrite Hx.
    + json_step.
      rewrite IH; auto.
      change (Json.elements_size (x :: y :: l))
        with (S (Json.json_size x + Json.elements_size (y :: l))) in Hsz. lia.
    + change (Json.elements_size (x :: y :: l))
        with (S (Json.json_size x + Json.elements_size (y :: l))) in Hsz. lia.
    + simpl. auto.
Qed.

Lemma parse_members_print k x m :
  Forall (fun kv => parses_back (snd kv)) ((k, x) :: m) ->
  forall fuel rest,
    (Json.members_size ((k, x) :: m) <= fuel)%nat -> delimited rest ->
    Json.parse_members fuel (Json.print_members ((k, x) :: m) ++ rest)
    = Json.Ok ((k, x) :: m, rest).
Proof.
  revert k x. induction m as [|[k' y] m IH]; intros k x HF fuel rest Hsz Hd;
    inversion HF as [|? ? Hx HF']; subst; simpl in Hx;
    (destruct fuel as [|f]; [simpl in Hsz; lia|]);
    rewrite parse_members_S.
  - change (Json.print_members [(k, x)])
      with (String Json.dquote (Json.escape k ++ String Json.dquote EmptyString)
            ++ ":" ++ Json.stringify x ++ "}").
    json_step.
    norm_app. rewrite parse_string_body_escape.
    json_step.
    rewrite Hx.
    + reflexivity.
    + simpl in Hsz. lia.
    + simpl. auto.
  - rewrite print_members_cons.
    unfold Json.quote.
    json_step.
    norm_app. rewrite parse_string_body_escape.
    json_step.
    rewrite Hx.
    + json_step.
      rewrite IH; auto.
      change (Json.members_size ((k, x) :: (k', y) :: m))
        with (S (Json.json_size x + Json.members_size ((k', y) :: m))) in Hsz. lia.
    + change (Json.members_size ((k, x) :: (k', y) :: m))
        with (S (Json.json_size x + Json.members_size ((k', y) :: m))) in Hsz. lia.
    + simpl. auto.
Qed.

Lemma parse_value_stringify v : parses_back v.
Proof.
  induction v as [| b | n | s | l HF | m HF] using json_induction;
    intros fuel rest Hsz Hd;
    (destruct fuel as [|f]; [simpl in Hsz; lia|]);
    rewrite parse_value_S.
  - reflexivity.
  - destruct b; reflexivity.
  - destruct (string_of_Z_head n) as [c [s [E H]]].
    pose proof (parse_number_string_of_Z n rest Hd) as Hn.
    simpl Json.stringify in *. rewrite E in *.
    destruct (number_head_dispatch c H) as [H0 [H1 [H2 [H3 [H4 [H5 [H6 _]]]]]]].
    cbn [append Json.skip_ws] in *.
    rewrite H0, H1, H2, H3, H4, H5, H6, H. exact Hn.
  - simpl Json.stringify. unfold Json.quote.
    json_step.
    norm_app. rewrite parse_string_body_escape. reflexivity.
  - rewrite stringify_arr.
    json_step.
    destruct l as [|x l].
    + reflexivity.
    + assert (E : Json.print_elements (x :: l) ++ rest
                  = Json.stringify x ++
                    (match l with
                     | [] => "]"
                     | _ => "," ++ Json.print_elements l
                     end ++ rest)).
      { destruct l.
        - change (Json.print_elements [x]) with (Json.stringify x ++ "]").
          now rewrite string_app_assoc.
        - rewrite print_elements_cons. now rewrite !string_app_assoc. }
      rewrite E at 1. rewrite skip_ws_stringify, starts_with_stringify by auto.
      rewrite parse_elements_print; auto.
      rewrite json_size_arr in Hsz. lia.
  - rewrite stringify_obj.
    json_step.
    destruct m as [|[k x] m].
    + reflexivity.
    + assert (E : Json.starts_with "}" (Json.skip_ws (Json.print_members ((k, x) :: m) ++ rest)) = false).
      { destruct m as [|[k' y] m]; reflexivity. }
      rewrite E.
      rewrite parse_members_print; auto.
      rewrite json_size_obj in Hsz. lia.
Qed.

Lemma string_length_pos_head (s : string) c r :
  s = String c r -> (1 <= String.length s)%nat.
Proof. intros ->. simpl. lia. Qed.

Lemma json_size_le_length v :
  (Json.json_size v <= String.length (Json.stringify v))%nat.
Proof.
  induction v as [| b | n | s | l HF | m HF] using json_induction.
  - simpl. lia.
  - destruct b; simpl; lia.
  - destruct (string_of_Z_head n) as [c [s [E _]]]. simpl. rewrite E. simpl. lia.
  - simpl. lia.
  - rewrite stringify_arr, json_size_arr. simpl String.length.
    apply le_n_S.
    induction HF as [|x l Hx HF IH]; [simpl; lia|].
    destruct l as [|y l].
    + change (Json.print_elements [x]) with (Json.stringify x ++ "]").
      rewrite string_length_app. simpl. lia.
    + rewrite print_elements_cons, !string_length_app.
      change (Json.elements_size (x :: y :: l))
        with (S (Json.json_size x + Json.elements_size (y :: l))).
      simpl String.length at 2. lia.
  - rewrite stringify_obj, json_size_obj. simpl String.length.
    apply le_n_S.
    induction HF as [|[k x] m Hx HF IH]; [simpl; lia|]. simpl in Hx.
    destruct m as [|[k' y] m].
    + change (Json.print_members [(k, x)])
        with (Json.quote k ++ ":" ++ Json.stringify x ++ "}").
      rewrite !string_length_app. simpl. lia.
    + rewrite print_members_cons, !string_length_app.
      change (Json.members_size ((k, x) :: (k', y) :: m))
        with (S (Json.json_size x + Json.members_size ((k', y) :: m))).
      simpl String.length at 2. lia.
Qed.

(** [JSON.parse (JSON.stringify v)] gives [v] back, for every document. *)
Lemma parse_stringify v : Json.parse (Json.stringify v) = Json.Ok v.
Proof.
  unfold Json.parse.
  rewrite <- (string_app_nil_r (Json.stringify v)) at 2.
  rewrite parse_value_stringify.
  - reflexivity.
  - pose proof (json_size_le_length v). lia.
  - exact I.
Qed.

(** ** The snapshot read back *)

Lemma decode_list_map {A : Type} (f : Json.json -> option A) (g : A -> Json.json) l :
  (forall x, f (g x) = Some x) ->
  decode_list f (List.map g l) = Some l.
Proof.
  intros H. induction l as [|x l IH]; simpl; auto. now rewrite H, IH.
Qed.

Lemma decode_encode_coin c : decode_coin (encode_coin c) = Some c.
Proof. destruct c as [[ci cj] sn]. reflexivity. Qed.

Lemma decode_encode_entry e : decode_entry (encode_entry e) = Some e.
Proof.
  destruct e as [k cs]. unfold encode_entry, decode_entry, decode_coins. simpl.
  now rewrite (decode_list_map _ _ cs decode_encode_coin).
Qed.

Lemma decode_encode_latLng p : decode_latLng (encode_latLng p) = Some p.
Proof. destruct p. reflexivity. Qed.

Lemma decode_encode_state g : decode_state (encode_state g) = Some (snapshot_of g).
Proof.
  unfold decode_state, encode_state. cbn [Json.get_prop String.eqb Ascii.eqb Bool.eqb].
  unfold decode_coins.
  rewrite (decode_list_map _ _ _ decode_encode_coin).
  rewrite (decode_list_map _ _ _ decode_encode_entry).
  rewrite (decode_list_map _ _ _ decode_encode_latLng).
  reflexivity.
Qed.

(** What [saveGameState] writes is read back as the state it was given. *)
Lemma stored_snapshot_save g :
  stored_snapshot (saveGameState g) = Some (snapshot_of g).
Proof.
  unfold stored_snapshot, saveGameState, with_localStorage. cbn [localStorage].
  now rewrite parse_stringify, decode_encode_state.
Qed.

Lemma stored_snapshot_storage g g' :
  localStorage g' = localStorage g -> stored_snapshot g' = stored_snapshot g.
Proof. unfold stored_snapshot. now intros ->. Qed.

(** ** The visibility refresh *)

Lemma getCellBounds_tileWidth c b b' :
  tileWidth b' = tileWidth b -> getCellBounds c b' = getCellBounds c b.
Proof. unfold getCellBounds. now intros ->. Qed.

Lemma createNewCache_rendering b c n :
  mkRectangle (getCellBounds c b) (createNewCache c n) c
  = rendering b c (coins (createNewCache c n)).
Proof.
  unfold rendering, createNewCache. simpl. now rewrite List.length_map.
Qed.

Lemma fold_set_add_In {A : Type} (f : A -> string) l : forall s k,
  In k (fold_left (fun acc x => Js.set_add (f x) acc) l s)
  <-> In k s \/ In k (List.map f l).
Proof.
  induction l as [|x l IH]; intros s k; simpl.
  - tauto.
  - rewrite IH, set_add_In. intuition.
Qed.

Lemma fold_set_add_NoDup {A : Type} (f : A -> string) l : forall s,
  NoDup s -> NoDup (fold_left (fun acc x => Js.set_add (f x) acc) l s).
Proof.
  induction l as [|x l IH]; intros s H; simpl; auto.
  apply IH. now apply set_add_NoDup.
Qed.

Lemma set_has_ext k s s' :
  (forall x, In x s <-> In x s') -> Js.set_has k s = Js.set_has k s'.
Proof.
  intros H. destruct (Js.set_has k s) eqn:E1, (Js.set_has k s') eqn:E2; auto.
  - apply set_has_In, H, set_has_In in E1. congruence.
  - apply set_has_In, H, set_has_In in E2. congruence.
Qed.

Lemma getVisibleCells_spec p b :
  board_ok b ->
  let (keys, b') := getVisibleCells p b in
  (forall k, In k keys <->
             In k (List.map cellToString
                     (near_cells (tileWidth b) (tileVisibilityRadius b) p))) /\
  NoDup keys /\ board_ok b' /\
  tileWidth b' = tileWidth b /\
  tileVisibilityRadius b' = tileVisibilityRadius b.
Proof.
  intros Hok. unfold getVisibleCells.
  pose proof (getCellsNearPoint_ok p b Hok) as H.
  destruct (getCellsNearPoint p b) as [os b'].
  destruct H as [H1 [H2 [H3 H4]]].
  split; [|split; [apply fold_set_add_NoDup; constructor | auto]].
  intros k. rewrite (fold_set_add_In (fun o => cellToString (cell_of o))).
  rewrite <- H1, List.map_map. simpl. tauto.
Qed.

(** One visit of [populateMap] to the key of a cell. *)
Lemma getCellAtKey_cellToString c b :
  getCellAtKey (cellToString c) b = getCanonicalCell c b.
Proof. unfold getCellAtKey. now rewrite parse_cell_key_cellToString. Qed.

Ltac game_simpl :=
  cbn [with_board with_playerWallet with_cacheStates with_activeCacheRects
       with_playerMarker with_movementHistory with_localStorage
       board playerWallet cacheStates activeCacheRects playerMarker
       movementHistory localStorage] in *.

Ltac finish_visit :=
  split; [assumption|];
  split; [unfold same_session; game_simpl; repeat split; auto|];
  split; reflexivity.

Section Refresh.

Variable luck : string -> Q.

Lemma visitCell_spec g c :
  board_ok (board g) ->
  let k := cellToString c in
  let g' := visitCell luck g k in
  board_ok (board g') /\ same_session g g' /\
  cacheStates g' =
    (if Js.map_has k (cacheStates g) then cacheStates g
     else if lucky luck k
          then Js.map_set k (spawned_coins luck c) (cacheStates g)
          else cacheStates g) /\
  activeCacheRects g' =
    (if Js.map_has k (cacheStates g) then
       if Js.map_has k (activeCacheRects g) then activeCacheRects g
       else match Js.map_get k (cacheStates g) with
            | Some cs => Js.map_set k (rendering (board g) c cs) (activeCacheRects g)
            | None => activeCacheRects g
            end
     else if lucky luck k
          then Js.map_set k (rendering (board g) c (spawned_coins luck c))
                 (activeCacheRects g)
          else activeCacheRects g).
Proof.
  intros Hok k g'. subst g'. unfold visitCell. subst k.
  rewrite getCellAtKey_cellToString.
  pose proof (getCanonicalCell_ok c (board g) Hok) as H1.
  pose proof (getCanonicalCell_cached c (board g)) as H2.
  destruct (getCanonicalCell c (board g)) as [o b'].
  destruct H1 as [Hc Hok']. destruct H2 as [_ [_ [Htw Hr]]]. rewrite Hc.
  unfold spawnCacheIfNeeded, restoreCacheIfNeeded, lucky, cellLuck.
  game_simpl.
  destruct (Js.map_has (cellToString c) (cacheStates g)) eqn:Hs; cbn [negb].
  - game_simpl. rewrite Hs.
    destruct (Js.map_has (cellToString c) (activeCacheRects g)) eqn:Ha; cbn [negb andb].
    + finish_visit.
    + unfold restoreCache. game_simpl.
      destruct (Js.map_get (cellToString c) (cacheStates g)) as [cs|] eqn:Hg.
      * game_simpl.
        unfold rendering. rewrite <- (getCellBounds_tileWidth c (board g) b' Htw).
        finish_visit.
      * finish_visit.
  - destruct (Qlt_bool (luck (cellToString c)) CACHE_SPAWN_PROBABILITY) eqn:Hl.
    + unfold spawnCache, cellLuck. game_simpl.
      rewrite createNewCache_rendering.
      rewrite !map_has_set_same. cbn [negb andb].
      unfold rendering. rewrite <- (getCellBounds_tileWidth c (board g) b' Htw).
      finish_visit.
    + game_simpl. rewrite Hs. cbn [andb].
      finish_visit.
Qed.

Lemma rendering_tileWidth b b' c cs :
  tileWidth b' = tileWidth b -> rendering b' c cs = rendering b c cs.
Proof. unfold rendering. intros H. now rewrite (getCellBounds_tileWidth c b b' H). Qed.

Lemma store_after_idem c s :
  store_after luck c (store_after luck c s) = store_after luck c s.
Proof.
  destruct s as [cs|]; simpl; auto.
  destruct (lucky luck (cellToString c)) eqn:E; simpl; auto. now rewrite E.
Qed.

Lemma coherent_active_stored g k r :
  coherent g -> Js.map_get k (activeCacheRects g) = Some r ->
  Js.map_get k (cacheStates g) = Some (coins (popup_cache r)).
Proof.
  intros [_ [_ [_ H]]] Hr. apply map_get_In in Hr. now apply H in Hr as [_ ?].
Qed.

(** One visit, seen from any key. *)
Lemma visitCell_get g c0 :
  coherent g ->
  let k0 := cellToString c0 in
  let g' := visitCell luck g k0 in
  same_session g g' /\
  (exists extra, cacheStates g' = (cacheStates g ++ extra)%list) /\
  Js.map_get k0 (cacheStates g')
    = store_after luck c0 (Js.map_get k0 (cacheStates g)) /\
  Js.map_get k0 (activeCacheRects g')
    = active_after (board g) c0 (Js.map_get k0 (activeCacheRects g))
        (Js.map_get k0 (cacheStates g')) /\
  (forall k, k <> k0 ->
     Js.map_get k (cacheStates g') = Js.map_get k (cacheStates g) /\
     Js.map_get k (activeCacheRects g') = Js.map_get k (activeCacheRects g)) /\
  coherent g'.
Proof.
  intros Hco k0 g'. pose proof Hco as [Hok [Hnd1 [Hnd2 Hmir]]].
  destruct (visitCell_spec g c0 Hok) as [Hb [Hs [Hst Hac]]].
  fold k0 in Hst, Hac. fold g' in Hb, Hs, Hst, Hac.
  assert (Hnd1' : NoDup (Js.map_keys (cacheStates g'))).
  { rewrite Hst. destruct (Js.map_has k0 (cacheStates g)); auto.
    destruct (lucky luck k0); auto. now apply map_set_NoDup. }
  assert (Hnd2' : NoDup (Js.map_keys (activeCacheRects g'))).
  { rewrite Hac. destruct (Js.map_has k0 (cacheStates g)).
    - destruct (Js.map_has k0 (activeCacheRects g)); auto.
      destruct (Js.map_get k0 (cacheStates g)); auto. now apply map_set_NoDup.
    - destruct (lucky luck k0); auto. now apply map_set_NoDup. }
  assert (Hext : exists extra, cacheStates g' = (cacheStates g ++ extra)%list).
  { rewrite Hst. destruct (Js.map_has k0 (cacheStates g)) eqn:E1.
    - exists []. now rewrite List.app_nil_r.
    - destruct (lucky luck k0).
      + eexists. apply map_set_absent. now apply map_has_false.
      + exists []. now rewrite List.app_nil_r. }
  assert (Hstore : Js.map_get k0 (cacheStates g')
                   = store_after luck c0 (Js.map_get k0 (cacheStates g))).
  { rewrite Hst. unfold store_after.
    destruct (Js.map_has k0 (cacheStates g)) eqn:E1.
    - apply map_has_true in E1 as [cs Hcs]. now rewrite Hcs.
    - apply map_has_false in E1. rewrite E1. fold k0.
      destruct (lucky luck k0); auto. apply map_get_set_same. }
  assert (Hactive : Js.map_get k0 (activeCacheRects g')
                    = active_after (board g) c0 (Js.map_get k0 (activeCacheRects g))
                        (Js.map_get k0 (cacheStates g'))).
  { rewrite Hstore, Hac. unfold store_after, active_after. fold k0.
    destruct (Js.map_has k0 (cacheStates g)) eqn:E1.
    - apply map_has_true in E1 as [cs Hcs]. rewrite Hcs.
      destruct (Js.map_has k0 (activeCacheRects g)) eqn:E2.
      + apply map_has_true in E2 as [r Hr]. now rewrite Hr.
      + apply map_has_false in E2. rewrite E2. apply map_get_set_same.
    - apply map_has_false in E1. rewrite E1.
      destruct (Js.map_get k0 (activeCacheRects g)) as [r|] eqn:Hr.
      + apply (coherent_active_stored g k0 r Hco) in Hr. congruence.
      + destruct (lucky luck k0); auto. apply map_get_set_same. }
  assert (Hother : forall k, k <> k0 ->
     Js.map_get k (cacheStates g') = Js.map_get k (cacheStates g) /\
     Js.map_get k (activeCacheRects g') = Js.map_get k (activeCacheRects g)).
  { intros k Hk. rewrite Hst, Hac.
    destruct (Js.map_has k0 (cacheStates g)).
    - split; auto. destruct (Js.map_has k0 (activeCacheRects g)); auto.
      destruct (Js.map_get k0 (cacheStates g)); auto.
      now apply map_get_set_other.
    - destruct (lucky luck k0); auto. split; now apply map_get_set_other. }
  split; [exact Hs|]. split; [exact Hext|]. split; [exact Hstore|].
  split; [exact Hactive|]. split; [exact Hother|].
  split; [exact Hb|]. split; [exact Hnd1'|]. split; [exact Hnd2'|].
  intros k r Hin. apply In_map_get in Hin; auto.
  destruct (string_dec k k0) as [->|Hne].
  - rewrite Hactive in Hin. unfold active_after in Hin.
    destruct (Js.map_get k0 (activeCacheRects g)) as [r0|] eqn:Hr0.
    + injection Hin as <-. apply map_get_In in Hr0 as Hr0'.
      destruct (Hmir _ _ Hr0') as [M1 M2]. split; auto.
      rewrite Hstore, M2. reflexivity.
    + destruct (Js.map_get k0 (cacheStates g')) as [cs|] eqn:Hcs; [|discriminate].
      injection Hin as <-. split; auto.
  - destruct (Hother k Hne) as [O1 O2]. rewrite O2 in Hin.
    apply map_get_In in Hin. destruct (Hmir _ _ Hin) as [M1 M2].
    split; auto. now rewrite O1.
Qed.

Lemma active_after_tileWidth b b' c a e :
  tileWidth b' = tileWidth b -> active_after b' c a e = active_after b c a e.
Proof.
  intros H. unfold active_after. destruct a; auto. destruct e; auto.
  now rewrite (rendering_tileWidth b b' c l H).
Qed.

Lemma active_after_idem b c a e :
  active_after b c (active_after b c a e) e = active_after b c a e.
Proof. destruct a, e; reflexivity. Qed.

Lemma same_session_trans g1 g2 g3 :
  same_session g1 g2 -> same_session g2 g3 -> same_session g1 g3.
Proof.
  unfold same_session. intros [A1 [A2 [A3 [A4 [A5 A6]]]]] [B1 [B2 [B3 [B4 [B5 B6]]]]].
  repeat split; congruence.
Qed.

Lemma same_session_refl g : same_session g g.
Proof. unfold same_session. repeat split; reflexivity. Qed.

Lemma set_has_cons k k0 keys :
  Js.set_has k (k0 :: keys) = (String.eqb k k0 || Js.set_has k keys)%bool.
Proof. reflexivity. Qed.

(** The loop of [populateMap] over the keys of a list of cells. *)
Lemma fold_visitCell cs : forall g,
  coherent g ->
  let keys := List.map cellToString cs in
  let g' := fold_left (visitCell luck) keys g in
  same_session g g' /\
  (exists extra, cacheStates g' = (cacheStates g ++ extra)%list) /\
  coherent g' /\
  (forall c, Js.set_has (cellToString c) keys = true ->
     Js.map_get (cellToString c) (cacheStates g')
       = store_after luck c (Js.map_get (cellToString c) (cacheStates g)) /\
     Js.map_get (cellToString c) (activeCacheRects g')
       = active_after (board g) c (Js.map_get (cellToString c) (activeCacheRects g))
           (Js.map_get (cellToString c) (cacheStates g'))) /\
  (forall k, Js.set_has k keys = false ->
     Js.map_get k (cacheStates g') = Js.map_get k (cacheStates g) /\
     Js.map_get k (activeCacheRects g') = Js.map_get k (activeCacheRects g)).
Proof.
  induction cs as [|c0 cs IH]; intros g Hco; cbn [List.map fold_left].
  - split; [apply same_session_refl|].
    split; [exists []; now rewrite List.app_nil_r|].
    split; [assumption|]. split; [discriminate|]. auto.
  - destruct (visitCell_get g c0 Hco) as [Hs [[ex1 Hex1] [Hst [Hac [Hot Hco1]]]]].
    set (g1 := visitCell luck g (cellToString c0)) in *.
    destruct (IH g1 Hco1) as [Hs' [[ex2 Hex2] [Hco' [Hin Hout]]]].
    set (keys := List.map cellToString cs) in *.
    set (g' := fold_left (visitCell luck) keys g1) in *.
    assert (Htw : tileWidth (board g1) = tileWidth (board g)) by apply Hs.
    split; [eapply same_session_trans; eauto|].
    split; [exists (ex1 ++ ex2)%list; now rewrite Hex2, Hex1, List.app_assoc|].
    split; [assumption|]. split.
    + intros c Hc. rewrite set_has_cons in Hc.
      destruct (String.eqb (cellToString c) (cellToString c0)) eqn:E.
      * apply String.eqb_eq in E. apply cellToString_inj in E. subst c0.
        destruct (Js.set_has (cellToString c) keys) eqn:Hk.
        -- destruct (Hin c Hk) as [I1 I2].
           assert (S1 : Js.map_get (cellToString c) (cacheStates g')
                        = Js.map_get (cellToString c) (cacheStates g1))
             by (rewrite I1, Hst; apply store_after_idem).
           split; [now rewrite S1|].
           rewrite I2, S1, (active_after_tileWidth _ _ _ _ _ Htw).
           rewrite Hac. apply active_after_idem.
        -- destruct (Hout _ Hk) as [O1 O2].
           split; [now rewrite O1|].
           rewrite O2, O1. apply Hac.
      * simpl in Hc. apply String.eqb_neq in E.
        destruct (Hin c Hc) as [I1 I2]. destruct (Hot _ E) as [O1 O2].
        split; [now rewrite I1, O1|].
        now rewrite I2, O2, (active_after_tileWidth _ _ _ _ _ Htw).
    + intros k Hk. rewrite set_has_cons in Hk.
      apply orb_false_iff in Hk as [E Hk]. apply String.eqb_neq in E.
      destruct (Hout _ Hk) as [O1 O2]. destruct (Hot _ E) as [O3 O4].
      split; congruence.
Qed.

Lemma keys_of_cells (keys : list string) :
  (forall k, In k keys -> exists c, k = cellToString c) ->
  exists cs, keys = List.map cellToString cs.
Proof.
  induction keys as [|k keys IH]; intros H.
  - now exists [].
  - destruct (H k (or_introl eq_refl)) as [c ->].
    destruct IH as [cs ->]; [intros; apply H; now right|].
    now exists (c :: cs).
Qed.

Lemma map_get_filter_keys {V : Type} (p : string -> bool) k (m : Js.Map V) :
  Js.map_get k (filter (fun e => p (fst e)) m)
  = if p k then Js.map_get k m else None.
Proof.
  induction m as [|[k' v] m IH]; simpl.
  - now destruct (p k).
  - destruct (p k') eqn:Ep; simpl.
    + destruct (String.eqb k k') eqn:E; auto.
      apply String.eqb_eq in E. subst. now rewrite Ep.
    + destruct (String.eqb k k') eqn:E; auto.
      apply String.eqb_eq in E. subst. rewrite Ep in *. exact IH.
Qed.

Lemma filter_keys_NoDup {V : Type} (p : string * V -> bool) (m : Js.Map V) :
  NoDup (Js.map_keys m) -> NoDup (Js.map_keys (filter p m)).
Proof.
  induction m as [|[k v] m IH]; simpl; auto.
  intros H. inversion H as [|? ? Hni Hnd]; subst.
  destruct (p (k, v)); simpl; auto.
  constructor; auto. intros Hin. apply Hni.
  unfold Js.map_keys in *. apply in_map_iff in Hin as [[k' v'] [E Hin]].
  simpl in E. subst k'. apply filter_In in Hin as [Hin _].
  change k with (fst (k, v')). now apply in_map.
Qed.

(** The whole refresh. *)
Lemma populateMap_spec g :
  coherent g ->
  let g' := populateMap luck g in
  same_session g g' /\
  (exists extra, cacheStates g' = (cacheStates g ++ extra)%list) /\
  coherent g' /\
  (forall c, in_window g (cellToString c) = true ->
     Js.map_get (cellToString c) (cacheStates g')
       = store_after luck c (Js.map_get (cellToString c) (cacheStates g)) /\
     Js.map_get (cellToString c) (activeCacheRects g')
       = active_after (board g) c (Js.map_get (cellToString c) (activeCacheRects g))
           (Js.map_get (cellToString c) (cacheStates g'))) /\
  (forall k, in_window g k = false ->
     Js.map_get k (cacheStates g') = Js.map_get k (cacheStates g) /\
     Js.map_get k (activeCacheRects g') = None).
Proof.
  intros Hco g'. subst g'. unfold populateMap.
  pose proof Hco as [Hok [Hnd1 [Hnd2 Hmir]]].
  pose proof (getVisibleCells_spec (playerMarker g) (board g) Hok) as Hv.
  destruct (getVisibleCells (playerMarker g) (board g)) as [keys b].
  destruct Hv as [Hkeys [Hndk [Hokb [Htw Hr]]]].
  assert (Hwin : forall k, Js.set_has k keys = in_window g k).
  { intros k. unfold in_window, window_keys. now apply set_has_ext. }
  destruct (keys_of_cells keys) as [cs ->].
  { intros k Hk. apply Hkeys in Hk. apply in_map_iff in Hk as [c [<- _]]. eauto. }
  assert (Hco0 : coherent (with_board b g)).
  { unfold coherent. game_simpl. auto. }
  destruct (fold_visitCell cs (with_board b g) Hco0) as [Hs [Hex [Hco1 [Hin Hout]]]].
  set (g1 := fold_left (visitCell luck) (List.map cellToString cs) (with_board b g)) in *.
  unfold removeInactiveCaches.
  game_simpl.
  split.
  { destruct Hs as [S1 [S2 [S3 [S4 [S5 S6]]]]]. game_simpl.
    unfold same_session. game_simpl. repeat split; congruence. }
  split; [exact Hex|].
  destruct Hco1 as [Hok1 [Hnd1' [Hnd2' Hmir1]]].
  split.
  { unfold coherent. game_simpl.
    split; [exact Hok1|]. split; [exact Hnd1'|].
    split; [now apply filter_keys_NoDup|].
    intros k r Hkr. apply filter_In in Hkr as [Hkr _]. now apply Hmir1. }
  split.
  - intros c Hc. rewrite <- Hwin in Hc.
    destruct (Hin c Hc) as [I1 I2]. split; [exact I1|].
    rewrite (map_get_filter_keys (fun k => Js.set_has k (List.map cellToString cs))).
    rewrite Hc, I2. apply active_after_tileWidth. exact Htw.
  - intros k Hk. rewrite <- Hwin in Hk.
    destruct (Hout k Hk) as [O1 O2]. split; [exact O1|].
    rewrite (map_get_filter_keys (fun k => Js.set_has k (List.map cellToString cs))).
    now rewrite Hk.
Qed.

(** ** The handlers *)

Lemma pop_snoc {A : Type} (l : list A) x : pop (l ++ [x]) = Some (x, l).
Proof.
  unfold pop. rewrite List.rev_app_distr. simpl. now rewrite List.rev_involutive.
Qed.

Lemma pop_nil {A : Type} : pop (@nil A) = None.
Proof. reflexivity. Qed.

Lemma pop_Some {A : Type} (l : list A) x r :
  pop l = Some (x, r) -> l = (r ++ [x])%list.
Proof.
  unfold pop. destruct (List.rev l) as [|y t] eqn:E; [discriminate|].
  intros [= <- <-]. rewrite <- (List.rev_involutive l), E. reflexivity.
Qed.

Lemma pop_None {A : Type} (l : list A) : pop l = None -> l = [].
Proof.
  unfold pop. destruct (List.rev l) as [|y t] eqn:E; [|discriminate].
  intros _. rewrite <- (List.rev_involutive l), E. reflexivity.
Qed.

Lemma coherent_with_localStorage st g :
  coherent g -> coherent (with_localStorage st g).
Proof. unfold coherent. now game_simpl. Qed.

Lemma coherent_with_playerWallet w g :
  coherent g -> coherent (with_playerWallet w g).
Proof. unfold coherent. now game_simpl. Qed.

Lemma coherent_with_playerMarker p g :
  coherent g -> coherent (with_playerMarker p g).
Proof. unfold coherent. now game_simpl. Qed.

Lemma coherent_with_movementHistory h g :
  coherent g -> coherent (with_movementHistory h g).
Proof. unfold coherent. now game_simpl. Qed.

(** Replacing, in a coherent session, the coins of the rendered cache at [k]
    and of its store entry by the same list keeps the session coherent. *)
Lemma coherent_update g k r cs :
  coherent g ->
  Js.map_get k (activeCacheRects g) = Some r ->
  coherent
    (with_cacheStates (Js.map_set (cellToString (popup_cell r)) cs (cacheStates g))
       (with_activeCacheRects
          (Js.map_set k
             (mkRectangle (rect_bounds r)
                (mkCache cs (serialNumber (popup_cache r)) (location (popup_cache r)))
                (popup_cell r))
             (activeCacheRects g)) g)).
Proof.
  intros Hco Hr. pose proof Hco as [Hok [Hnd1 [Hnd2 Hmir]]].
  apply map_get_In in Hr as Hin. destruct (Hmir _ _ Hin) as [Hk _].
  rewrite Hk. unfold coherent. game_simpl.
  split; [exact Hok|]. split; [now apply map_set_NoDup|].
  split; [now apply map_set_NoDup|].
  intros k1 r1 H1. apply In_map_get in H1; [|now apply map_set_NoDup].
  destruct (string_dec k1 k) as [->|Hne].
  - rewrite map_get_set_same in H1. injection H1 as <-.
    split; [exact Hk|]. simpl. apply map_get_set_same.
  - rewrite map_get_set_other in H1 by assumption.
    apply map_get_In in H1. destruct (Hmir _ _ H1) as [M1 M2].
    split; [exact M1|]. now rewrite map_get_set_other.
Qed.

Lemma collect_coherent k g : coherent g -> coherent (collect k g).
Proof.
  intros Hco. unfold collect.
  destruct (Js.map_get k (activeCacheRects g)) as [r|] eqn:Hr; auto.
  destruct (pop (coins (popup_cache r))) as [[coin rest]|]; auto.
  unfold saveGameState. apply coherent_with_localStorage.
  game_simpl.
  apply (coherent_update (with_playerWallet (playerWallet g ++ [coin]) g) k r rest).
  - now apply coherent_with_playerWallet.
  - exact Hr.
Qed.

Lemma deposit_coherent k g : coherent g -> coherent (deposit k g).
Proof.
  intros Hco. unfold deposit.
  destruct (Js.map_get k (activeCacheRects g)) as [r|] eqn:Hr; auto.
  destruct (pop (playerWallet g)) as [[coin rest]|]; auto.
  unfold saveGameState. apply coherent_with_localStorage.
  game_simpl.
  apply (coherent_update (with_playerWallet rest g) k r
           (coins (popup_cache r) ++ [coin])).
  - now apply coherent_with_playerWallet.
  - exact Hr.
Qed.

Lemma populateMap_coherent g : coherent g -> coherent (populateMap luck g).
Proof. intros H. now destruct (populateMap_spec g H) as [_ [_ [? _]]]. Qed.

Lemma positionUpdate_coherent a b g :
  coherent g -> coherent (positionUpdate luck a b g).
Proof.
  intros H. unfold positionUpdate. apply populateMap_coherent.
  now apply coherent_with_movementHistory, coherent_with_playerMarker.
Qed.

Lemma movePlayer_positionUpdate dLat dLng g :
  movePlayer luck dLat dLng g
  = positionUpdate luck (lat (playerMarker g) + dLat) (lng (playerMarker g) + dLng) g.
Proof. reflexivity. Qed.

Lemma clickMove_coherent d g : coherent g -> coherent (clickMove luck d g).
Proof.
  intros H. destruct d; simpl; rewrite movePlayer_positionUpdate;
    now apply positionUpdate_coherent.
Qed.

Lemma rewriteEntries_same (m : Js.Map (list Coin)) :
  NoDup (Js.map_keys m) -> rewriteEntries m = m.
Proof. intros H. unfold rewriteEntries. apply fold_set_self; auto. apply incl_refl. Qed.

Lemma resetGame_coherent answer g g' :
  coherent g -> resetGame luck answer g = Done g' -> coherent g'.
Proof.
  intros Hco. unfold resetGame.
  destruct (confirmed answer); [|now intros [= <-]].
  destruct (movementHistory g) as [|first rest]; [discriminate|].
  intros [= <-]. apply populateMap_coherent.
  unfold saveGameState. apply coherent_with_localStorage.
  apply coherent_with_playerMarker, coherent_with_movementHistory.
  destruct Hco as [Hok [Hnd1 [Hnd2 Hmir]]].
  unfold coherent. game_simpl. rewrite rewriteEntries_same by assumption.
  split; [exact Hok|]. split; [exact Hnd1|]. split; [constructor|]. intros k r [].
Qed.

Lemma handle_coherent e g g' :
  coherent g -> handle luck e g = Done g' -> coherent g'.
Proof.
  intros Hco. destruct e; simpl.
  - intros [= <-]. now apply clickMove_coherent.
  - intros [= <-]. now apply positionUpdate_coherent.
  - intros [= <-]. now apply collect_coherent.
  - intros [= <-]. now apply deposit_coherent.
  - now apply resetGame_coherent.
Qed.

Lemma fold_set_NoDup {V : Type} (l : list (string * V)) : forall m,
  NoDup (Js.map_keys m) ->
  NoDup (Js.map_keys (fold_left (fun acc e => Js.map_set (fst e) (snd e) acc) l m)).
Proof.
  induction l as [|e l IH]; intros m H; simpl; auto.
  apply IH. now apply map_set_NoDup.
Qed.

Lemma initial_coherent stored : coherent (initial stored).
Proof.
  unfold coherent, initial. simpl.
  split; [apply newBoard_ok|]. split; [constructor|]. split; [constructor|].
  intros k r [].
Qed.

Lemma loadGameState_coherent g g' :
  coherent g -> activeCacheRects g = [] ->
  loadGameState luck g = Done g' -> coherent g'.
Proof.
  intros Hco Hact. unfold loadGameState.
  destruct (localStorage g) as [[|ch text]|]; try (now intros [= <-]).
  destruct (Json.parse (String ch text)) as [doc|[|]]; try discriminate.
  destruct (decode_state doc) as [snap|]; [|discriminate].
  intros [= <-]. apply populateMap_coherent.
  assert (H : coherent
                (with_movementHistory (snap_history snap)
                   (with_cacheStates
                      (fold_left (fun m entry => Js.map_set (fst entry) (snd entry) m)
                         (snap_entries snap) [])
                      (with_playerWallet (snap_wallet snap) g)))).
  { apply coherent_with_movementHistory.
    destruct Hco as [Hok [Hnd1 [Hnd2 Hmir]]].
    unfold coherent. game_simpl. rewrite Hact.
    split; [exact Hok|]. split; [apply fold_set_NoDup; constructor|].
    split; [constructor|]. intros k r []. }
  game_simpl.
  destruct (List.rev (snap_history snap)); auto using coherent_with_playerMarker.
Qed.

(** Every session the program reaches is coherent. *)
Lemma reachable_coherent g : reachable luck g -> coherent g.
Proof.
  induction 1 as [stored g Hs | g e g' Hr IH He].
  - apply (loadGameState_coherent (initial stored) g); auto.
    apply initial_coherent.
  - now apply (handle_coherent e g g').
Qed.

(** A run that ends normally from a reachable session ends in one. *)
Lemma run_reachable es : forall g g',
  reachable luck g -> run luck es g = Done g' -> reachable luck g'.
Proof.
  induction es as [|e es IH]; intros g g' Hr Hrun; simpl in Hrun.
  - injection Hrun as <-. exact Hr.
  - destruct (handle luck e g) as [g1| |] eqn:He; try discriminate Hrun.
    apply (IH g1 g'); [|exact Hrun].
    exact (reach_step luck g e g1 Hr He).
Qed.

End Refresh.

(** The two handlers on a non-empty source. *)
Lemma collect_snoc g k r rest coin :
  Js.map_get k (activeCacheRects g) = Some r ->
  coins (popup_cache r) = (rest ++ [coin])%list ->
  collect k g =
  saveGameState
    (with_cacheStates
       (Js.map_set (cellToString (popup_cell r)) rest (cacheStates g))
       (with_playerWallet (playerWallet g ++ [coin])
          (with_activeCacheRects
             (Js.map_set k
                (mkRectangle (rect_bounds r)
                   (mkCache rest (serialNumber (popup_cache r))
                      (location (popup_cache r)))
                   (popup_cell r))
                (activeCacheRects g)) g))).
Proof. intros Hr Hc. unfold collect. now rewrite Hr, Hc, pop_snoc. Qed.

Lemma deposit_snoc g k r rest coin :
  Js.map_get k (activeCacheRects g) = Some r ->
  playerWallet g = (rest ++ [coin])%list ->
  deposit k g =
  saveGameState
    (with_cacheStates
       (Js.map_set (cellToString (popup_cell r))
          (coins (popup_cache r) ++ [coin])%list (cacheStates g))
       (with_activeCacheRects
          (Js.map_set k
             (mkRectangle (rect_bounds r)
                (mkCache (coins (popup_cache r) ++ [coin])%list
                   (serialNumber (popup_cache r)) (location (popup_cache r)))
                (popup_cell r))
             (activeCacheRects g))
          (with_playerWallet rest g))).
Proof. intros Hr Hw. unfold deposit. now rewrite Hr, Hw, pop_snoc. Qed.

(** The fields of the session after a collect that finds a coin. *)
Lemma collect_fields g k r rest coin :
  Js.map_get k (activeCacheRects g) = Some r ->
  coins (popup_cache r) = (rest ++ [coin])%list ->
  playerWallet (collect k g) = (playerWallet g ++ [coin])%list /\
  cacheStates (collect k g)
    = Js.map_set (cellToString (popup_cell r)) rest (cacheStates g) /\
  movementHistory (collect k g) = movementHistory g /\
  playerMarker (collect k g) = playerMarker g /\
  board (collect k g) = board g /\
  stored_snapshot (collect k g) = Some (snapshot_of (collect k g)).
Proof.
  intros Hr Hc. rewrite (collect_snoc g k r rest coin Hr Hc).
  repeat (split; [reflexivity|]).
  rewrite stored_snapshot_save. reflexivity.
Qed.

(** ** Movement, seen as a refresh at the new position *)

Lemma in_window_same_session g g' k :
  same_session g g' -> in_window g' k = in_window g k.
Proof.
  intros [_ [Hm [_ [_ [Htw Hr]]]]]. unfold in_window, window_keys.
  now rewrite Hm, Htw, Hr.
Qed.

Lemma movement_refresh luck e g g' :
  is_movement e = true -> handle luck e g = Done g' ->
  exists p,
    g' = populateMap luck
           (with_movementHistory (movementHistory g ++ [p]) (with_playerMarker p g)).
Proof.
  destruct e as [d| a b | | |]; try discriminate; intros _ [= <-].
  - destruct d; eexists; reflexivity.
  - eexists; reflexivity.
Qed.

(** What a movement does to the store entry and the rendering of a cell. *)
Lemma movement_spec luck e g g' :
  coherent g -> is_movement e = true -> handle luck e g = Done g' ->
  coherent g' /\
  playerWallet g' = playerWallet g /\
  localStorage g' = localStorage g /\
  (exists extra, cacheStates g' = (cacheStates g ++ extra)%list) /\
  (forall c, in_window g' (cellToString c) = true ->
     Js.map_get (cellToString c) (cacheStates g')
       = store_after luck c (Js.map_get (cellToString c) (cacheStates g)) /\
     Js.map_get (cellToString c) (activeCacheRects g')
       = active_after (board g) c (Js.map_get (cellToString c) (activeCacheRects g))
           (Js.map_get (cellToString c) (cacheStates g'))) /\
  (forall k, in_window g' k = false ->
     Js.map_get k (cacheStates g') = Js.map_get k (cacheStates g) /\
     Js.map_get k (activeCacheRects g') = None).
Proof.
  intros Hco Hm He. destruct (movement_refresh luck e g g' Hm He) as [p ->].
  set (pre := with_movementHistory (movementHistory g ++ [p]) (with_playerMarker p g)).
  assert (Hpre : coherent pre)
    by now apply coherent_with_movementHistory, coherent_with_playerMarker.
  destruct (populateMap_spec luck pre Hpre) as [Hs [Hex [Hco' [Hin Hout]]]].
  pose proof Hs as [S1 [S2 [S3 [S4 [S5 S6]]]]].
  split; [exact Hco'|]. split; [exact S1|]. split; [exact S4|].
  split; [exact Hex|]. split.
  - intros c Hc. rewrite (in_window_same_session pre _ _ Hs) in Hc. now apply Hin.
  - intros k Hk. rewrite (in_window_same_session pre _ _ Hs) in Hk. now apply Hout.
Qed.

(** ** The luck of a cell *)

Lemma Qlt_bool_iff x y : Qlt_bool x y = true <-> (x < y)%Q.
Proof. unfold Qlt_bool, Qlt. apply Z.ltb_lt. Qed.

Lemma Qlt_bool_false x y : Qlt_bool x y = false <-> ~ (x < y)%Q.
Proof.
  rewrite <- Qlt_bool_iff. destruct (Qlt_bool x y); split; congruence.
Qed.

(** ** Binary64 products

    What rounding the product to the nearest binary64 number can and cannot
    do to [Math.floor (luck * 100)]: an integer the exact product does not
    pass is not passed by the rounded one either. *)

Lemma pow2_pos (e : Z) : (0 < 2 ^ e)%Q.
Proof. apply Qpower_0_lt. reflexivity. Qed.

Lemma pow2_plus (a b : Z) : (2 ^ (a + b) == 2 ^ a * 2 ^ b)%Q.
Proof. apply Qpower_plus. discriminate. Qed.

Lemma pow2_Z (m : Z) : 0 <= m -> (2 ^ m == inject_Z (2 ^ m))%Q.
Proof. intros H. symmetry. apply (Zpower_Qpower 2 m H). Qed.

Lemma pow2_opp (m : Z) : (2 ^ (- m) == / 2 ^ m)%Q.
Proof. apply Qpower_opp. Qed.

Lemma pow2_cancel (m : Z) : (2 ^ m * 2 ^ (- m) == 1)%Q.
Proof. rewrite <- pow2_plus. replace (m + - m) with 0 by lia. reflexivity. Qed.

Lemma pow2_half (m : Z) : (2 ^ (m + 1) == 2 * 2 ^ m)%Q.
Proof. rewrite pow2_plus. change (2 ^ 1)%Q with 2%Q. ring. Qed.

(** Rounding to an integer moves a number by a half at most, and never past
    an integer. *)
Lemma round_half_even_near (q : Q) :
  (inject_Z (Js.round_half_even q) <= q + (1 # 2))%Q /\
  (q - (1 # 2) <= inject_Z (Js.round_half_even q))%Q.
Proof.
  unfold Js.round_half_even.
  pose proof (Qfloor_le q) as Hl. pose proof (Qlt_floor q) as Hu.
  rewrite inject_Z_plus in Hu. change (inject_Z 1) with 1%Q in Hu.
  destruct (Qcompare_spec (q - inject_Z (Qfloor q)) (1 # 2)) as [E | E | E];
    [destruct (Z.even (Qfloor q)) | | ];
    rewrite ?inject_Z_plus; change (inject_Z 1) with 1%Q; split; lra.
Qed.

Lemma round_half_even_comp (q q' : Q) :
  (q == q')%Q -> Js.round_half_even q = Js.round_half_even q'.
Proof.
  intros E. unfold Js.round_half_even.
  rewrite (Qfloor_comp q q' E).
  assert (C : ((q - inject_Z (Qfloor q') ?= 1 # 2) =
               (q' - inject_Z (Qfloor q') ?= 1 # 2))%Q).
  { now rewrite E. }
  now rewrite C.
Qed.

Lemma round_half_even_le (q : Q) (t : Z) :
  (q <= inject_Z t)%Q -> Js.round_half_even q <= t.
Proof.
  intros H. unfold Js.round_half_even.
  pose proof (Qfloor_le q) as Hl.
  assert (Hf : Qfloor q <= t).
  { rewrite <- (Qfloor_Z t). now apply Qfloor_resp_le. }
  destruct (Z.eq_dec (Qfloor q) t) as [E | E].
  - rewrite E in *.
    destruct (Qcompare_spec (q - inject_Z t) (1 # 2)) as [C | C | C];
      [exfalso; lra | lia | exfalso; lra].
  - destruct (q - inject_Z (Qfloor q) ?= 1 # 2)%Q; [destruct (Z.even _) | | ]; lia.
Qed.

Lemma round_half_even_ge (q : Q) (t : Z) :
  (inject_Z t <= q)%Q -> t <= Js.round_half_even q.
Proof.
  intros H. unfold Js.round_half_even.
  assert (Hf : t <= Qfloor q).
  { rewrite <- (Qfloor_Z t). now apply Qfloor_resp_le. }
  destruct (q - inject_Z (Qfloor q) ?= 1 # 2)%Q; [destruct (Z.even _) | | ]; lia.
Qed.

(** The first guess of [exponent] is off by one at most. *)
Lemma scale_log2 (q : Q) :
  (0 < q)%Q ->
  let k := Z.log2 (Qnum q) - Z.log2 (Zpos (Qden q)) - 52 in
  (inject_Z (2 ^ 51) < Js.scale q (- k))%Q /\
  (Js.scale q (- k) < inject_Z (2 ^ 53))%Q.
Proof.
  destruct q as [n d]. intros Hq k. unfold Qlt in Hq. cbn in Hq. cbn [Qnum Qden] in k.
  assert (Hn : 0 < n) by lia.
  pose proof (Z.log2_spec n Hn) as [Hn1 Hn2].
  pose proof (Z.log2_spec (Zpos d) (Pos2Z.is_pos d)) as [Hd1 Hd2].
  pose proof (Z.log2_nonneg n) as Hln.
  pose proof (Z.log2_nonneg (Zpos d)) as Hld.
  set (ln := Z.log2 n) in *. set (ld := Z.log2 (Zpos d)) in *.
  assert (E : (Js.scale (n # d) (- k) ==
               (n # d) * inject_Z (2 ^ 52 * 2 ^ ld) / inject_Z (2 ^ ln))%Q).
  { unfold Js.scale, k. replace (- (ln - ld - 52)) with ((52 + ld) + - ln) by lia.
    rewrite pow2_plus, pow2_opp, !pow2_Z, Z.pow_add_r by lia.
    unfold Qdiv. ring. }
  assert (Hp : (0 < inject_Z (2 ^ ln))%Q).
  { pose proof (Z.pow_pos_nonneg 2 ln) as Hpp.
    unfold Qlt, inject_Z. cbn [Qnum Qden]. lia. }
  rewrite Z.pow_succ_r in Hn2, Hd2 by assumption.
  rewrite E. split.
  - apply Qlt_shift_div_l; [exact Hp |].
    unfold Qlt, Qmult, inject_Z. cbn [Qnum Qden]. nia.
  - apply Qlt_shift_div_r; [exact Hp |].
    unfold Qlt, Qmult, inject_Z. cbn [Qnum Qden]. nia.
Qed.

(** The significand of a positive number has 53 bits. *)
Lemma exponent_spec (q : Q) :
  (0 < q)%Q ->
  (inject_Z (2 ^ 52) <= Js.scale q (- Js.exponent q))%Q /\
  (Js.scale q (- Js.exponent q) < inject_Z (2 ^ 53))%Q.
Proof.
  intros Hq. pose proof (scale_log2 q Hq) as [H1 H2]. cbv zeta in H1, H2.
  unfold Js.exponent.
  set (k := Z.log2 (Qnum q) - Z.log2 (Zpos (Qden q)) - 52) in *.
  assert (E51 : (inject_Z (2 ^ 52) == 2 * inject_Z (2 ^ 51))%Q) by reflexivity.
  assert (E53 : (inject_Z (2 ^ 53) == 2 * inject_Z (2 ^ 52))%Q) by reflexivity.
  destruct (Qle_bool (inject_Z (2 ^ 52)) (Js.scale q (- k))) eqn:E1; cbn [negb].
  - apply Qle_bool_iff in E1.
    destruct (Qle_bool (inject_Z (2 ^ 53)) (Js.scale q (- k))) eqn:E2.
    + apply Qle_bool_iff in E2. exfalso. lra.
    + split; assumption.
  - assert (Hlt : (Js.scale q (- k) < inject_Z (2 ^ 52))%Q).
    { apply Qnot_le_lt. intros C. apply Qle_bool_iff in C. congruence. }
    assert (E : (Js.scale q (- (k - 1)) == 2 * Js.scale q (- k))%Q).
    { unfold Js.scale. replace (- (k - 1)) with (- k + 1) by lia.
      rewrite pow2_half. ring. }
    rewrite E. split; lra.
Qed.

Lemma exponent_small (q : Q) :
  (0 < q)%Q -> (q <= inject_Z (2 ^ 52))%Q -> Js.exponent q <= 0.
Proof.
  intros Hq Hle. pose proof (exponent_spec q Hq) as [H1 _].
  destruct (Z_le_gt_dec (Js.exponent q) 0) as [L | G]; [exact L | exfalso].
  assert (Hp : (2 ^ (- Js.exponent q) <= 2 ^ (- 1))%Q).
  { apply Qpower_le_compat_l; [lia | discriminate]. }
  change (2 ^ (- 1))%Q with (1 # 2)%Q in Hp.
  pose proof (pow2_pos (- Js.exponent q)) as Hpos.
  unfold Js.scale in H1.
  assert (E51 : (inject_Z (2 ^ 52) == 2 * inject_Z (2 ^ 51))%Q) by reflexivity.
  assert (P51 : (0 < inject_Z (2 ^ 51))%Q) by reflexivity.
  assert (Hm : (q * 2 ^ (- Js.exponent q) <= q * (1 # 2))%Q).
  { rewrite !(Qmult_comm q). apply Qmult_le_compat_r; [exact Hp | lra]. }
  lra.
Qed.

(** Below 2^52 the binary64 numbers have a spacing of one or finer, so
    rounding does not pass an integer. *)
Lemma round_positive_between (q : Q) (lo hi : Z) :
  (0 < q)%Q -> (q <= inject_Z (2 ^ 52))%Q ->
  (inject_Z lo <= q)%Q -> (q <= inject_Z hi)%Q ->
  (inject_Z lo <= Js.round_positive q)%Q /\
  (Js.round_positive q <= inject_Z hi)%Q.
Proof.
  intros Hq Hle Hlo Hhi.
  pose proof (exponent_small q Hq Hle) as He.
  unfold Js.round_positive.
  set (e := Js.exponent q) in *.
  assert (Ew : (2 ^ (- e) == inject_Z (2 ^ (- e)))%Q) by (apply pow2_Z; lia).
  assert (Ee : (2 ^ e == / inject_Z (2 ^ (- e)))%Q).
  { rewrite <- Ew, <- pow2_opp. replace (- - e) with e by lia. reflexivity. }
  assert (Hw : (0 < inject_Z (2 ^ (- e)))%Q).
  { rewrite <- Ew. apply pow2_pos. }
  assert (Es : (Js.scale q (- e) == q * inject_Z (2 ^ (- e)))%Q).
  { unfold Js.scale. rewrite Ew. reflexivity. }
  assert (H1 : lo * 2 ^ (- e) <= Js.round_half_even (Js.scale q (- e))).
  { apply round_half_even_ge. rewrite Es, inject_Z_mult.
    apply Qmult_le_compat_r; [exact Hlo | lra]. }
  assert (H2 : Js.round_half_even (Js.scale q (- e)) <= hi * 2 ^ (- e)).
  { apply round_half_even_le. rewrite Es, inject_Z_mult.
    apply Qmult_le_compat_r; [exact Hhi | lra]. }
  set (M := Js.round_half_even (Js.scale q (- e))) in *.
  unfold Js.scale. rewrite Ee. split.
  - apply Qle_shift_div_l; [exact Hw |].
    rewrite <- inject_Z_mult, <- Zle_Qle. exact H1.
  - apply Qle_shift_div_r; [exact Hw |].
    rewrite <- inject_Z_mult, <- Zle_Qle. exact H2.
Qed.

Lemma round64_between (q : Q) (lo hi : Z) :
  (0 <= q)%Q -> (q <= inject_Z (2 ^ 52))%Q ->
  (inject_Z lo <= q)%Q -> (q <= inject_Z hi)%Q ->
  (inject_Z lo <= Js.round64 q)%Q /\ (Js.round64 q <= inject_Z hi)%Q.
Proof.
  intros Hq Hle Hlo Hhi. unfold Js.round64.
  destruct q as [n d]. cbn [Qnum]. destruct n as [| n | n].
  - assert (E : (0 # d == 0)%Q) by reflexivity. rewrite E in Hlo, Hhi.
    split; assumption.
  - apply round_positive_between; try assumption. reflexivity.
  - exfalso. unfold Qle in Hq. cbn in Hq. lia.
Qed.

(** [Math.floor (x * 100)] is the floor of the exact product or one more. *)
Lemma mul_hundred_near (x : Q) :
  (0 <= x)%Q -> (x < 1)%Q ->
  let n := Qfloor (Js.mul x 100) in
  Qfloor (x * 100) <= n <= Qfloor (x * 100) + 1 /\ 0 <= n <= 100.
Proof.
  intros H0 H1 n. unfold n, Js.mul.
  assert (Hq0 : (0 <= x * 100)%Q) by lra.
  assert (Hq1 : (x * 100 <= inject_Z 100)%Q).
  { change (inject_Z 100) with 100%Q. lra. }
  assert (Hbig : (x * 100 <= inject_Z (2 ^ 52))%Q).
  { assert (L : (inject_Z 100 <= inject_Z (2 ^ 52))%Q) by discriminate. lra. }
  pose proof (Qfloor_le (x * 100)) as Hf.
  pose proof (Qlt_floor (x * 100)) as Hc.
  destruct (round64_between (x * 100) (Qfloor (x * 100)) (Qfloor (x * 100) + 1)
              Hq0 Hbig Hf (Qlt_le_weak _ _ Hc)) as [A B].
  destruct (round64_between (x * 100) 0 100 Hq0 Hbig Hq0 Hq1) as [C D].
  apply Qfloor_resp_le in A, B, C, D. rewrite Qfloor_Z in A, B, C, D.
  change (Qfloor 0) with 0 in C. lia.
Qed.

Lemma round_positive_nonneg (q : Q) :
  (0 < q)%Q -> (0 <= Js.round_positive q)%Q.
Proof.
  intros Hq. pose proof (exponent_spec q Hq) as [S1 _].
  unfold Js.round_positive, Js.scale at 1.
  apply Qmult_le_0_compat; [| apply Qlt_le_weak, pow2_pos].
  change 0%Q with (inject_Z 0). rewrite <- Zle_Qle.
  apply round_half_even_ge.
  assert (P : (inject_Z 0 <= inject_Z (2 ^ 52))%Q) by discriminate.
  lra.
Qed.

Lemma round64_negative (q : Q) :
  (q < 0)%Q -> (Js.round64 q <= 0)%Q.
Proof.
  intros Hq. unfold Js.round64. destruct q as [[| n | n] d]; cbn [Qnum].
  - apply Qle_refl.
  - exfalso. unfold Qlt in Hq. cbn in Hq. lia.
  - assert (P : (0 < - (Z.neg n # d))%Q) by reflexivity.
    pose proof (round_positive_nonneg _ P). lra.
Qed.

Lemma mul_hundred_below_threshold (x : Q) :
  (x < 1 # 10)%Q -> Qfloor (Js.mul x 100) <= 10.
Proof.
  intros H1. unfold Js.mul.
  destruct (Qlt_le_dec x 0) as [Hneg | H0].
  { assert (Hq : (x * 100 < 0)%Q) by lra.
    pose proof (round64_negative _ Hq) as H.
    apply Qfloor_resp_le in H. change (Qfloor 0) with 0 in H. lia. }
  assert (Hq0 : (0 <= x * 100)%Q) by lra.
  assert (Hq1 : (x * 100 <= inject_Z 10)%Q).
  { change (inject_Z 10) with 10%Q. lra. }
  assert (Hbig : (x * 100 <= inject_Z (2 ^ 52))%Q).
  { assert (L : (inject_Z 10 <= inject_Z (2 ^ 52))%Q) by discriminate. lra. }
  destruct (round64_between (x * 100) 0 10 Hq0 Hbig Hq0 Hq1) as [_ D].
  apply Qfloor_resp_le in D. rewrite Qfloor_Z in D. exact D.
Qed.

(** The rounding does reach the next integer: [0.09999999999999999 * 100]
    is [10] in binary64. *)
Lemma just_below_a_tenth_rounds_up :
  (0 <= just_below_a_tenth)%Q /\ (just_below_a_tenth < 1 # 10)%Q /\
  (Js.round64 just_below_a_tenth == just_below_a_tenth)%Q /\
  Qfloor (just_below_a_tenth * 100) = 9 /\
  Qfloor (Js.mul just_below_a_tenth 100) = 10.
Proof. vm_compute. repeat split; congruence. Qed.

Lemma positive_Qnum (x : Q) :
  (0 < x)%Q -> exists n, Qnum x = Zpos n.
Proof.
  destruct x as [[| n | n] d]; unfold Qlt; cbn; intros H; try lia.
  now exists n.
Qed.

Lemma round64_positive (x : Q) :
  (0 < x)%Q -> Js.round64 x = Js.round_positive x.
Proof.
  intros H. destruct (positive_Qnum x H) as [n E].
  unfold Js.round64. now rewrite E.
Qed.

(** A positive binary64 number below 2^52 is a 53-bit integer over a power
    of two. *)
Lemma double_significand (x : Q) :
  (0 < x)%Q -> (x <= inject_Z (2 ^ 52))%Q -> (Js.round64 x == x)%Q ->
  exists M m, 0 <= m /\ 2 ^ 52 <= M < 2 ^ 53 /\
              (x * inject_Z (2 ^ m) == inject_Z M)%Q.
Proof.
  intros H0 Hle Hd. rewrite (round64_positive x H0) in Hd.
  pose proof (exponent_small x H0 Hle) as He.
  pose proof (exponent_spec x H0) as [S1 S2].
  unfold Js.round_positive in Hd.
  set (e := Js.exponent x) in *.
  set (M := Js.round_half_even (Js.scale x (- e))) in *.
  assert (Ew : (2 ^ (- e) == inject_Z (2 ^ (- e)))%Q) by (apply pow2_Z; lia).
  assert (Hw : (0 < inject_Z (2 ^ (- e)))%Q).
  { rewrite <- Ew. apply pow2_pos. }
  assert (Es : (Js.scale x (- e) == inject_Z M)%Q).
  { unfold Js.scale. rewrite <- Hd at 1. unfold Js.scale.
    rewrite <- Qmult_assoc, pow2_cancel. ring. }
  rewrite Es in S1, S2. rewrite <- Zle_Qle in S1. rewrite <- Zlt_Qlt in S2.
  exists M, (- e). split; [lia|]. split; [lia|].
  rewrite <- Es. unfold Js.scale. rewrite Ew. reflexivity.
Qed.

Lemma scaled_lt (x : Q) (M w a b : Z) :
  0 < w -> 0 < b -> (x * inject_Z w == inject_Z M)%Q ->
  ((x < inject_Z a / inject_Z b)%Q <-> M * b < a * w) /\
  ((x <= inject_Z a / inject_Z b)%Q <-> M * b <= a * w).
Proof.
  intros Hw Hb Ex.
  assert (Qw : (0 < inject_Z w)%Q)
    by (change 0%Q with (inject_Z 0); now rewrite <- Zlt_Qlt).
  assert (Qb : (0 < inject_Z b)%Q)
    by (change 0%Q with (inject_Z 0); now rewrite <- Zlt_Qlt).
  assert (Ed : (x == inject_Z M / inject_Z w)%Q).
  { rewrite <- Ex. field. intros C. rewrite C in Qw. revert Qw. apply Qlt_irrefl. }
  rewrite Ed. unfold Qlt, Qle, Qdiv, Qmult, Qinv, inject_Z.
  destruct w as [| w | w]; try lia. destruct b as [| b | b]; try lia.
  cbn [Qnum Qden]. split; split; intros H; lia.
Qed.

(** A double below one is at most [1 - 2^-53]. *)
Lemma double_below_one (x : Q) :
  (0 < x)%Q -> (x < 1)%Q -> (Js.round64 x == x)%Q ->
  (x <= 9007199254740991 # 9007199254740992)%Q.
Proof.
  intros H0 H1 Hd.
  assert (Hle : (x <= inject_Z (2 ^ 52))%Q).
  { assert (L : (1 <= inject_Z (2 ^ 52))%Q) by discriminate. lra. }
  destruct (double_significand x H0 Hle Hd) as [M [m [Hm [HM Ex]]]].
  pose proof (Z.pow_pos_nonneg 2 m eq_refl Hm) as Hw.
  change (2 ^ 52) with 4503599627370496 in HM.
  change (2 ^ 53) with 9007199254740992 in HM.
  apply (scaled_lt x M (2 ^ m) 1 1 Hw eq_refl Ex) in H1.
  apply (scaled_lt x M (2 ^ m) 9007199254740991 9007199254740992 Hw eq_refl Ex).
  assert (H53 : 52 < m).
  { apply (Z.pow_lt_mono_r_iff 2); [lia | lia |].
    change (2 ^ 52) with 4503599627370496. lia. }
  assert (Hp : 2 ^ 53 <= 2 ^ m) by (apply Z.pow_le_mono_r; lia).
  change (2 ^ 53) with 9007199254740992 in Hp. nia.
Qed.

(** The literal [0.1] is the binary64 number nearest to one tenth, a little
    above it.  No binary64 number lies between the two, so comparing a
    binary64 luck with the literal is comparing it with one tenth. *)
Lemma threshold_on_doubles (x : Q) :
  (Js.round64 x == x)%Q ->
  (x < Js.round64 (1 # 10))%Q <-> (x < CACHE_SPAWN_PROBABILITY)%Q.
Proof.
  intros Hd.
  assert (ET : (Js.round64 (1 # 10)
                == inject_Z 7205759403792794 / inject_Z 72057594037927936)%Q)
    by (vm_compute; reflexivity).
  rewrite ET. unfold CACHE_SPAWN_PROBABILITY.
  assert (L1 : (1 # 10 < inject_Z 7205759403792794 / inject_Z 72057594037927936)%Q)
    by reflexivity.
  assert (L2 : (inject_Z 7205759403792793 / inject_Z 72057594037927936 < 1 # 10)%Q)
    by reflexivity.
  split; [| intros H; lra].
  intros HT.
  destruct (Qlt_le_dec 0 x) as [H0 | Hneg]; [| lra].
  assert (Hle : (x <= inject_Z (2 ^ 52))%Q).
  { assert (L : (1 <= inject_Z (2 ^ 52))%Q) by discriminate.
    assert (L3 : (inject_Z 7205759403792794 / inject_Z 72057594037927936 < 1)%Q)
      by reflexivity.
    lra. }
  destruct (double_significand x H0 Hle Hd) as [M [m [Hm [HM Ex]]]].
  pose proof (Z.pow_pos_nonneg 2 m eq_refl Hm) as Hw.
  change (2 ^ 52) with 4503599627370496 in HM.
  change (2 ^ 53) with 9007199254740992 in HM.
  apply (scaled_lt x M (2 ^ m) 7205759403792794 72057594037927936 Hw eq_refl Ex)
    in HT.
  assert (Hpred : (x <= inject_Z 7205759403792793 / inject_Z 72057594037927936)%Q).
  { apply (scaled_lt x M (2 ^ m) 7205759403792793 72057594037927936 Hw eq_refl Ex).
    destruct (Z_lt_le_dec m 56) as [L | G].
    - exfalso.
      assert (P : 2 ^ m <= 2 ^ 55) by (apply Z.pow_le_mono_r; lia).
      change (2 ^ 55) with 36028797018963968 in P. nia.
    - destruct (Z.eq_dec m 56) as [-> | N].
      + change (2 ^ 56) with 72057594037927936 in *. lia.
      + assert (P : 2 ^ 57 <= 2 ^ m) by (apply Z.pow_le_mono_r; lia).
        change (2 ^ 57) with 144115188075855872 in P. nia. }
  lra.
Qed.

(** For a binary64 number below one the product stays below 100. *)
Lemma mul_hundred_double (x : Q) :
  (0 <= x)%Q -> (x < 1)%Q -> (Js.round64 x == x)%Q ->
  Qfloor (Js.mul x 100) <= 99.
Proof.
  intros H0 H1 Hd.
  destruct (Qlt_le_dec (x * 100) 98) as [Hs | Hb].
  { pose proof (mul_hundred_near x H0 H1) as [[_ Hn] _].
    assert (Hf : Qfloor (x * 100) <= 98).
    { rewrite <- (Qfloor_Z 98). apply Qfloor_resp_le.
      change (inject_Z 98) with 98%Q. lra. }
    lia. }
  assert (Hx : (0 < x)%Q) by lra.
  pose proof (double_below_one x Hx H1 Hd) as Hu.
  unfold Js.mul.
  set (q := (x * 100)%Q) in *.
  assert (Hq : (0 < q)%Q) by lra.
  assert (Hle : (q <= inject_Z (2 ^ 52))%Q).
  { assert (L : (100 <= inject_Z (2 ^ 52))%Q) by discriminate. unfold q. lra. }
  rewrite (round64_positive q Hq).
  pose proof (exponent_small q Hq Hle) as He.
  pose proof (exponent_spec q Hq) as [S1 _].
  unfold Js.round_positive.
  set (e := Js.exponent q) in *.
  assert (Ew : (2 ^ (- e) == inject_Z (2 ^ (- e)))%Q) by (apply pow2_Z; lia).
  assert (Ee : (2 ^ e == / inject_Z (2 ^ (- e)))%Q).
  { rewrite <- Ew, <- pow2_opp. replace (- - e) with e by lia. reflexivity. }
  assert (Hw : (0 < inject_Z (2 ^ (- e)))%Q).
  { rewrite <- Ew. apply pow2_pos. }
  unfold Js.scale in S1 |- *. rewrite Ew in S1.
  rewrite (round_half_even_comp _ (q * inject_Z (2 ^ (- e))))
    by (now rewrite Ew).
  set (w := inject_Z (2 ^ (- e))) in *.
  assert (Hqw : (q * w <= 100 * w)%Q).
  { apply Qmult_le_compat_r; [unfold q |]; lra. }
  assert (Hm : 45 < - e).
  { apply (Z.pow_lt_mono_r_iff 2); [lia | lia |].
    rewrite Zlt_Qlt. fold w.
    assert (E45 : (inject_Z (2 ^ 52) == 128 * inject_Z (2 ^ 45))%Q) by reflexivity.
    lra. }
  assert (Hp : (70368744177664 <= w)%Q).
  { assert (Z46 : 2 ^ 46 <= 2 ^ (- e)) by (apply Z.pow_le_mono_r; lia).
    unfold w, Qle, inject_Z. cbn [Qnum Qden].
    change (2 ^ 46) with 70368744177664 in Z46. lia. }
  assert (Hgap : (q * w <= 100 * w - (100 # 9007199254740992) * w)%Q).
  { assert (G : (q <= 100 - (100 # 9007199254740992))%Q) by (unfold q; lra).
    assert (G' : (q * w <= (100 - (100 # 9007199254740992)) * w)%Q).
    { apply Qmult_le_compat_r; lra. }
    lra. }
  pose proof (round_half_even_near (q * w)) as [Hn _].
  set (M := Js.round_half_even (q * w)) in *.
  assert (HM : M < 100 * 2 ^ (- e)).
  { rewrite Zlt_Qlt, inject_Z_mult. fold w. change (inject_Z 100) with 100%Q. lra. }
  assert (Hr : (inject_Z M * 2 ^ e < inject_Z 100)%Q).
  { rewrite Ee. apply Qlt_shift_div_r; [exact Hw |].
    unfold w. rewrite <- inject_Z_mult, <- Zlt_Qlt. exact HM. }
  pose proof (Qfloor_le (inject_Z M * 2 ^ e)) as Hf.
  assert (Hlt : (inject_Z (Qfloor (inject_Z M * 2 ^ e)) < inject_Z 100)%Q)
    by (eapply Qle_lt_trans; eassumption).
  rewrite <- Zlt_Qlt in Hlt. lia.
Qed.

Lemma count_from_length lo n : List.length (count_from lo n) = n.
Proof. revert lo. induction n; intros lo; simpl; auto. Qed.

Lemma spawned_coins_eq luck c :
  spawned_coins luck c
  = List.map (mkCoin c)
      (count_from 0 (Z.to_nat (Qfloor (Js.mul (luck (cellToString c)) 100)))).
Proof. reflexivity. Qed.

Lemma rev_head_last {A : Type} (l : list A) (d : A) :
  match List.rev l with
  | x :: _ => x
  | [] => d
  end = List.last l d.
Proof.
  induction l as [|a l IH] using List.rev_ind; [reflexivity|].
  rewrite List.rev_app_distr, List.last_last. reflexivity.
Qed.

(** Loading what [saveGameState] has just written. *)
Lemma loadGameState_saved luck g0 g :
  NoDup (Js.map_keys (cacheStates g)) ->
  localStorage g0 = localStorage (saveGameState g) ->
  loadGameState luck g0 =
  Done (populateMap luck
          (mkGame (board g0) (playerWallet g) (cacheStates g) (activeCacheRects g0)
                  (List.last (movementHistory g) (playerMarker g0))
                  (movementHistory g) (localStorage g0))).
Proof.
  intros Hnd Hst. unfold loadGameState. rewrite Hst.
  unfold saveGameState, with_localStorage. cbn [localStorage].
  destruct (Json.stringify (encode_state g)) as [|ch text] eqn:E.
  { unfold encode_state in E. rewrite stringify_obj in E. discriminate E. }
  rewrite <- E, parse_stringify, decode_encode_state.
  cbn [snapshot_of snap_wallet snap_entries snap_history].
  rewrite (fold_set_append (cacheStates g) []) by exact Hnd.
  rewrite <- (rev_head_last (movementHistory g) (playerMarker g0)).
  unfold with_movementHistory, with_cacheStates, with_playerWallet, with_playerMarker.
  cbn [board playerWallet cacheStates activeCacheRects playerMarker movementHistory
       localStorage].
  rewrite Hst. unfold saveGameState, with_localStorage. cbn [localStorage].
  destruct (List.rev (movementHistory g)); reflexivity.
Qed.

(** ** Coins are moved, never copied or dropped, by collect and deposit *)

Lemma map_set_split {V : Type} k (v : V) m :
  Js.map_get k m = Some v ->
  exists m1 m2,
    m = (m1 ++ (k, v) :: m2)%list /\
    forall v', Js.map_set k v' m = (m1 ++ (k, v') :: m2)%list.
Proof.
  induction m as [|[k' v0] m IH]; simpl; [discriminate|].
  destruct (String.eqb k k') eqn:E.
  - apply String.eqb_eq in E. subst k'. intros [= ->].
    exists [], m. split; reflexivity.
  - intros H. destruct (IH H) as [m1 [m2 [-> Hset]]].
    exists ((k', v0) :: m1), m2. split; [reflexivity|].
    intros v'. simpl. now rewrite Hset.
Qed.

Lemma concat_values_split {V : Type} (m1 m2 : Js.Map (list V)) k v :
  List.concat (Js.map_values (m1 ++ (k, v) :: m2)%list)
  = (List.concat (Js.map_values m1) ++ v ++ List.concat (Js.map_values m2))%list.
Proof.
  unfold Js.map_values. rewrite List.map_app, List.concat_app. reflexivity.
Qed.

Lemma all_coins_collect k g :
  coherent g -> Permutation (all_coins (collect k g)) (all_coins g).
Proof.
  intros Hco. unfold collect.
  destruct (Js.map_get k (activeCacheRects g)) as [r|] eqn:Hr; [|reflexivity].
  destruct (pop (coins (popup_cache r))) as [[coin rest]|] eqn:Hp; [|reflexivity].
  apply pop_Some in Hp.
  pose proof (coherent_active_stored g k r Hco Hr) as Hst. rewrite Hp in Hst.
  assert (Hk : cellToString (popup_cell r) = k).
  { destruct Hco as [_ [_ [_ Hmir]]]. apply map_get_In in Hr.
    now destruct (Hmir _ _ Hr). }
  destruct (map_set_split k _ _ Hst) as [m1 [m2 [Hm Hset]]].
  unfold all_coins, saveGameState. game_simpl. rewrite Hk, Hset, Hm.
  rewrite !concat_values_split, <- !List.app_assoc.
  apply Permutation_app_head. simpl.
  rewrite !List.app_assoc. apply Permutation_middle.
Qed.

Lemma all_coins_deposit k g :
  coherent g -> Permutation (all_coins (deposit k g)) (all_coins g).
Proof.
  intros Hco. unfold deposit.
  destruct (Js.map_get k (activeCacheRects g)) as [r|] eqn:Hr; [|reflexivity].
  destruct (pop (playerWallet g)) as [[coin rest]|] eqn:Hp; [|reflexivity].
  apply pop_Some in Hp.
  pose proof (coherent_active_stored g k r Hco Hr) as Hst.
  assert (Hk : cellToString (popup_cell r) = k).
  { destruct Hco as [_ [_ [_ Hmir]]]. apply map_get_In in Hr.
    now destruct (Hmir _ _ Hr). }
  destruct (map_set_split k _ _ Hst) as [m1 [m2 [Hm Hset]]].
  unfold all_coins, saveGameState. game_simpl. rewrite Hk, Hset, Hm, Hp.
  rewrite !concat_values_split, <- !List.app_assoc.
  apply Permutation_app_head. simpl.
  rewrite !List.app_assoc. symmetry.
  rewrite <- (List.app_assoc _ [coin]). simpl. apply Permutation_middle.
Qed.

(** Conservation: a run of collects and deposits from a coherent session
    keeps the coins of the session, and so their number. *)
Lemma collect_deposit_conservation luck es : forall g,
  coherent g ->
  (forall e, In e es -> exists k, e = ClickCollect k \/ e = ClickDeposit k) ->
  exists g', run luck es g = Done g' /\ coherent g' /\
             Permutation (all_coins g') (all_coins g) /\
             total_coins g' = total_coins g.
Proof.
  induction es as [|e es IH]; intros g Hco Hes.
  - exists g. split; [reflexivity|]. split; [exact Hco|].
    split; reflexivity.
  - destruct (Hes e (or_introl eq_refl)) as [k [-> | ->]]; simpl.
    + destruct (IH (collect k g)) as [g' [Hr [Hc [Hp Ht]]]].
      * now apply collect_coherent.
      * intros e He. apply Hes. now right.
      * exists g'. split; [exact Hr|]. split; [exact Hc|].
        pose proof (all_coins_collect k g Hco) as Hq.
        split; [now rewrite Hp|].
        rewrite Ht. unfold total_coins. now apply Permutation_length.
    + destruct (IH (deposit k g)) as [g' [Hr [Hc [Hp Ht]]]].
      * now apply deposit_coherent.
      * intros e He. apply Hes. now right.
      * exists g'. split; [exact Hr|]. split; [exact Hc|].
        pose proof (all_coins_deposit k g Hco) as Hq.
        split; [now rewrite Hp|].
        rewrite Ht. unfold total_coins. now apply Permutation_length.
Qed.

(** ** What a refresh never touches *)

Lemma getCellAtKey_dims k b :
  tileWidth (snd (getCellAtKey k b)) = tileWidth b /\
  tileVisibilityRadius (snd (getCellAtKey k b)) = tileVisibilityRadius b.
Proof.
  unfold getCellAtKey.
  destruct (parse_cell_key k) as [c|];
    match goal with |- context [getCanonicalCell ?c b] =>
      pose proof (getCanonicalCell_cached c b) as H;
      destruct (getCanonicalCell c b) as [o b']
    end; simpl; tauto.
Qed.

Lemma visitCell_frame luck g k : same_session g (visitCell luck g k).
Proof.
  unfold visitCell. pose proof (getCellAtKey_dims k (board g)) as [H1 H2].
  destruct (getCellAtKey k (board g)) as [cell b0]. simpl in H1, H2.
  unfold restoreCacheIfNeeded, spawnCacheIfNeeded, restoreCache, spawnCache,
    same_session.
  repeat match goal with
         | |- context [if ?c then _ else _] => destruct c
         | |- context [match ?c with Some _ => _ | None => _ end] => destruct c
         end; game_simpl; repeat split; assumption || reflexivity.
Qed.

Lemma fold_visitCell_frame luck ks : forall g,
  same_session g (fold_left (visitCell luck) ks g).
Proof.
  induction ks as [|k ks IH]; intros g; simpl.
  - apply same_session_refl.
  - eapply same_session_trans; [apply visitCell_frame | apply IH].
Qed.

Lemma getVisibleCells_dims p b :
  tileWidth (snd (getVisibleCells p b)) = tileWidth b /\
  tileVisibilityRadius (snd (getVisibleCells p b)) = tileVisibilityRadius b.
Proof.
  unfold getVisibleCells, getCellsNearPoint, getCellForPoint.
  match goal with |- context [getCanonicalCell ?c b] =>
    pose proof (getCanonicalCell_cached c b) as H;
    destruct (getCanonicalCell c b) as [o b0]
  end.
  match goal with |- context [canonicalize_all ?l b0] =>
    pose proof (canonicalize_all_cached l b0) as H';
    destruct (canonicalize_all l b0) as [os b1]
  end.
  simpl. destruct H as [_ [_ [H1 H2]]]. destruct H' as [_ [H3 H4]].
  split; congruence.
Qed.

(** A refresh changes the store, the rectangles and the board's cell cache,
    nothing else. *)
Lemma populateMap_frame luck g : same_session g (populateMap luck g).
Proof.
  unfold populateMap. pose proof (getVisibleCells_dims (playerMarker g) (board g)) as [H1 H2].
  destruct (getVisibleCells (playerMarker g) (board g)) as [keys b]. simpl in H1, H2.
  pose proof (fold_visitCell_frame luck keys (with_board b g)) as [S1 [S2 [S3 [S4 [S5 S6]]]]].
  unfold removeInactiveCaches, same_session. game_simpl.
  repeat split; congruence.
Qed.

Lemma handle_standard_board luck e g g' :
  standard_board g -> handle luck e g = Done g' -> standard_board g'.
Proof.
  unfold standard_board. intros [H1 H2].
  assert (Hpop : forall x, tileWidth (board x) = TILE_DEGREES ->
                           tileVisibilityRadius (board x) = NEIGHBORHOOD_SIZE ->
                           tileWidth (board (populateMap luck x)) = TILE_DEGREES /\
                           tileVisibilityRadius (board (populateMap luck x))
                           = NEIGHBORHOOD_SIZE).
  { intros x Hx1 Hx2. destruct (populateMap_frame luck x) as [_ [_ [_ [_ [S5 S6]]]]].
    split; congruence. }
  destruct e as [d | a b | k | k | answer]; simpl.
  - intros [= <-]. destruct d; apply Hpop; assumption.
  - intros [= <-]. apply Hpop; assumption.
  - intros [= <-]. unfold collect.
    destruct (Js.map_get k (activeCacheRects g)); auto.
    destruct (pop _) as [[coin rest]|]; auto.
  - intros [= <-]. unfold deposit.
    destruct (Js.map_get k (activeCacheRects g)); auto.
    destruct (pop _) as [[coin rest]|]; auto.
  - unfold resetGame. destruct (confirmed answer); [|intros [= <-]; auto].
    destruct (movementHistory g); [discriminate|].
    intros [= <-]. apply Hpop; assumption.
Qed.

Lemma reachable_standard_board luck g : reachable luck g -> standard_board g.
Proof.
  induction 1 as [stored g Hs | g e g' Hr IH He].
  - unfold start, loadGameState in Hs. cbn [initial localStorage] in Hs.
    destruct stored as [[|ch text]|]; try (injection Hs as <-; split; reflexivity).
    destruct (Json.parse (String ch text)) as [doc|[|]]; try discriminate.
    destruct (decode_state doc) as [snap|]; [|discriminate].
    injection Hs as <-.
    match goal with |- standard_board (populateMap luck ?x) =>
      destruct (populateMap_frame luck x) as [_ [_ [_ [_ [S5 S6]]]]];
      assert (Hx : standard_board x)
    end.
    { destruct (List.rev _); split; reflexivity. }
    destruct Hx. split; congruence.
  - eapply handle_standard_board; eauto.
Qed.

Lemma in_window_standard g k :
  standard_board g ->
  in_window g k
  = Js.set_has k (List.map cellToString
                    (near_cells TILE_DEGREES NEIGHBORHOOD_SIZE (playerMarker g))).
Proof. intros [H1 H2]. unfold in_window, window_keys. now rewrite H1, H2. Qed.

Lemma positionUpdate_marker luck a b g :
  playerMarker (positionUpdate luck a b g) = latLng a b.
Proof.
  unfold positionUpdate.
  match goal with |- context [populateMap luck ?x] =>
    destruct (populateMap_frame luck x) as [_ [S2 _]]
  end.
  exact S2.
Qed.

(** ** The claims about the session *)

(** C6. Collect and deposit are stack moves, and their empty cases do
    nothing.  For the rectangle [r] registered under [cellKey], with [cache]
    and [cell] the cache and cell of its popup: when [cache.coins] ends with
    [coin], collect removes that last coin from the cache, appends it to the
    wallet, sets the store entry of [cell] to the shortened list and writes
    the snapshot of the resulting state; when [cache.coins] is empty, collect
    returns the session as it was (wallet, cache, store and snapshot).
    Deposit is the mirror image on the last coin of the wallet, and does
    nothing on an empty wallet.  Both handlers end normally. *)
Theorem collect_deposit_stack_semantics
    (luck : string -> Q) (g : Game) (cellKey : string) (r : Rectangle)
    (Hr : Js.map_get cellKey (activeCacheRects g) = Some r) :
  let cache := popup_cache r in
  let key := cellToString (popup_cell r) in
  handle luck (ClickCollect cellKey) g = Done (collect cellKey g) /\
  handle luck (ClickDeposit cellKey) g = Done (deposit cellKey g) /\
  (forall rest coin, coins cache = (rest ++ [coin])%list ->
     let g' := collect cellKey g in
     playerWallet g' = (playerWallet g ++ [coin])%list /\
     Js.map_get cellKey (activeCacheRects g')
       = Some (mkRectangle (rect_bounds r)
                 (mkCache rest (serialNumber cache) (location cache))
                 (popup_cell r)) /\
     cacheStates g' = Js.map_set key rest (cacheStates g) /\
     Js.map_get key (cacheStates g') = Some rest /\
     localStorage g' = Some (Json.stringify (encode_state g')) /\
     stored_snapshot g' = Some (snapshot_of g')) /\
  (coins cache = [] -> collect cellKey g = g) /\
  (forall rest coin, playerWallet g = (rest ++ [coin])%list ->
     let g' := deposit cellKey g in
     playerWallet g' = rest /\
     Js.map_get cellKey (activeCacheRects g')
       = Some (mkRectangle (rect_bounds r)
                 (mkCache (coins cache ++ [coin])%list (serialNumber cache) (location cache))
                 (popup_cell r)) /\
     cacheStates g' = Js.map_set key (coins cache ++ [coin])%list (cacheStates g) /\
     Js.map_get key (cacheStates g') = Some (coins cache ++ [coin])%list /\
     localStorage g' = Some (Json.stringify (encode_state g')) /\
     stored_snapshot g' = Some (snapshot_of g')) /\
  (playerWallet g = [] -> deposit cellKey g = g).
Proof.
  intros cache key. subst cache key.
  split; [reflexivity|]. split; [reflexivity|].
  split; [|split; [|split]].
  - intros rest coin Hc g'. subst g'. unfold collect. rewrite Hr, Hc, pop_snoc.
    match goal with |- context [saveGameState ?x] => set (g3 := x) end.
    assert (Hsave : stored_snapshot (saveGameState g3) = Some (snapshot_of (saveGameState g3)))
      by (rewrite stored_snapshot_save; reflexivity).
    split; [reflexivity|]. split; [apply map_get_set_same|].
    split; [reflexivity|]. split; [apply map_get_set_same|].
    split; [reflexivity|exact Hsave].
  - intros Hc. unfold collect. now rewrite Hr, Hc, pop_nil.
  - intros rest coin Hw g'. subst g'. unfold deposit. rewrite Hr, Hw, pop_snoc.
    match goal with |- context [saveGameState ?x] => set (g3 := x) end.
    assert (Hsave : stored_snapshot (saveGameState g3) = Some (snapshot_of (saveGameState g3)))
      by (rewrite stored_snapshot_save; reflexivity).
    split; [reflexivity|]. split; [apply map_get_set_same|].
    split; [reflexivity|]. split; [apply map_get_set_same|].
    split; [reflexivity|exact Hsave].
  - intros Hw. unfold deposit. now rewrite Hr, Hw, pop_nil.
Qed.

(** C2. Memento round trip.  In a coherent session let the cache rendered
    at cell [c] hold N coins, the last of them [coin].  Collect one coin,
    then move (by a button or a position update) so that [c] leaves the
    visibility window, then move so that it is back in it.  After the
    collect the store entry of [c] is the N-1 remaining coins; after the
    first move the cell has no rendering and the entry is unchanged; after
    the second move the cell is rendered again with exactly those N-1 coins,
    same coins (hence same serials) in the same order, not the N it started
    with. *)
Theorem memento_round_trip
    (luck : string -> Q) (g : Game) (c : Cell) (r : Rectangle)
    (remaining : list Coin) (coin : Coin) (away back : Event) (g2 g3 : Game)
    (Hco : coherent g)
    (Hr : Js.map_get (cellToString c) (activeCacheRects g) = Some r)
    (Hcoins : coins (popup_cache r) = (remaining ++ [coin])%list)
    (Haway : is_movement away = true)
    (Hg2 : handle luck away (collect (cellToString c) g) = Done g2)
    (Hout : in_window g2 (cellToString c) = false)
    (Hback : is_movement back = true)
    (Hg3 : handle luck back g2 = Done g3)
    (Hin : in_window g3 (cellToString c) = true) :
  let k := cellToString c in
  Js.map_get k (cacheStates (collect k g)) = Some remaining /\
  Js.map_get k (activeCacheRects g2) = None /\
  Js.map_get k (cacheStates g2) = Some remaining /\
  Js.map_get k (cacheStates g3) = Some remaining /\
  exists restored,
    Js.map_get k (activeCacheRects g3) = Some restored /\
    coins (popup_cache restored) = remaining /\
    List.map serial (coins (popup_cache restored)) = List.map serial remaining /\
    List.length (coins (popup_cache restored))
      = (List.length (coins (popup_cache r)) - 1)%nat /\
    location (popup_cache restored) = c.
Proof.
  intros k. subst k.
  assert (Hkey : cellToString (popup_cell r) = cellToString c).
  { destruct Hco as [_ [_ [_ Hmir]]]. apply map_get_In in Hr.
    now destruct (Hmir _ _ Hr). }
  assert (Hst1 : Js.map_get (cellToString c) (cacheStates (collect (cellToString c) g))
                 = Some remaining).
  { rewrite (collect_snoc g _ r remaining coin Hr Hcoins), Hkey.
    unfold saveGameState. game_simpl. apply map_get_set_same. }
  pose proof (collect_coherent (cellToString c) g Hco) as Hco1.
  destruct (movement_spec luck away _ g2 Hco1 Haway Hg2)
    as [Hco2 [_ [_ [_ [_ Hout2]]]]].
  destruct (Hout2 _ Hout) as [Hst2 Hac2]. rewrite Hst1 in Hst2.
  destruct (movement_spec luck back _ g3 Hco2 Hback Hg3)
    as [Hco3 [_ [_ [_ [Hin3 _]]]]].
  destruct (Hin3 c Hin) as [Hst3 Hac3].
  rewrite Hst2 in Hst3. simpl in Hst3.
  rewrite Hac2, Hst3 in Hac3. simpl in Hac3.
  split; [exact Hst1|]. split; [exact Hac2|]. split; [exact Hst2|].
  split; [exact Hst3|].
  eexists. split; [exact Hac3|]. simpl.
  repeat split. rewrite Hcoins, List.length_app. simpl. lia.
Qed.

(** C5. Deterministic cache spawning.  Let [luck] take its values in [0, 1)
    and let cell [c], with key [k], be in the window a refresh of a coherent
    session goes over.  The refresh creates the store entry of [k] exactly
    when [k] has no entry and [luck k < 0.1]; otherwise an existing entry is
    kept as it is and a missing one stays missing.  A spawned cache holds
    [n = Math.floor (luck k * 100)] coins, the product being the binary64
    one, with serials 0, 1, ..., n-1 in that order and spawn location [c], and
    it is rendered with those coins.  [n] is the floor of the exact product
    or one more (the rounding of the product can reach the next integer), so
    a spawned cache, its luck being below 0.1, holds between 0 and 10 coins;
    for any key [n] is at most 100, and at most 99 when [luck k] is itself a
    binary64 number.  For such a [luck k] the test against one tenth is the
    test against the literal [0.1], the binary64 number nearest to it.  The
    entry a spawn creates depends on the key alone:
    any other coherent session that refreshes over [k] without an entry
    creates the same one. *)
Theorem deterministic_cache_spawning
    (luck : string -> Q) (g : Game) (c : Cell)
    (Hrange : forall key, (0 <= luck key)%Q /\ (luck key < 1)%Q)
    (Hco : coherent g)
    (Hwin : in_window g (cellToString c) = true) :
  let k := cellToString c in
  let g' := populateMap luck g in
  let n := Qfloor (Js.mul (luck k) 100) in
  let fresh := List.map (mkCoin c) (count_from 0 (Z.to_nat n)) in
  ((Js.map_has k (cacheStates g) = false /\ Js.map_has k (cacheStates g') = true)
   <-> (Js.map_has k (cacheStates g) = false /\ (luck k < CACHE_SPAWN_PROBABILITY)%Q)) /\
  (Js.map_has k (cacheStates g) = false -> (luck k < CACHE_SPAWN_PROBABILITY)%Q ->
     Js.map_get k (cacheStates g') = Some fresh /\
     Js.map_get k (activeCacheRects g')
       = Some (mkRectangle (getCellBounds c (board g)) (mkCache fresh n c) c) /\
     0 <= n <= 10) /\
  (forall cs, Js.map_get k (cacheStates g) = Some cs ->
     Js.map_get k (cacheStates g') = Some cs) /\
  0 <= n <= 100 /\
  ((Js.round64 (luck k) == luck k)%Q ->
     n <= 99 /\
     ((luck k < Js.round64 (1 # 10))%Q <-> (luck k < CACHE_SPAWN_PROBABILITY)%Q)) /\
  Qfloor (luck k * 100) <= n <= Qfloor (luck k * 100) + 1 /\
  List.length fresh = Z.to_nat n /\
  List.map serial fresh = count_from 0 (Z.to_nat n) /\
  (forall coin, In coin fresh -> spawnLocation coin = c) /\
  (forall g2, coherent g2 -> in_window g2 k = true ->
     Js.map_has k (cacheStates g2) = false ->
     Js.map_has k (cacheStates g) = false ->
     Js.map_get k (cacheStates (populateMap luck g2)) = Js.map_get k (cacheStates g')).
Proof.
  intros k g' n fresh.
  destruct (populateMap_spec luck g Hco) as [_ [_ [_ [Hin _]]]].
  destruct (Hin c Hwin) as [Hst Hac]. fold k g' in Hst, Hac.
  destruct (Hrange k) as [H0 H1].
  pose proof (mul_hundred_near (luck k) H0 H1) as [Hnear Hn]. fold n in Hnear, Hn.
  assert (Hfresh : spawned_coins luck c = fresh) by reflexivity.
  split; [|split; [|split; [|split; [|split; [|split; [|split; [|split; [|split]]]]]]]].
  - split.
    + intros [Hno Hyes]. split; [exact Hno|].
      apply map_has_false in Hno. rewrite Hno in Hst. simpl in Hst. fold k in Hst.
      apply Qlt_bool_iff. fold (lucky luck k).
      destruct (lucky luck k); [reflexivity|].
      apply map_has_true in Hyes as [v Hv]. congruence.
    + intros [Hno Hl]. split; [exact Hno|].
      apply map_has_false in Hno. rewrite Hno in Hst. simpl in Hst. fold k in Hst.
      apply Qlt_bool_iff in Hl. fold (lucky luck k) in Hl. rewrite Hl in Hst.
      apply map_has_true. eauto.
  - intros Hno Hl.
    pose proof (mul_hundred_below_threshold _ Hl) as H10. fold n in H10.
    apply map_has_false in Hno. rewrite Hno in Hst. simpl in Hst. fold k in Hst.
    apply Qlt_bool_iff in Hl. fold (lucky luck k) in Hl. rewrite Hl, Hfresh in Hst.
    split; [exact Hst|]. split; [|lia].
    assert (Hna : Js.map_get k (activeCacheRects g) = None).
    { destruct (Js.map_get k (activeCacheRects g)) as [r|] eqn:Hr; auto.
      apply (coherent_active_stored g k r Hco) in Hr. congruence. }
    rewrite Hna, Hst in Hac. simpl in Hac. rewrite Hac. unfold rendering.
    unfold fresh. rewrite List.length_map, count_from_length, Z2Nat.id by lia.
    reflexivity.
  - intros cs Hcs. rewrite Hcs in Hst. exact Hst.
  - exact Hn.
  - intros Hd. split; [exact (mul_hundred_double (luck k) H0 H1 Hd)|].
    exact (threshold_on_doubles (luck k) Hd).
  - exact Hnear.
  - unfold fresh. now rewrite List.length_map, count_from_length.
  - unfold fresh. rewrite List.map_map. simpl. apply List.map_id.
  - intros coin Hc. unfold fresh in Hc. apply in_map_iff in Hc as [s0 [<- _]].
    reflexivity.
  - intros g2 Hco2 Hwin2 Hno2 Hno.
    destruct (populateMap_spec luck g2 Hco2) as [_ [_ [_ [Hin2 _]]]].
    destruct (Hin2 c Hwin2) as [Hst2 _]. fold k in Hst2.
    apply map_has_false in Hno2, Hno. rewrite Hst2, Hst, Hno2, Hno. reflexivity.
Qed.

(** C9. Reset.  In a coherent session whose history starts with [first], a
    reset answered "yes" (in any letter case) ends normally in a session
    with an empty wallet, the history [[first]], the player at the start
    location, and a snapshot that holds exactly that: no wallet coin, the
    one-point history, and the store as it was.  The loop over the store sets
    each entry to itself, so every entry keeps its coin sequence (the final
    refresh can only append entries for newly spawned cells).  Every
    rectangle registered before is dropped: the session that results is the
    refresh of the session with no rectangle at all, so a cell is rendered
    afterwards iff it is in the window of the start location and has a store
    entry, and then with the coins of that entry. *)
Theorem reset_effect_and_frame
    (luck : string -> Q) (g : Game) (answer : option string)
    (first : LatLng) (later : list LatLng)
    (Hco : coherent g)
    (Hyes : confirmed answer = true)
    (Hhist : movementHistory g = first :: later) :
  exists g',
    handle luck (ClickReset answer) g = Done g' /\
    playerWallet g' = [] /\
    movementHistory g' = [first] /\
    List.length (movementHistory g') = 1%nat /\
    playerMarker g' = OAKES_CLASSROOM /\
    stored_snapshot g' = Some (mkSnapshot [] (cacheStates g) [first]) /\
    rewriteEntries (cacheStates g) = cacheStates g /\
    (forall k cs, Js.map_get k (cacheStates g) = Some cs ->
                  Js.map_get k (cacheStates g') = Some cs) /\
    (exists extra, cacheStates g' = (cacheStates g ++ extra)%list) /\
    g' = populateMap luck
           (saveGameState
              (mkGame (board g) [] (cacheStates g) [] OAKES_CLASSROOM [first]
                      (localStorage g))) /\
    (forall c,
       Js.map_get (cellToString c) (activeCacheRects g')
       = if in_window g' (cellToString c)
         then option_map (rendering (board g) c)
                (Js.map_get (cellToString c) (cacheStates g'))
         else None) /\
    (forall k, in_window g' k = false -> Js.map_get k (activeCacheRects g') = None).
Proof.
  pose proof Hco as [Hok [Hnd1 [Hnd2 Hmir]]].
  pose proof (rewriteEntries_same (cacheStates g) Hnd1) as Hrw.
  set (cleared := mkGame (board g) [] (cacheStates g) [] OAKES_CLASSROOM [first]
                         (localStorage g)).
  assert (Hmid : coherent (saveGameState cleared)).
  { unfold saveGameState. apply coherent_with_localStorage.
    unfold coherent, cleared. simpl.
    split; [exact Hok|]. split; [exact Hnd1|]. split; [constructor|]. intros k r []. }
  exists (populateMap luck (saveGameState cleared)).
  destruct (populateMap_spec luck _ Hmid) as [Hs [Hex [Hco' [Hin Hout]]]].
  pose proof Hs as [S1 [S2 [S3 [S4 [S5 S6]]]]].
  split.
  { unfold handle, resetGame. rewrite Hyes, Hhist. game_simpl. rewrite Hrw.
    reflexivity. }
  split; [exact S1|]. split; [exact S3|]. split; [rewrite S3; reflexivity|].
  split; [exact S2|].
  split.
  { rewrite (stored_snapshot_storage _ _ S4), stored_snapshot_save. reflexivity. }
  split; [exact Hrw|].
  split.
  { intros k cs Hk. destruct Hex as [extra Hex]. rewrite Hex.
    now apply map_get_app_l. }
  split; [exact Hex|]. split; [reflexivity|].
  split.
  - intros c. rewrite (in_window_same_session _ _ _ Hs).
    destruct (in_window (saveGameState cleared) (cellToString c)) eqn:Hw.
    + destruct (Hin c Hw) as [_ Hac]. rewrite Hac. unfold active_after.
      change (activeCacheRects (saveGameState cleared)) with (@nil (string * Rectangle)).
      change (board (saveGameState cleared)) with (board g).
      cbn [Js.map_get].
      destruct (Js.map_get (cellToString c) (cacheStates _)); reflexivity.
    + now destruct (Hout _ Hw).
  - intros k Hk. rewrite (in_window_same_session _ _ _ Hs) in Hk.
    now destruct (Hout _ Hk).
Qed.

(** C4. Persistence round trip.  Let [g] be a session whose store has one
    entry per key.  What [saveGameState] writes decodes to the wallet, the
    store entries and the movement history of [g], coin by coin and point by
    point, in order.  Loading it on a fresh page ends normally: the session
    rebuilt from the snapshot has exactly that wallet, that store (same keys,
    same coin sequences, same order) and that history, the player stands at
    the last point of the history (at the start location if the history is
    empty), and the load ends with the visibility refresh of that session.
    The refresh leaves the wallet, the history and the position alone and
    keeps every saved store entry; it can only append entries for cells that
    spawn in the window. *)
Theorem persistence_round_trip
    (luck : string -> Q) (g : Game)
    (Hnd : NoDup (Js.map_keys (cacheStates g))) :
  let saved := saveGameState g in
  let rebuilt :=
    mkGame (newBoard TILE_DEGREES NEIGHBORHOOD_SIZE)
           (playerWallet g) (cacheStates g) []
           (List.last (movementHistory g) OAKES_CLASSROOM)
           (movementHistory g) (localStorage saved) in
  stored_snapshot saved = Some (snapshot_of g) /\
  start luck (localStorage saved) = Done (populateMap luck rebuilt) /\
  playerWallet (populateMap luck rebuilt) = playerWallet g /\
  movementHistory (populateMap luck rebuilt) = movementHistory g /\
  playerMarker (populateMap luck rebuilt)
    = List.last (movementHistory g) OAKES_CLASSROOM /\
  (exists extra,
     cacheStates (populateMap luck rebuilt) = (cacheStates g ++ extra)%list) /\
  (forall k cs, Js.map_get k (cacheStates g) = Some cs ->
     Js.map_get k (cacheStates (populateMap luck rebuilt)) = Some cs) /\
  (forall k, in_window rebuilt k = false ->
     Js.map_get k (cacheStates (populateMap luck rebuilt))
     = Js.map_get k (cacheStates g)).
Proof.
  intros saved rebuilt.
  assert (Hco : coherent rebuilt).
  { unfold coherent, rebuilt. cbn [board cacheStates activeCacheRects].
    split; [apply newBoard_ok|]. split; [exact Hnd|]. split; [constructor|].
    intros k r []. }
  destruct (populateMap_spec luck rebuilt Hco) as [Hs [Hex [_ [_ Hout]]]].
  destruct Hs as [S1 [S2 [S3 _]]].
  split; [apply stored_snapshot_save|].
  split.
  { unfold start.
    rewrite (loadGameState_saved luck (initial (localStorage saved)) g Hnd eq_refl).
    reflexivity. }
  split; [exact S1|]. split; [exact S3|]. split; [exact S2|].
  split; [exact Hex|]. split.
  - intros k cs Hk. destruct Hex as [extra ->]. now apply map_get_app_l.
  - intros k Hk. now destruct (Hout k Hk).
Qed.

(** C8, as the code has it.  With nothing stored, or with the empty string
    stored, the load ends normally and leaves the session at its defaults:
    the start location, an empty wallet, an empty store and a history of
    length 1.  A stored non-empty text that [JSON.parse] rejects is not
    treated as "no saved state": the [SyntaxError] leaves [loadGameState]
    uncaught (nothing has been assigned yet, so the variables still hold the
    defaults). *)
Theorem load_fallback_only_when_absent (luck : string -> Q) (stored : option string) :
  (stored = None \/ stored = Some EmptyString ->
     start luck stored = Done (initial stored) /\
     playerMarker (initial stored) = OAKES_CLASSROOM /\
     playerWallet (initial stored) = [] /\
     cacheStates (initial stored) = [] /\
     activeCacheRects (initial stored) = [] /\
     movementHistory (initial stored) = [OAKES_CLASSROOM] /\
     List.length (movementHistory (initial stored)) = 1%nat) /\
  (forall text,
     stored = Some text -> text <> EmptyString ->
     Json.parse text = Json.Err Json.SyntaxError ->
     start luck stored = Uncaught Json.SyntaxError (initial stored)).
Proof.
  split.
  - intros [-> | ->]; repeat split; reflexivity.
  - intros text -> Hne Hp. unfold start, loadGameState.
    cbn [initial localStorage].
    destruct text as [|ch text]; [congruence|]. now rewrite Hp.
Qed.

(** C7 fails on the code for movement.  Neither [movePlayer] nor the
    position callback calls [saveGameState]: a movement leaves the stored item
    as it was while it appends a point to the history, so a snapshot that was
    up to date before the movement no longer describes the session after
    it. *)
Theorem movement_leaves_snapshot_stale
    (luck : string -> Q) (e : Event) (g g' : Game)
    (Hm : is_movement e = true)
    (He : handle luck e g = Done g')
    (Hsync : stored_snapshot g = Some (snapshot_of g)) :
  localStorage g' = localStorage g /\
  stored_snapshot g' = Some (snapshot_of g) /\
  List.length (movementHistory g') = S (List.length (movementHistory g)) /\
  stored_snapshot g' <> Some (snapshot_of g').
Proof.
  destruct (movement_refresh luck e g g' Hm He) as [p ->].
  set (pre := with_movementHistory (movementHistory g ++ [p]) (with_playerMarker p g)).
  destruct (populateMap_frame luck pre) as [_ [_ [Hh [Hst _]]]].
  change (localStorage pre) with (localStorage g) in Hst.
  change (movementHistory pre) with (movementHistory g ++ [p])%list in Hh.
  assert (Hsnap : stored_snapshot (populateMap luck pre) = Some (snapshot_of g))
    by now rewrite (stored_snapshot_storage _ _ Hst).
  split; [exact Hst|]. split; [exact Hsnap|].
  split; [rewrite Hh, List.length_app; simpl; lia|].
  rewrite Hsnap. intros [= _ _ H]. rewrite Hh in H.
  apply (f_equal (@List.length LatLng)) in H.
  rewrite List.length_app in H. simpl in H. lia.
Qed.

(** ** The worked sessions *)

Lemma sample_session_reachable : reachable sample_luck sample_session.
Proof.
  apply (reach_step sample_luck (initial None) (ClickMove MoveUp) sample_session).
  - apply (reach_start sample_luck None). reflexivity.
  - unfold sample_session. reflexivity.
Qed.

Lemma sample_session_coherent : coherent sample_session.
Proof. apply (reachable_coherent sample_luck), sample_session_reachable. Qed.

Lemma sample_collected_reachable : reachable sample_luck sample_collected.
Proof.
  apply (reach_step sample_luck sample_session (ClickCollect sample_key_a)
           sample_collected).
  - exact sample_session_reachable.
  - unfold sample_collected. reflexivity.
Qed.

Lemma sample_collected_coherent : coherent sample_collected.
Proof. apply (reachable_coherent sample_luck), sample_collected_reachable. Qed.

Lemma sample_deposited_reachable : reachable sample_luck sample_deposited.
Proof.
  apply (reach_step sample_luck sample_collected (ClickDeposit sample_key_b)
           sample_deposited).
  - exact sample_collected_reachable.
  - unfold sample_deposited. reflexivity.
Qed.

(** The sample session, evaluated once. *)
Lemma sample_session_contents :
  let g := sample_session in
  playerWallet g = [] /\
  cacheStates g
  = [(sample_key_a, List.map (mkCoin sample_cell_a) [0; 1; 2; 3; 4]);
     (sample_key_b, List.map (mkCoin sample_cell_b) [0; 1; 2])] /\
  Js.map_get sample_key_a (activeCacheRects g) = Some sample_rect_a /\
  movementHistory g = [OAKES_CLASSROOM; latLng 369895000 (-1220627000)].
Proof. vm_compute. repeat split; reflexivity. Qed.

Lemma sample_session_wallet : playerWallet sample_session = [].
Proof.
  pose proof sample_session_contents as H. cbv zeta in H.
  destruct H as [H1 [H2 [H3 H4]]]. exact H1.
Qed.

Lemma sample_session_store :
  cacheStates sample_session
  = [(sample_key_a, List.map (mkCoin sample_cell_a) [0; 1; 2; 3; 4]);
     (sample_key_b, List.map (mkCoin sample_cell_b) [0; 1; 2])].
Proof.
  pose proof sample_session_contents as H. cbv zeta in H.
  destruct H as [H1 [H2 [H3 H4]]]. exact H2.
Qed.

Lemma sample_session_rect :
  Js.map_get sample_key_a (activeCacheRects sample_session) = Some sample_rect_a.
Proof.
  pose proof sample_session_contents as H. cbv zeta in H.
  destruct H as [H1 [H2 [H3 H4]]]. exact H3.
Qed.

Lemma sample_session_history :
  movementHistory sample_session = [OAKES_CLASSROOM; latLng 369895000 (-1220627000)].
Proof.
  pose proof sample_session_contents as H. cbv zeta in H.
  destruct H as [H1 [H2 [H3 H4]]]. exact H4.
Qed.

Lemma sample_rect_coins :
  coins (popup_cache sample_rect_a)
  = (List.map (mkCoin sample_cell_a) [0; 1; 2; 3] ++ [mkCoin sample_cell_a 4])%list.
Proof. reflexivity. Qed.

(** The sample session after the collect, through [collect_fields]. *)
Lemma sample_collected_contents :
  playerWallet sample_collected = [mkCoin sample_cell_a 4] /\
  cacheStates sample_collected
  = [(sample_key_a, List.map (mkCoin sample_cell_a) [0; 1; 2; 3]);
     (sample_key_b, List.map (mkCoin sample_cell_b) [0; 1; 2])] /\
  movementHistory sample_collected
  = [OAKES_CLASSROOM; latLng 369895000 (-1220627000)] /\
  stored_snapshot sample_collected = Some (snapshot_of sample_collected).
Proof.
  unfold sample_collected.
  destruct (collect_fields sample_session sample_key_a sample_rect_a _ _
              sample_session_rect sample_rect_coins)
    as [Hw [Hs [Hh [_ [_ Hsnap]]]]].
  rewrite Hw, Hs, Hh, sample_session_wallet, sample_session_store,
    sample_session_history.
  split; [reflexivity|]. split; [reflexivity|]. split; [reflexivity|].
  exact Hsnap.
Qed.

Lemma sample_collected_wallet :
  playerWallet sample_collected = [mkCoin sample_cell_a 4].
Proof. destruct sample_collected_contents as [H1 [H2 [H3 H4]]]. exact H1. Qed.

Lemma sample_collected_store :
  cacheStates sample_collected
  = [(sample_key_a, List.map (mkCoin sample_cell_a) [0; 1; 2; 3]);
     (sample_key_b, List.map (mkCoin sample_cell_b) [0; 1; 2])].
Proof. destruct sample_collected_contents as [H1 [H2 [H3 H4]]]. exact H2. Qed.

Lemma sample_collected_history :
  movementHistory sample_collected
  = [OAKES_CLASSROOM; latLng 369895000 (-1220627000)].
Proof. destruct sample_collected_contents as [H1 [H2 [H3 H4]]]. exact H3. Qed.

Lemma sample_collected_synced :
  stored_snapshot sample_collected = Some (snapshot_of sample_collected).
Proof. destruct sample_collected_contents as [H1 [H2 [H3 H4]]]. exact H4. Qed.

(** The reset of the sample session, evaluated once. *)
Lemma sample_reset_contents :
  let g := sample_after_reset in
  resetGame sample_luck (Some "yes") sample_collected = Done g /\
  playerWallet g = [] /\
  cacheStates g
  = [(sample_key_a, List.map (mkCoin sample_cell_a) [0; 1; 2; 3]);
     (sample_key_b, List.map (mkCoin sample_cell_b) [0; 1; 2])].
Proof. vm_compute. repeat split; reflexivity. Qed.

Lemma sample_reset_done :
  handle sample_luck (ClickReset (Some "yes")) sample_collected
  = Done sample_after_reset.
Proof.
  pose proof sample_reset_contents as H. cbv zeta in H.
  destruct H as [H1 [H2 H3]]. exact H1.
Qed.

Lemma sample_reset_wallet : playerWallet sample_after_reset = [].
Proof.
  pose proof sample_reset_contents as H. cbv zeta in H.
  destruct H as [H1 [H2 H3]]. exact H2.
Qed.

Lemma sample_reset_store :
  cacheStates sample_after_reset = cacheStates sample_collected.
Proof.
  pose proof sample_reset_contents as H. cbv zeta in H.
  destruct H as [H1 [H2 H3]]. rewrite sample_collected_store. exact H3.
Qed.

(** The reset handler saves before its final refresh: on a fresh page the
    snapshot it leaves has an empty store, the session two spawned caches. *)
Lemma reset_saves_before_refresh :
  let g := sample_fresh_reset in
  handle sample_luck (ClickReset (Some "yes")) (initial None) = Done g /\
  stored_snapshot g = Some (mkSnapshot [] [] [OAKES_CLASSROOM]) /\
  Js.map_keys (cacheStates g) = [sample_key_a; sample_key_b] /\
  stored_snapshot g <> Some (snapshot_of g).
Proof.
  vm_compute. repeat split; try reflexivity. discriminate.
Qed.

(** C10. Coin identity under transfer.  Collect and deposit move coin
    values and write no field of a coin: in a coherent session the coins of
    the wallet and of all store entries are, after either handler, a
    rearrangement of the coins before, and so are their identity strings
    ["i:j#serial"].  A coin keeps its spawn cell when it is deposited
    elsewhere: in the sample session, the coin with serial 4 spawned at cell
    (369895, -1220627), collected there and deposited at cell
    (369895, -1220626), sits in the store entry of the second cell with its
    spawn location and identity unchanged. *)
Theorem coin_identity_stable_under_transfer
    (g : Game) (cellKey : string) (Hco : coherent g) :
  Permutation (all_coins (collect cellKey g)) (all_coins g) /\
  Permutation (all_coins (deposit cellKey g)) (all_coins g) /\
  Permutation (List.map serializeCoin (all_coins (collect cellKey g)))
              (List.map serializeCoin (all_coins g)) /\
  Permutation (List.map serializeCoin (all_coins (deposit cellKey g)))
              (List.map serializeCoin (all_coins g)) /\
  (reachable sample_luck sample_deposited /\
   sample_cell_a <> sample_cell_b /\
   exists entry coin,
     Js.map_get (cellToString sample_cell_b) (cacheStates sample_deposited)
       = Some entry /\
     In coin entry /\
     In coin (spawned_coins sample_luck sample_cell_a) /\
     spawnLocation coin = sample_cell_a /\
     serializeCoin coin = "369895:-1220627#4").
Proof.
  pose proof (all_coins_collect cellKey g Hco) as Hc.
  pose proof (all_coins_deposit cellKey g Hco) as Hd.
  split; [exact Hc|]. split; [exact Hd|].
  split; [now apply Permutation_map|]. split; [now apply Permutation_map|].
  split; [exact sample_deposited_reachable|]. split; [discriminate|].
  exists (List.map (mkCoin sample_cell_b) [0; 1; 2] ++ [mkCoin sample_cell_a 4])%list,
         (mkCoin sample_cell_a 4).
  split; [vm_compute; reflexivity|].
  split; [apply in_or_app; right; left; reflexivity|].
  split; [vm_compute; tauto|].
  split; reflexivity.
Qed.

(** C1 holds for collects and deposits and fails on the code once a reset
    is among the events.  From any reachable session, a run of collect and
    deposit clicks ends normally and leaves the coins of the wallet and of
    all store entries a rearrangement of what they were, so their number is
    unchanged.  But in the sample session eight coins spawn (five and
    three); collecting one keeps the total at eight; the reset then empties
    the wallet and sets every store entry to itself, so the collected coin
    is in no container any more and seven coins are left. *)
Theorem reset_discards_collected_coins
    (luck : string -> Q) (g : Game) (es : list Event)
    (Hreach : reachable luck g)
    (Hes : forall e, In e es -> exists k, e = ClickCollect k \/ e = ClickDeposit k) :
  (exists g', run luck es g = Done g' /\ reachable luck g' /\
              Permutation (all_coins g') (all_coins g) /\
              total_coins g' = total_coins g) /\
  let coin := mkCoin sample_cell_a 4 in
  cacheStates (initial None) = [] /\
  List.map (fun e => List.length (snd e)) (cacheStates sample_session) = [5%nat; 3%nat] /\
  total_coins sample_session = 8%nat /\
  reachable sample_luck sample_collected /\
  playerWallet sample_collected = [coin] /\
  total_coins sample_collected = 8%nat /\
  handle sample_luck (ClickReset (Some "yes")) sample_collected
    = Done sample_after_reset /\
  reachable sample_luck sample_after_reset /\
  playerWallet sample_after_reset = [] /\
  cacheStates sample_after_reset = cacheStates sample_collected /\
  ~ In coin (all_coins sample_after_reset) /\
  total_coins sample_after_reset = 7%nat.
Proof.
  split.
  { destruct (collect_deposit_conservation luck es g
                (reachable_coherent luck g Hreach) Hes) as [g' [Hr [_ [Hp Ht]]]].
    exists g'. split; [exact Hr|].
    split; [exact (run_reachable luck es g g' Hreach Hr)|].
    split; [exact Hp | exact Ht]. }
  intros coin.
  assert (Hall : all_coins sample_after_reset
                 = (List.map (mkCoin sample_cell_a) [0; 1; 2; 3]
                    ++ List.map (mkCoin sample_cell_b) [0; 1; 2])%list).
  { unfold all_coins.
    rewrite sample_reset_wallet, sample_reset_store, sample_collected_store.
    reflexivity. }
  split; [reflexivity|].
  split; [rewrite sample_session_store; reflexivity|].
  split.
  { unfold total_coins, all_coins.
    rewrite sample_session_wallet, sample_session_store. reflexivity. }
  split; [exact sample_collected_reachable|].
  split; [exact sample_collected_wallet|].
  split.
  { unfold total_coins, all_coins.
    rewrite sample_collected_wallet, sample_collected_store. reflexivity. }
  split; [exact sample_reset_done|].
  split.
  { apply (reach_step sample_luck sample_collected (ClickReset (Some "yes"))
             sample_after_reset).
    - exact sample_collected_reachable.
    - exact sample_reset_done. }
  split; [exact sample_reset_wallet|]. split; [exact sample_reset_store|].
  split.
  - rewrite Hall. intros H. simpl in H.
    repeat (destruct H as [H|H]; [discriminate H|]). exact H.
  - unfold total_coins. rewrite Hall. reflexivity.
Qed.

(** ** The theorems at work on the sample session *)

Lemma collect_deposit_stack_semantics_witness :
  Js.map_get sample_key_a (activeCacheRects sample_session) = Some sample_rect_a /\
  List.map serial (coins (popup_cache sample_rect_a)) = [0; 1; 2; 3; 4] /\
  List.map serial (playerWallet (collect sample_key_a sample_session)) = [4] /\
  option_map (List.map serial)
    (Js.map_get sample_key_a (cacheStates (collect sample_key_a sample_session)))
  = Some [0; 1; 2; 3] /\
  deposit sample_key_a sample_session = sample_session.
Proof.
  pose proof (collect_deposit_stack_semantics sample_luck sample_session
                sample_key_a sample_rect_a sample_session_rect) as T.
  cbv zeta in T. destruct T as [_ [_ [Hcol [_ [_ Hdep]]]]].
  destruct (Hcol _ _ sample_rect_coins) as [Hw [_ [_ [Hst _]]]].
  change (cellToString (popup_cell sample_rect_a)) with sample_key_a in Hst.
  split; [exact sample_session_rect|].
  split; [reflexivity|].
  split; [rewrite Hw, sample_session_wallet; reflexivity|].
  split; [rewrite Hst; reflexivity|].
  apply Hdep. exact sample_session_wallet.
Defined.

Lemma memento_round_trip_witness :
  let k := cellToString sample_cell_a in
  exists g2 g3 restored,
    List.map serial (coins (popup_cache sample_rect_a)) = [0; 1; 2; 3; 4] /\
    handle sample_luck (PositionUpdate 0 0) (collect k sample_session) = Done g2 /\
    in_window g2 k = false /\
    handle sample_luck (PositionUpdate 369895000 (-1220627000)) g2 = Done g3 /\
    in_window g3 k = true /\
    Js.map_get k (activeCacheRects g3) = Some restored /\
    List.map serial (coins (popup_cache restored)) = [0; 1; 2; 3].
Proof.
  intros k.
  set (g1 := collect k sample_session).
  set (g2 := positionUpdate sample_luck 0 0 g1).
  set (g3 := positionUpdate sample_luck 369895000 (-1220627000) g2).
  assert (E1 : handle sample_luck (ClickCollect k) sample_session = Done g1)
    by reflexivity.
  assert (E2 : handle sample_luck (PositionUpdate 0 0) g1 = Done g2)
    by reflexivity.
  assert (E3 : handle sample_luck (PositionUpdate 369895000 (-1220627000)) g2
               = Done g3) by reflexivity.
  assert (R1 : reachable sample_luck g1)
    by exact (reach_step sample_luck _ _ _ sample_session_reachable E1).
  assert (R2 : reachable sample_luck g2)
    by exact (reach_step sample_luck _ _ _ R1 E2).
  assert (R3 : reachable sample_luck g3)
    by exact (reach_step sample_luck _ _ _ R2 E3).
  assert (Hout : in_window g2 k = false).
  { rewrite (in_window_standard g2 _ (reachable_standard_board _ _ R2)).
    unfold g2. rewrite positionUpdate_marker. vm_compute. reflexivity. }
  assert (Hin : in_window g3 k = true).
  { rewrite (in_window_standard g3 _ (reachable_standard_board _ _ R3)).
    unfold g3. rewrite positionUpdate_marker. vm_compute. reflexivity. }
  assert (Hr : Js.map_get k (activeCacheRects sample_session) = Some sample_rect_a)
    by (change k with sample_key_a; exact sample_session_rect).
  destruct (memento_round_trip sample_luck sample_session sample_cell_a
              sample_rect_a _ _ (PositionUpdate 0 0)
              (PositionUpdate 369895000 (-1220627000)) g2 g3
              sample_session_coherent Hr sample_rect_coins
              eq_refl E2 Hout eq_refl E3 Hin)
    as [_ [_ [_ [_ [restored [Hac [_ [Hser _]]]]]]]].
  exists g2, g3, restored.
  split; [reflexivity|].
  split; [exact E2|]. split; [exact Hout|]. split; [exact E3|].
  split; [exact Hin|]. split; [exact Hac|].
  rewrite Hser. reflexivity.
Defined.

Lemma sample_luck_range key : (0 <= sample_luck key)%Q /\ (sample_luck key < 1)%Q.
Proof.
  unfold sample_luck.
  destruct (String.eqb key sample_key_a); [split; [discriminate | reflexivity]|].
  destruct (String.eqb key sample_key_b); split; (discriminate || reflexivity).
Qed.

Lemma deterministic_cache_spawning_witness :
  in_window (initial None) (cellToString sample_cell_a) = true /\
  Js.map_has (cellToString sample_cell_a) (cacheStates (initial None)) = false /\
  (sample_luck (cellToString sample_cell_a) < CACHE_SPAWN_PROBABILITY)%Q /\
  Js.map_get (cellToString sample_cell_a)
    (cacheStates (populateMap sample_luck (initial None)))
  = Some (List.map (mkCoin sample_cell_a) [0; 1; 2; 3; 4]).
Proof.
  assert (Hwin : in_window (initial None) (cellToString sample_cell_a) = true)
    by (vm_compute; reflexivity).
  assert (Hl : (sample_luck (cellToString sample_cell_a) < CACHE_SPAWN_PROBABILITY)%Q)
    by reflexivity.
  pose proof (deterministic_cache_spawning sample_luck (initial None) sample_cell_a
                sample_luck_range (initial_coherent None) Hwin) as T.
  cbv zeta in T. destruct T as [_ [Hspawn _]].
  destruct (Hspawn eq_refl Hl) as [Hst _].
  split; [exact Hwin|]. split; [reflexivity|]. split; [exact Hl|].
  rewrite Hst. reflexivity.
Defined.

Lemma reset_effect_and_frame_witness :
  confirmed (Some "YES") = true /\
  List.map serial (playerWallet sample_collected) = [4] /\
  exists g',
    handle sample_luck (ClickReset (Some "YES")) sample_collected = Done g' /\
    playerWallet g' = [] /\
    movementHistory g' = [OAKES_CLASSROOM] /\
    option_map (List.map serial) (Js.map_get sample_key_a (cacheStates g'))
    = Some [0; 1; 2; 3].
Proof.
  assert (Hk : Js.map_get sample_key_a (cacheStates sample_collected)
               = Some (List.map (mkCoin sample_cell_a) [0; 1; 2; 3]))
    by (rewrite sample_collected_store; reflexivity).
  destruct (reset_effect_and_frame sample_luck sample_collected (Some "YES")
              _ _ sample_collected_coherent eq_refl sample_collected_history)
    as [g' [Hdone [Hw [Hhist [_ [_ [_ [_ [Hkeep _]]]]]]]]].
  split; [reflexivity|].
  split; [rewrite sample_collected_wallet; reflexivity|].
  exists g'. split; [exact Hdone|]. split; [exact Hw|]. split; [exact Hhist|].
  rewrite (Hkeep _ _ Hk). reflexivity.
Defined.

Lemma persistence_round_trip_witness :
  NoDup (Js.map_keys (cacheStates sample_collected)) /\
  exists g',
    start sample_luck (localStorage (saveGameState sample_collected)) = Done g' /\
    List.map serial (playerWallet g') = [4] /\
    movementHistory g' = [OAKES_CLASSROOM; latLng 369895000 (-1220627000)] /\
    playerMarker g' = latLng 369895000 (-1220627000) /\
    option_map (List.map serial) (Js.map_get sample_key_a (cacheStates g'))
    = Some [0; 1; 2; 3].
Proof.
  destruct sample_collected_coherent as [_ [Hnd _]].
  assert (Hk : Js.map_get sample_key_a (cacheStates sample_collected)
               = Some (List.map (mkCoin sample_cell_a) [0; 1; 2; 3]))
    by (rewrite sample_collected_store; reflexivity).
  pose proof (persistence_round_trip sample_luck sample_collected Hnd) as T.
  cbv zeta in T.
  destruct T as [_ [Hstart [Hw [Hh [Hm [_ [Hkeep _]]]]]]].
  split; [exact Hnd|].
  eexists. split; [exact Hstart|].
  split; [rewrite Hw, sample_collected_wallet; reflexivity|].
  split; [rewrite Hh; exact sample_collected_history|].
  split; [rewrite Hm, sample_collected_history; reflexivity|].
  rewrite (Hkeep _ _ Hk). reflexivity.
Defined.

Lemma malformed_snapshot_escapes :
  Json.parse broken_text = Json.Err Json.SyntaxError /\
  stored_snapshot (initial (Some broken_text)) = None /\
  start sample_luck (Some broken_text)
    = Uncaught Json.SyntaxError (initial (Some broken_text)) /\
  ~ (exists g, start sample_luck (Some broken_text) = Done g).
Proof.
  split; [reflexivity|]. split; [reflexivity|]. split; [reflexivity|].
  intros [g H]. discriminate H.
Qed.

Lemma load_fallback_only_when_absent_witness :
  start sample_luck None = Done (initial None) /\
  start sample_luck (Some broken_text)
    = Uncaught Json.SyntaxError (initial (Some broken_text)).
Proof.
  destruct (load_fallback_only_when_absent sample_luck None) as [Hnone _].
  destruct (load_fallback_only_when_absent sample_luck (Some broken_text)) as [_ Hbad].
  split.
  - apply Hnone. left. reflexivity.
  - apply (Hbad broken_text eq_refl); [discriminate | reflexivity].
Defined.

Lemma movement_leaves_snapshot_stale_witness :
  stored_snapshot sample_collected = Some (snapshot_of sample_collected) /\
  stored_snapshot (clickMove sample_luck MoveUp sample_collected)
    = Some (snapshot_of sample_collected) /\
  List.length (movementHistory (clickMove sample_luck MoveUp sample_collected)) = 3%nat.
Proof.
  destruct (movement_leaves_snapshot_stale sample_luck (ClickMove MoveUp)
              sample_collected (clickMove sample_luck MoveUp sample_collected)
              eq_refl eq_refl sample_collected_synced) as [_ [Hsnap [Hlen _]]].
  split; [exact sample_collected_synced|]. split; [exact Hsnap|].
  rewrite Hlen, sample_collected_history. reflexivity.
Defined.

Lemma reset_discards_collected_coins_witness :
  reachable sample_luck sample_session /\
  exists g',
    run sample_luck [ClickCollect sample_key_a; ClickDeposit sample_key_b]
        sample_session = Done g' /\
    total_coins g' = 8%nat.
Proof.
  assert (Hes : forall e,
             In e [ClickCollect sample_key_a; ClickDeposit sample_key_b] ->
             exists k, e = ClickCollect k \/ e = ClickDeposit k).
  { intros e [<- | [<- | []]].
    - exists sample_key_a. left. reflexivity.
    - exists sample_key_b. right. reflexivity. }
  destruct (reset_discards_collected_coins sample_luck sample_session
              [ClickCollect sample_key_a; ClickDeposit sample_key_b]
              sample_session_reachable Hes) as [[g' [Hrun [_ [_ Htot]]]] _].
  split; [exact sample_session_reachable|].
  exists g'. split; [exact Hrun|].
  rewrite Htot. unfold total_coins, all_coins.
  rewrite sample_session_wallet, sample_session_store. reflexivity.
Defined.

Lemma coin_identity_stable_under_transfer_witness :
  coherent sample_collected /\
  Permutation (all_coins (deposit sample_key_b sample_collected))
              (all_coins sample_collected) /\
  List.map serializeCoin (playerWallet sample_collected) = ["369895:-1220627#4"].
Proof.
  destruct (coin_identity_stable_under_transfer sample_collected sample_key_b
              sample_collected_coherent) as [_ [Hd _]].
  split; [exact sample_collected_coherent|]. split; [exact Hd|].
  rewrite sample_collected_wallet. reflexivity.
Defined.

(** * Further properties of the board and of the session *)

(** ** Cells and the square around a point *)

Lemma count_from_In x n : forall lo,
  In x (count_from lo n) <-> lo <= x < lo + Z.of_nat n.
Proof.
  induction n as [|n IH]; intros lo; cbn [count_from In].
  - lia.
  - rewrite IH. lia.
Qed.

Lemma count_from_NoDup n : forall lo, NoDup (count_from lo n).
Proof.
  induction n as [|n IH]; intros lo; cbn [count_from]; constructor.
  - rewrite count_from_In. lia.
  - apply IH.
Qed.

Lemma offsets_In r x : In x (offsets r) <-> - r <= x <= r.
Proof. unfold offsets. rewrite count_from_In. lia. Qed.

Lemma offsets_length r : List.length (offsets r) = Z.to_nat (2 * r + 1).
Proof. apply count_from_length. Qed.

Lemma flat_map_NoDup {A B : Type} (f : A -> list B) (l : list A) :
  NoDup l -> (forall x, In x l -> NoDup (f x)) ->
  (forall x y a, In x l -> In y l -> In a (f x) -> In a (f y) -> x = y) ->
  NoDup (flat_map f l).
Proof.
  induction l as [|x l IH]; intros Hnd Hf Hdis; simpl; [constructor|].
  inversion Hnd as [|? ? Hni Hnd']; subst.
  apply NoDup_app.
  - apply Hf. now left.
  - apply IH; auto.
    + intros y Hy. apply Hf. now right.
    + intros y z a Hy Hz. apply Hdis; now right.
  - intros a Ha Hb. apply in_flat_map in Hb as [y [Hy Hay]].
    assert (x = y) by (apply (Hdis x y a); auto; [now left | now right]).
    subst y. contradiction.
Qed.

Lemma map_NoDup_on {A B : Type} (f : A -> B) (l : list A) :
  (forall x y, In x l -> In y l -> f x = f y -> x = y) ->
  NoDup l -> NoDup (List.map f l).
Proof.
  induction l as [|x l IH]; intros Hinj Hnd; simpl; [constructor|].
  inversion Hnd as [|? ? Hni Hnd']; subst. constructor.
  - intros Hin. apply in_map_iff in Hin as [y [E Hy]].
    assert (y = x) by (apply Hinj; auto; [now right | now left]).
    subst y. contradiction.
  - apply IH; auto. intros a b Ha Hb. apply Hinj; now right.
Qed.

Lemma flat_map_length_const {A B : Type} (f : A -> list B) (l : list A) m :
  (forall x, List.length (f x) = m) ->
  List.length (flat_map f l) = (List.length l * m)%nat.
Proof.
  intros H. induction l as [|x l IH]; simpl; auto.
  now rewrite List.length_app, H, IH.
Qed.

Lemma near_cells_In tw r p c :
  In c (near_cells tw r p) <->
  lat p / tw - r <= i c <= lat p / tw + r /\
  lng p / tw - r <= j c <= lng p / tw + r.
Proof.
  unfold near_cells. rewrite in_flat_map. split.
  - intros [di [Hdi Hc]]. apply in_map_iff in Hc as [dj [<- Hdj]].
    apply offsets_In in Hdi, Hdj. simpl. lia.
  - intros [Hi Hj]. exists (i c - lat p / tw). split.
    + apply offsets_In. lia.
    + apply in_map_iff. exists (j c - lng p / tw). split.
      * destruct c as [ci cj]. simpl. f_equal; lia.
      * apply offsets_In. simpl in *. lia.
Qed.

Lemma near_cells_NoDup tw r p : NoDup (near_cells tw r p).
Proof.
  unfold near_cells. apply flat_map_NoDup.
  - apply count_from_NoDup.
  - intros di _. apply map_NoDup_on; [|apply count_from_NoDup].
    intros a b _ _ [= E]. lia.
  - intros x y a _ _ Hx Hy.
    apply in_map_iff in Hx as [dj [<- _]]. apply in_map_iff in Hy as [dj' [[= E _] _]].
    lia.
Qed.

Lemma near_cells_length tw r p :
  List.length (near_cells tw r p) = (Z.to_nat (2 * r + 1) * Z.to_nat (2 * r + 1))%nat.
Proof.
  unfold near_cells. rewrite (flat_map_length_const _ _ (Z.to_nat (2 * r + 1))).
  - now rewrite offsets_length.
  - intros x. now rewrite List.length_map, offsets_length.
Qed.

Lemma getCanonicalCell_filed c b :
  board_ok b ->
  forall o b', getCanonicalCell c b = (o, b') ->
  cell_of o = c /\ board_ok b' /\
  Js.map_get (knownKey c) (knownCells b') = Some o /\
  (forall k o', Js.map_get k (knownCells b) = Some o' ->
                Js.map_get k (knownCells b') = Some o') /\
  tileWidth b' = tileWidth b /\
  tileVisibilityRadius b' = tileVisibilityRadius b.
Proof.
  intros Hok o b' E.
  pose proof (getCanonicalCell_ok c b Hok) as H1.
  pose proof (getCanonicalCell_cached c b) as H2.
  rewrite E in H1, H2. tauto.
Qed.

(** Every object [canonicalize_all] returns is the one filed on the board it
    leaves. *)
Lemma canonicalize_all_filed cs : forall b os b',
  board_ok b -> canonicalize_all cs b = (os, b') ->
  forall o, In o os -> Js.map_get (knownKey (cell_of o)) (knownCells b') = Some o.
Proof.
  induction cs as [|c cs IH]; intros b os b' Hok E o Hin; simpl in E.
  - injection E as <- <-. destruct Hin.
  - destruct (getCanonicalCell c b) as [o1 b1] eqn:E1.
    destruct (canonicalize_all cs b1) as [os2 b2] eqn:E2.
    injection E as <- <-.
    destruct (getCanonicalCell_filed c b Hok o1 b1 E1) as [Hc [Hok1 [Hget _]]].
    destruct Hin as [<- | Hin].
    + pose proof (canonicalize_all_cached cs b1) as H. rewrite E2 in H.
      destruct H as [H _]. apply H. now rewrite Hc.
    + now apply (IH b1 os2 b2 Hok1 E2).
Qed.

(** ** One object per cell *)

Lemma newBoard_sound tw r : board_sound (newBoard tw r).
Proof.
  split; [apply newBoard_ok|]. split; [constructor | reflexivity].
Qed.

Lemma getCanonicalCell_sound c b :
  board_sound b ->
  forall o b', getCanonicalCell c b = (o, b') -> board_sound b'.
Proof.
  intros [Hok [Hnd Hid]] o b' E.
  destruct (Js.map_has (knownKey c) (knownCells b)) eqn:Hk.
  - destruct (getCanonicalCell_known c b Hk) as [o1 [_ E1]].
    rewrite E1 in E. injection E as <- <-.
    split; [exact Hok|]. split; [exact Hnd | exact Hid].
  - rewrite (getCanonicalCell_fresh c b Hk) in E. injection E as <- <-.
    split.
    { pose proof (getCanonicalCell_ok c b Hok) as H.
      rewrite (getCanonicalCell_fresh c b Hk) in H. apply H. }
    cbn [knownCells allocated]. split.
    + unfold Js.map_keys. rewrite List.map_app. cbn [List.map fst].
      apply NoDup_app; [exact Hnd | repeat constructor; intros [] |].
      intros k Hin [<- | []].
      apply map_has_keys in Hin. congruence.
    + rewrite List.map_app, Hid, List.seq_S. reflexivity.
Qed.

Lemma canonicalize_all_sound cs : forall b os b',
  board_sound b -> canonicalize_all cs b = (os, b') -> board_sound b'.
Proof.
  induction cs as [|c cs IH]; intros b os b' Hs E; simpl in E.
  - now injection E as <- <-.
  - destruct (getCanonicalCell c b) as [o1 b1] eqn:E1.
    destruct (canonicalize_all cs b1) as [os2 b2] eqn:E2.
    injection E as <- <-.
    apply (IH b1 os2 b2); [|exact E2].
    exact (getCanonicalCell_sound c b Hs o1 b1 E1).
Qed.

Lemma NoDup_map_In_eq {A B : Type} (f : A -> B) (l : list A) x y :
  NoDup (List.map f l) -> In x l -> In y l -> f x = f y -> x = y.
Proof.
  induction l as [|a l IH]; intros Hnd Hx Hy E; [destruct Hx|].
  simpl in Hnd. inversion Hnd as [|? ? Hni Hnd']; subst.
  destruct Hx as [<- | Hx], Hy as [<- | Hy]; auto.
  - exfalso. apply Hni. rewrite E. now apply in_map.
  - exfalso. apply Hni. rewrite <- E. now apply in_map.
Qed.

(** The keys on the board after a call are those before and the key asked
    for. *)
Lemma getCanonicalCell_keys c b c' :
  Js.map_has (knownKey c') (knownCells (snd (getCanonicalCell c b))) = true <->
  Js.map_has (knownKey c') (knownCells b) = true \/ c' = c.
Proof.
  destruct (Js.map_has (knownKey c) (knownCells b)) eqn:E.
  - destruct (getCanonicalCell_known c b E) as [o [_ ->]]. cbn [snd].
    split; [now left | intros [H | ->]; assumption].
  - rewrite (getCanonicalCell_fresh c b E). cbn [snd knownCells].
    apply map_has_false in E. rewrite <- (map_set_absent _ _ _ E).
    unfold Js.map_has.
    destruct (string_dec (knownKey c') (knownKey c)) as [K | K].
    + rewrite K, map_get_set_same. split; [intros _; right | reflexivity].
      now apply knownKey_inj.
    + rewrite map_get_set_other by congruence.
      split; [now left | intros [H | ->]; [exact H | congruence]].
Qed.

Lemma canonicalize_all_keys cs : forall b c',
  Js.map_has (knownKey c') (knownCells (snd (canonicalize_all cs b))) = true <->
  Js.map_has (knownKey c') (knownCells b) = true \/ In c' cs.
Proof.
  induction cs as [|c cs IH]; intros b c'; simpl.
  - tauto.
  - pose proof (getCanonicalCell_keys c b c') as H1.
    destruct (getCanonicalCell c b) as [o b1]. cbn [snd] in H1.
    specialize (IH b1 c').
    destruct (canonicalize_all cs b1) as [os b2]. cbn [snd] in IH |- *.
    rewrite IH, H1. intuition congruence.
Qed.

(** C3. Cell canonicalization.  Whatever the board has cached, a call of the
    canonicalizer for the pair (i, j) and any later call for the same pair,
    with any canonicalizations of other or the same cells in between, return
    the same object (same identity, same fields) and the later call leaves the
    board as it finds it.  When the key of the pair is not yet in
    [knownCells], the call allocates one new object for [{ i, j }] and files
    it under that key; when the key is there, nothing is allocated.  The key
    is the string encoding [[i, j].toString()], the two integers in decimal
    with a comma between, and two pairs have the same key only if they are
    the same pair.  On a board whose entries are filed under the keys of
    their cells, the object returned holds the pair asked for, and a later
    call for a pair returns this object exactly when it is the same pair; on
    a board built by the canonicalizer the identities tell the pairs apart as
    well.  On the board a program has after any sequence of calls from the
    empty board, the key of the pair is there exactly when the pair was asked
    for before: the first call for a pair is the one that allocates. *)
Theorem canonical_cell_same_reference (c : Cell) (b : Board) (between : list Cell) :
  let (first, b1) := getCanonicalCell c b in
  let (_, b2) := canonicalize_all between b1 in
  let (again, b3) := getCanonicalCell c b2 in
  again = first /\ ident again = ident first /\ b3 = b2 /\
  Js.map_get (knownKey c) (knownCells b1) = Some first /\
  (Js.map_has (knownKey c) (knownCells b) = false ->
     first = mkCellObj (allocated b) c /\
     knownCells b1 = (knownCells b ++ [(knownKey c, first)])%list /\
     allocated b1 = S (allocated b)) /\
  (Js.map_has (knownKey c) (knownCells b) = true ->
     Js.map_get (knownKey c) (knownCells b) = Some first /\ b1 = b) /\
  knownKey c = Js.string_of_Z (i c) ++ "," ++ Js.string_of_Z (j c) /\
  (forall c', knownKey c' = knownKey c <-> c' = c) /\
  (board_ok b ->
     cell_of first = c /\
     forall c', let (other, _) := getCanonicalCell c' b2 in
                cell_of other = c' /\ (other = first <-> c' = c)) /\
  (board_sound b ->
     board_sound b2 /\
     forall c', let (other, _) := getCanonicalCell c' b2 in
                ident other = ident first <-> c' = c) /\
  (forall tw r before,
     b = snd (canonicalize_all before (newBoard tw r)) ->
     board_sound b /\
     (Js.map_has (knownKey c) (knownCells b) = true <-> In c before)).
Proof.
  pose proof (getCanonicalCell_cached c b) as H1.
  pose proof (getCanonicalCell_fresh c b) as Hf.
  pose proof (getCanonicalCell_known c b) as Hk.
  pose proof (fun Hok => getCanonicalCell_filed c b Hok) as Hfiled.
  pose proof (fun Hs => getCanonicalCell_sound c b Hs) as Hsound.
  destruct (getCanonicalCell c b) as [first b1].
  destruct H1 as [H1 _].
  pose proof (canonicalize_all_cached between b1) as H2.
  pose proof (fun Hok => canonicalize_all_ok between b1 Hok) as Hok2.
  pose proof (canonicalize_all_sound between b1) as Hs2.
  destruct (canonicalize_all between b1) as [os b2].
  destruct H2 as [H2 _]. apply H2 in H1 as H3.
  assert (Hhas : Js.map_has (knownKey c) (knownCells b2) = true)
    by (apply map_has_true; eauto).
  destruct (getCanonicalCell_known c b2 Hhas) as [o [Ho Hagain]].
  rewrite Hagain.
  assert (o = first) by congruence. subst o.
  assert (Hfirst : forall c', board_ok b ->
            let (other, _) := getCanonicalCell c' b2 in
            cell_of first = c /\ cell_of other = c' /\ (c' = c -> other = first)).
  { intros c' Hok.
    destruct (Hfiled Hok first b1 eq_refl) as [Hc [Hok1 _]].
    destruct (Hok2 Hok1) as [_ Hokb2].
    pose proof (getCanonicalCell_ok c' b2 Hokb2) as Hc'.
    destruct (getCanonicalCell c' b2) as [other b4] eqn:E4.
    destruct Hc' as [Hc' _].
    split; [exact Hc|]. split; [exact Hc'|].
    intros ->. rewrite Hagain in E4. now injection E4. }
  split; [reflexivity|]. split; [reflexivity|]. split; [reflexivity|].
  split; [exact H1|].
  split; [|split; [|split; [|split; [|split; [|split]]]]].
  - intros H. apply Hf in H. injection H as E1 E2. subst. repeat split.
  - intros H. apply Hk in H. destruct H as [o' [Ho' E]].
    injection E as E1 E2. subst. auto.
  - reflexivity.
  - intros c'. split; [apply knownKey_inj | now intros ->].
  - intros Hok. split.
    + specialize (Hfirst c Hok). destruct (getCanonicalCell c b2). tauto.
    + intros c'. specialize (Hfirst c' Hok).
      destruct (getCanonicalCell c' b2) as [other b4].
      destruct Hfirst as [Hc [Hc' Hsame]].
      split; [exact Hc'|]. split; [congruence | exact Hsame].
  - intros Hs.
    pose proof (Hsound Hs first b1 eq_refl) as Hs1.
    pose proof (Hs2 os b2 Hs1 eq_refl) as Hsb2.
    split; [exact Hsb2|].
    intros c'. destruct Hs as [Hok _].
    specialize (Hfirst c' Hok).
    pose proof Hsb2 as [Hokb2 [_ Hid]].
    pose proof (getCanonicalCell_filed c' b2 Hokb2) as G.
    destruct (getCanonicalCell c' b2) as [other b4] eqn:E4.
    destruct Hfirst as [Hc [Hc' Hsame]].
    split; [|intros E; now rewrite (Hsame E)].
    intros E.
    destruct (Js.map_has (knownKey c') (knownCells b2)) eqn:Hk'.
    + destruct (getCanonicalCell_known c' b2 Hk') as [o' [Ho' E']].
      rewrite E4 in E'. injection E' as <- _.
      apply map_get_In in Ho, Ho'.
      assert (Hnd : NoDup (List.map (fun entry : string * CellObj => ident (snd entry))
                             (knownCells b2)))
        by (rewrite Hid; apply List.seq_NoDup).
      pose proof (NoDup_map_In_eq _ _ _ _ Hnd Ho' Ho E) as H.
      injection H as _ H. congruence.
    + rewrite (getCanonicalCell_fresh c' b2 Hk') in E4. injection E4 as <- _.
      cbn [ident] in E. exfalso.
      apply map_get_In in Ho. destruct (Hokb2 _ _ Ho) as [_ Hlt]. lia.
  - intros tw r before ->.
    split.
    + destruct (canonicalize_all before (newBoard tw r)) as [os0 b0] eqn:E0.
      exact (canonicalize_all_sound before _ os0 b0 (newBoard_sound tw r) E0).
    + rewrite canonicalize_all_keys. cbn [knownCells newBoard Js.map_has Js.map_get].
      split; [intros [H | H]; [discriminate H | exact H] | now right].
Qed.

Lemma canonical_cell_same_reference_witness :
  let b := newBoard TILE_DEGREES NEIGHBORHOOD_SIZE in
  let first := fst (getCanonicalCell (mkCell 5 7) b) in
  let b2 := snd (canonicalize_all [mkCell 0 0; mkCell 5 7]
                   (snd (getCanonicalCell (mkCell 5 7) b))) in
  board_sound b /\
  first = mkCellObj 0 (mkCell 5 7) /\
  fst (getCanonicalCell (mkCell 5 7) b2) = first /\
  fst (getCanonicalCell (mkCell 0 0) b2) <> first /\
  ident (fst (getCanonicalCell (mkCell 0 0) b2)) <> ident first.
Proof.
  cbv zeta.
  pose proof (canonical_cell_same_reference (mkCell 5 7)
                (newBoard TILE_DEGREES NEIGHBORHOOD_SIZE)
                [mkCell 0 0; mkCell 5 7]) as H.
  destruct (getCanonicalCell (mkCell 5 7) (newBoard TILE_DEGREES NEIGHBORHOOD_SIZE))
    as [first b1] eqn:E1.
  cbn [fst snd].
  destruct (canonicalize_all [mkCell 0 0; mkCell 5 7] b1) as [os b2] eqn:E2.
  cbn [fst snd].
  destruct (getCanonicalCell (mkCell 5 7) b2) as [again b3] eqn:E3.
  destruct H as [Hsame [_ [_ [_ [Hfresh [_ [_ [_ [Hok [Hs _]]]]]]]]]].
  destruct (Hfresh eq_refl) as [Hfirst _].
  destruct (Hok (newBoard_ok _ _)) as [_ Hother].
  destruct (Hs (newBoard_sound _ _)) as [_ Hident].
  specialize (Hother (mkCell 0 0)). specialize (Hident (mkCell 0 0)).
  cbn [fst snd].
  destruct (getCanonicalCell (mkCell 0 0) b2) as [other b4].
  cbn [fst].
  split; [apply newBoard_sound|]. split; [exact Hfirst|]. split; [exact Hsame|].
  split.
  - intros E. apply Hother in E. discriminate E.
  - intros E. apply Hident in E. discriminate E.
Defined.

(** X2. The canonicalizer tells cells apart.  On a board built by the
    canonicalizer, the objects returned for two cells are the same object
    exactly when the two cells have the same [i] and [j]: one object per
    cell, never one object for two cells.  The board stays well formed, and
    it has allocated exactly as many objects as it has entries. *)
Theorem canonical_objects_tell_cells_apart
    (c1 c2 : Cell) (b : Board) (Hs : board_sound b) :
  let (o1, b1) := getCanonicalCell c1 b in
  let (o2, b2) := getCanonicalCell c2 b1 in
  (ident o1 = ident o2 <-> c1 = c2) /\
  (o1 = o2 <-> c1 = c2) /\
  board_sound b2 /\
  allocated b2 = List.length (knownCells b2).
Proof.
  destruct (getCanonicalCell c1 b) as [o1 b1] eqn:E1.
  destruct (getCanonicalCell c2 b1) as [o2 b2] eqn:E2.
  pose proof (getCanonicalCell_sound c1 b Hs o1 b1 E1) as Hs1.
  pose proof (getCanonicalCell_sound c2 b1 Hs1 o2 b2 E2) as Hs2.
  destruct Hs as [Hok _]. pose proof Hs1 as [Hok1 _].
  destruct (getCanonicalCell_filed c1 b Hok o1 b1 E1) as [Hc1 [_ [G1 _]]].
  destruct (getCanonicalCell_filed c2 b1 Hok1 o2 b2 E2) as [Hc2 [_ [G2 [Keep _]]]].
  apply Keep in G1.
  pose proof Hs2 as [_ [_ Hid]].
  assert (Hsame : ident o1 = ident o2 -> o1 = o2).
  { intros E. apply map_get_In in G1, G2.
    assert (Hnd : NoDup (List.map (fun entry : string * CellObj => ident (snd entry))
                           (knownCells b2)))
      by (rewrite Hid; apply List.seq_NoDup).
    pose proof (NoDup_map_In_eq _ _ _ _ Hnd G1 G2 E) as H.
    now injection H. }
  assert (Hcell : c1 = c2 -> o1 = o2) by (intros <-; congruence).
  split; [|split; [|split]].
  - split; [intros E; apply Hsame in E; congruence | intros E; now rewrite (Hcell E)].
  - split; [congruence | exact Hcell].
  - exact Hs2.
  - apply (f_equal (@List.length nat)) in Hid.
    rewrite List.length_map, List.length_seq in Hid. now symmetry.
Qed.

Lemma canonical_objects_tell_cells_apart_witness :
  let b := newBoard TILE_DEGREES NEIGHBORHOOD_SIZE in
  let first := getCanonicalCell (mkCell 0 0) b in
  let second := getCanonicalCell (mkCell 0 1) (snd first) in
  board_sound b /\
  ident (fst first) <> ident (fst second) /\
  allocated (snd second) = 2%nat.
Proof.
  pose proof (canonical_objects_tell_cells_apart (mkCell 0 0) (mkCell 0 1)
                (newBoard TILE_DEGREES NEIGHBORHOOD_SIZE) (newBoard_sound _ _)) as H.
  vm_compute in H. destruct H as [H1 _].
  split; [apply newBoard_sound|].
  split; [|reflexivity].
  vm_compute. intros E. apply H1 in E. discriminate E.
Defined.

(** X3. The cells near a point are the square around its cell.  On a well
    formed board with a non-zero tile width, [getCellsNearPoint] returns,
    row after row and without repetition, the cells whose [i] and [j] are
    each within the visibility radius of those of the point's cell:
    (2r+1) times (2r+1) of them, none for a negative radius.  Every object
    returned is the canonical one filed on the board afterwards, and cells
    the board knew before are still filed as they were. *)
Theorem cells_near_point_form_the_square
    (p : LatLng) (b : Board) (Hok : board_ok b) (Htw : tileWidth b <> 0) :
  let r := tileVisibilityRadius b in
  let i0 := lat p / tileWidth b in
  let j0 := lng p / tileWidth b in
  let (cells, b') := getCellsNearPoint p b in
  List.length cells = (Z.to_nat (2 * r + 1) * Z.to_nat (2 * r + 1))%nat /\
  NoDup (List.map cell_of cells) /\
  (forall c, In c (List.map cell_of cells) <->
             i0 - r <= i c <= i0 + r /\ j0 - r <= j c <= j0 + r) /\
  List.map cell_of cells
  = flat_map (fun di => List.map (fun dj => mkCell (i0 + di) (j0 + dj)) (offsets r))
             (offsets r) /\
  (r < 0 -> cells = []) /\
  (forall o, In o cells ->
     Js.map_get (knownKey (cell_of o)) (knownCells b') = Some o) /\
  (forall k o, Js.map_get k (knownCells b) = Some o ->
     Js.map_get k (knownCells b') = Some o).
Proof.
  intros r i0 j0.
  pose proof (getCellsNearPoint_ok p b Hok) as H.
  destruct (getCellsNearPoint p b) as [cells b'] eqn:E.
  destruct H as [Hcells _].
  assert (Hlen : List.length cells
                 = (Z.to_nat (2 * r + 1) * Z.to_nat (2 * r + 1))%nat).
  { rewrite <- (List.length_map cell_of), Hcells. apply near_cells_length. }
  split; [exact Hlen|].
  split; [rewrite Hcells; apply near_cells_NoDup|].
  split; [intros c; rewrite Hcells; apply near_cells_In|].
  split; [exact Hcells|].
  split.
  { intros Hneg. destruct cells as [|o os]; [reflexivity|].
    replace (Z.to_nat (2 * r + 1)) with 0%nat in Hlen by lia.
    simpl in Hlen. discriminate Hlen. }
  unfold getCellsNearPoint, getCellForPoint in E.
  destruct (getCanonicalCell _ b) as [o0 b0] eqn:E0.
  destruct (getCanonicalCell_filed _ b Hok o0 b0 E0) as [_ [Hok0 [_ [Keep0 _]]]].
  split.
  - intros o Ho. exact (canonicalize_all_filed _ b0 cells b' Hok0 E o Ho).
  - intros k o Hk. apply Keep0 in Hk.
    pose proof (canonicalize_all_cached
                  (flat_map (fun di => List.map
                     (fun dj => mkCell (i (cell_of o0) + di) (j (cell_of o0) + dj))
                     (offsets (tileVisibilityRadius b))) (offsets (tileVisibilityRadius b)))
                  b0) as Hc.
    rewrite E in Hc. destruct Hc as [Hc _]. now apply Hc.
Qed.

Lemma cells_near_point_form_the_square_witness :
  List.length (fst (getCellsNearPoint OAKES_CLASSROOM
                      (newBoard TILE_DEGREES NEIGHBORHOOD_SIZE))) = 289%nat.
Proof.
  pose proof (cells_near_point_form_the_square OAKES_CLASSROOM
                (newBoard TILE_DEGREES NEIGHBORHOOD_SIZE) (newBoard_ok _ _)) as H.
  cbv zeta in H.
  destruct (getCellsNearPoint OAKES_CLASSROOM (newBoard TILE_DEGREES NEIGHBORHOOD_SIZE))
    as [cells b'].
  destruct H as [H _]; [discriminate|]. exact H.
Defined.

(** ** Keys and identity strings *)

Lemma serializeCoin_read coin :
  exists rest1 rest2,
    Js.read_int (serializeCoin coin) = Some (i (spawnLocation coin), String ":" rest1) /\
    Js.read_int rest1 = Some (j (spawnLocation coin), String "#" rest2) /\
    Js.read_int rest2 = Some (serial coin, EmptyString).
Proof.
  exists (Js.string_of_Z (j (spawnLocation coin)) ++ "#" ++ Js.string_of_Z (serial coin)),
         (Js.string_of_Z (serial coin)).
  unfold serializeCoin. split; [|split].
  - now rewrite read_int_string_of_Z.
  - now rewrite read_int_string_of_Z.
  - rewrite <- (string_app_nil_r (Js.string_of_Z (serial coin))).
    now rewrite read_int_string_of_Z.
Qed.

Lemma serializeCoin_inj coin coin' :
  serializeCoin coin = serializeCoin coin' -> coin = coin'.
Proof.
  intros E.
  destruct (serializeCoin_read coin) as [a [b [H1 [H2 H3]]]].
  destruct (serializeCoin_read coin') as [a' [b' [H1' [H2' H3']]]].
  rewrite E, H1' in H1. injection H1 as Hi <-.
  rewrite H2' in H2. injection H2 as Hj <-.
  rewrite H3' in H3. injection H3 as Hs.
  destruct coin as [[ci cj] s], coin' as [[ci' cj'] s']. simpl in *. congruence.
Qed.

(** X4. Keys and identity strings are faithful.  Two cells have the same
    store key ["i:j"] only if they are the same cell, the same
    [knownCells] key ["i,j"] only if they are the same cell, and two coins
    have the same identity string ["i:j#serial"] only if they have the same
    spawn cell and the same serial: no two cells share a map entry and no
    two coins share an identity.  The identity of a coin is the key of its
    spawn cell followed by ["#"] and its serial. *)
Theorem keys_and_identities_are_faithful (c c' : Cell) (coin coin' : Coin) :
  (cellToString c = cellToString c' <-> c = c') /\
  (knownKey c = knownKey c' <-> c = c') /\
  (serializeCoin coin = serializeCoin coin' <-> coin = coin') /\
  serializeCoin coin
  = cellToString (spawnLocation coin) ++ "#" ++ Js.string_of_Z (serial coin).
Proof.
  split; [split; [apply cellToString_inj | now intros ->]|].
  split; [split; [apply knownKey_inj | now intros ->]|].
  split; [split; [apply serializeCoin_inj | now intros ->]|].
  unfold serializeCoin, cellToString. now rewrite !string_app_assoc.
Qed.

(** ** The cache factory *)

Lemma count_from_serials lo n :
  List.map serial (List.map (fun s => mkCoin lo s) n) = n.
Proof. rewrite List.map_map. simpl. apply List.map_id. Qed.

(** X5. What the cache factory makes.  [createNewCache cell n] is located
    at [cell] and holds exactly the coins with spawn location [cell] and
    serials 0, 1, ..., n-1, in that order; its [serialNumber] is the number
    of coins made.  For [n] zero or negative it holds no coin.  The identity
    strings of its coins are pairwise distinct. *)
Theorem new_cache_holds_numbered_coins (cell : Cell) (numCoins : Z) :
  let cache := createNewCache cell numCoins in
  location cache = cell /\
  List.map serial (coins cache) = count_from 0 (Z.to_nat numCoins) /\
  (forall coin, In coin (coins cache) <->
     spawnLocation coin = cell /\ 0 <= serial coin < numCoins) /\
  List.length (coins cache) = Z.to_nat numCoins /\
  serialNumber cache = Z.max 0 numCoins /\
  (numCoins <= 0 -> coins cache = []) /\
  NoDup (coins cache) /\
  NoDup (List.map serializeCoin (coins cache)).
Proof.
  intros cache. subst cache. unfold createNewCache. cbn [location coins serialNumber].
  assert (Hnd : NoDup (List.map (fun s => mkCoin cell s) (count_from 0 (Z.to_nat numCoins)))).
  { apply map_NoDup_on; [|apply count_from_NoDup]. now intros x y _ _ [= E]. }
  split; [reflexivity|].
  split; [apply count_from_serials|].
  split.
  { intros coin. rewrite in_map_iff. split.
    - intros [s [<- Hs]]. apply count_from_In in Hs. split; [reflexivity | simpl; lia].
    - intros [Hc Hs]. exists (serial coin). split.
      + destruct coin. simpl in *. now subst.
      + apply count_from_In. lia. }
  split; [now rewrite List.length_map, count_from_length|].
  split; [rewrite count_from_length; lia|].
  split.
  { intros Hn. replace (Z.to_nat numCoins) with 0%nat by lia. reflexivity. }
  split; [exact Hnd|].
  apply map_NoDup_on; [|exact Hnd].
  intros x y _ _. apply serializeCoin_inj.
Qed.

(** ** The visibility window *)

Lemma set_add_fresh k s : ~ In k s -> Js.set_add k s = (s ++ [k])%list.
Proof.
  intros H. unfold Js.set_add.
  destruct (Js.set_has k s) eqn:E; [|reflexivity].
  apply set_has_In in E. contradiction.
Qed.

Lemma fold_set_add_exact {A : Type} (f : A -> string) l : forall s,
  NoDup (s ++ List.map f l) ->
  fold_left (fun acc x => Js.set_add (f x) acc) l s = (s ++ List.map f l)%list.
Proof.
  induction l as [|x l IH]; intros s Hnd; simpl.
  - now rewrite List.app_nil_r.
  - simpl in Hnd. rewrite set_add_fresh.
    + rewrite IH; rewrite <- List.app_assoc; [reflexivity | exact Hnd].
    + apply NoDup_remove_2 in Hnd. intros Hin. apply Hnd.
      apply in_or_app. now left.
Qed.

Lemma window_keys_NoDup tw r p :
  NoDup (List.map cellToString (near_cells tw r p)).
Proof.
  apply map_NoDup_on; [|apply near_cells_NoDup].
  intros x y _ _. apply cellToString_inj.
Qed.

Lemma getVisibleCells_exact p b :
  board_ok b ->
  forall keys b', getVisibleCells p b = (keys, b') ->
  keys = List.map cellToString (near_cells (tileWidth b) (tileVisibilityRadius b) p) /\
  b' = snd (getCellsNearPoint p b).
Proof.
  intros Hok keys b' E. unfold getVisibleCells in E.
  pose proof (getCellsNearPoint_ok p b Hok) as H.
  destruct (getCellsNearPoint p b) as [os b1]. destruct H as [H _].
  injection E as <- <-. split; [|reflexivity].
  rewrite (fold_set_add_exact (fun o => cellToString (cell_of o))).
  - simpl. now rewrite <- H, List.map_map.
  - simpl. rewrite <- (List.map_map cell_of cellToString), H.
    apply window_keys_NoDup.
Qed.

(** X6. The set of visible keys loses nothing.  On a well formed board
    with a non-zero tile width, [getVisibleCells] returns the keys ["i:j"] of
    the cells of the square around the point, row after row, each key once:
    the [Set] drops no cell as a duplicate, so it has (2r+1) times (2r+1)
    keys (289 with the radius 8 of the game), and a key is in it exactly
    when its cell is within the radius of the point's cell in both
    directions. *)
Theorem visible_keys_are_the_keys_of_the_square
    (p : LatLng) (b : Board) (Hok : board_ok b) (Htw : tileWidth b <> 0) :
  let r := tileVisibilityRadius b in
  let (keys, b') := getVisibleCells p b in
  keys = List.map cellToString (near_cells (tileWidth b) r p) /\
  NoDup keys /\
  List.length keys = (Z.to_nat (2 * r + 1) * Z.to_nat (2 * r + 1))%nat /\
  (r = NEIGHBORHOOD_SIZE -> List.length keys = 289%nat) /\
  (forall c, Js.set_has (cellToString c) keys = true <->
     lat p / tileWidth b - r <= i c <= lat p / tileWidth b + r /\
     lng p / tileWidth b - r <= j c <= lng p / tileWidth b + r) /\
  board_ok b'.
Proof.
  intros r.
  pose proof (getVisibleCells_spec p b Hok) as Hs.
  destruct (getVisibleCells p b) as [keys b'] eqn:E.
  destruct (getVisibleCells_exact p b Hok keys b' E) as [Hk _].
  destruct Hs as [_ [_ [Hok' _]]].
  assert (Hlen : List.length keys
                 = (Z.to_nat (2 * r + 1) * Z.to_nat (2 * r + 1))%nat).
  { rewrite Hk, List.length_map. apply near_cells_length. }
  split; [exact Hk|].
  split; [rewrite Hk; apply window_keys_NoDup|].
  split; [exact Hlen|].
  split; [intros Hr; rewrite Hlen, Hr; reflexivity|].
  split; [|exact Hok'].
  intros c. rewrite set_has_In, Hk, in_map_iff. split.
  - intros [c' [E' Hc']]. apply cellToString_inj in E'. subst c'.
    now apply near_cells_In.
  - intros H. exists c. split; [reflexivity|]. now apply near_cells_In.
Qed.

Lemma visible_keys_are_the_keys_of_the_square_witness :
  List.length (fst (getVisibleCells OAKES_CLASSROOM
                      (newBoard TILE_DEGREES NEIGHBORHOOD_SIZE))) = 289%nat.
Proof.
  pose proof (visible_keys_are_the_keys_of_the_square OAKES_CLASSROOM
                (newBoard TILE_DEGREES NEIGHBORHOOD_SIZE) (newBoard_ok _ _)) as H.
  cbv zeta in H.
  destruct (getVisibleCells OAKES_CLASSROOM (newBoard TILE_DEGREES NEIGHBORHOOD_SIZE))
    as [keys b'].
  destruct H as [_ [_ [_ [H _]]]]; [discriminate|]. apply H. reflexivity.
Defined.

(** ** How a session comes about *)

(** The page load either leaves the initial values or refreshes a session
    rebuilt from the snapshot. *)
Lemma start_cases luck stored g :
  start luck stored = Done g ->
  g = initial stored \/
  exists snap,
    stored_snapshot (initial stored) = Some snap /\
    g = populateMap luck (rebuilt_from snap stored).
Proof.
  unfold start, loadGameState, stored_snapshot. cbn [initial localStorage].
  destruct stored as [[|ch text]|]; try (intros [= <-]; now left).
  destruct (Json.parse (String ch text)) as [doc|[|]]; try discriminate.
  destruct (decode_state doc) as [snap|]; [|discriminate].
  intros [= <-]. right. exists snap. split; [reflexivity|].
  unfold rebuilt_from, with_movementHistory, with_cacheStates, with_playerWallet, with_playerMarker.
  cbn [board playerWallet cacheStates activeCacheRects playerMarker movementHistory
       localStorage].
  rewrite <- (rev_head_last (snap_history snap) OAKES_CLASSROOM).
  destruct (List.rev (snap_history snap)); reflexivity.
Qed.

Lemma rebuilt_from_coherent snap stored : coherent (rebuilt_from snap stored).
Proof.
  unfold coherent, rebuilt_from. cbn [board cacheStates activeCacheRects].
  split; [apply newBoard_ok|]. split; [apply fold_set_NoDup; constructor|].
  split; [constructor|]. intros k r [].
Qed.

Lemma after_move_coherent p g : coherent g -> coherent (after_move p g).
Proof.
  intros H. unfold after_move.
  now apply coherent_with_movementHistory, coherent_with_playerMarker.
Qed.

Lemma after_clear_coherent first g : coherent g -> coherent (after_clear first g).
Proof.
  intros [Hok [Hnd1 _]]. unfold after_clear, saveGameState.
  apply coherent_with_localStorage. unfold coherent.
  cbn [board cacheStates activeCacheRects].
  split; [exact Hok|]. split; [exact Hnd1|]. split; [constructor|]. intros k r [].
Qed.

(** What a handler that ends normally has done. *)
Lemma handle_cases luck e g g' :
  coherent g -> handle luck e g = Done g' ->
  (exists p, is_movement e = true /\ g' = populateMap luck (after_move p g)) \/
  (exists first rest,
     movementHistory g = first :: rest /\
     g' = populateMap luck (after_clear first g)) \/
  (exists k, g' = collect k g) \/
  (exists k, g' = deposit k g) \/
  g' = g.
Proof.
  intros Hco He. destruct e as [d | a b | k | k | answer].
  - left. destruct (movement_refresh luck (ClickMove d) g g' eq_refl He) as [p Hp]. eauto.
  - left. destruct (movement_refresh luck (PositionUpdate a b) g g' eq_refl He) as [p Hp].
    eauto.
  - right. right. left. exists k. simpl in He. congruence.
  - right. right. right. left. exists k. simpl in He. congruence.
  - simpl in He. unfold resetGame in He.
    destruct (confirmed answer); [|right; right; right; right; congruence].
    destruct (movementHistory g) as [|first rest] eqn:Eh; [discriminate|].
    right. left. exists first, rest. split; [reflexivity|].
    injection He as <-. unfold after_clear.
    destruct Hco as [_ [Hnd _]].
    unfold with_playerWallet, with_cacheStates, with_activeCacheRects,
      with_movementHistory, with_playerMarker.
    cbn [board playerWallet cacheStates activeCacheRects playerMarker movementHistory
         localStorage].
    now rewrite (rewriteEntries_same (cacheStates g) Hnd).
Qed.

(** ** What is rendered *)

Lemma map_has_set {V : Type} k k' (v : V) m :
  Js.map_has k' (Js.map_set k v m) = (String.eqb k' k || Js.map_has k' m)%bool.
Proof.
  unfold Js.map_has. destruct (String.eqb k' k) eqn:E.
  - apply String.eqb_eq in E. subst k'. now rewrite map_get_set_same.
  - apply String.eqb_neq in E. now rewrite map_get_set_other.
Qed.

Lemma map_has_set_present {V : Type} k k' (v : V) m :
  Js.map_has k m = true -> Js.map_has k' (Js.map_set k v m) = Js.map_has k' m.
Proof.
  intros H. rewrite map_has_set. destruct (String.eqb k' k) eqn:E; [|reflexivity].
  apply String.eqb_eq in E. subst k'. now rewrite H.
Qed.

Lemma in_window_key g k :
  in_window g k = true -> exists c, k = cellToString c.
Proof.
  unfold in_window, window_keys. intros H. apply set_has_In in H.
  apply in_map_iff in H as [c [<- _]]. now exists c.
Qed.

Lemma map_has_get {V : Type} k (m : Js.Map V) :
  Js.map_has k m = match Js.map_get k m with Some _ => true | None => false end.
Proof. reflexivity. Qed.

(** After a refresh exactly the stored cells of the window are rendered. *)
Lemma populateMap_rendered luck pre :
  coherent pre ->
  forall k,
    Js.map_has k (activeCacheRects (populateMap luck pre))
    = (in_window (populateMap luck pre) k
       && Js.map_has k (cacheStates (populateMap luck pre)))%bool.
Proof.
  intros Hco k.
  destruct (populateMap_spec luck pre Hco) as [Hs [_ [_ [Hin Hout]]]].
  rewrite (in_window_same_session pre _ k Hs).
  destruct (in_window pre k) eqn:Hw; cbn [andb].
  - destruct (in_window_key pre k Hw) as [c ->].
    destruct (Hin c Hw) as [_ Hac]. rewrite !map_has_get, Hac.
    unfold active_after.
    destruct (Js.map_get (cellToString c) (activeCacheRects pre)) as [r|] eqn:Hr.
    + destruct (Hin c Hw) as [Hst _].
      rewrite Hst, (coherent_active_stored pre _ r Hco Hr). reflexivity.
    + destruct (Js.map_get (cellToString c) (cacheStates (populateMap luck pre)));
        reflexivity.
  - destruct (Hout k Hw) as [_ Hac]. now rewrite map_has_get, Hac.
Qed.

Lemma populateMap_drawn luck pre :
  coherent pre ->
  (forall k r, Js.map_get k (activeCacheRects pre) = Some r ->
     drawn_for_its_cell (board pre) r) ->
  forall k r, Js.map_get k (activeCacheRects (populateMap luck pre)) = Some r ->
    drawn_for_its_cell (board (populateMap luck pre)) r.
Proof.
  intros Hco Hpre k r Hr.
  destruct (populateMap_spec luck pre Hco) as [Hs [_ [_ [Hin Hout]]]].
  assert (Htw : tileWidth (board (populateMap luck pre)) = tileWidth (board pre))
    by apply Hs.
  unfold drawn_for_its_cell. rewrite (getCellBounds_tileWidth _ _ _ Htw).
  destruct (in_window pre k) eqn:Hw.
  - destruct (in_window_key pre k Hw) as [c ->].
    destruct (Hin c Hw) as [_ Hac]. rewrite Hac in Hr. unfold active_after in Hr.
    destruct (Js.map_get (cellToString c) (activeCacheRects pre)) as [r0|] eqn:Hr0.
    + injection Hr as <-. now apply (Hpre (cellToString c)).
    + destruct (Js.map_get (cellToString c) (cacheStates (populateMap luck pre)));
        [|discriminate].
      injection Hr as <-. split; reflexivity.
  - destruct (Hout k Hw) as [_ Hac]. congruence.
Qed.

(** The two popup handlers, when they act, rewrite the rectangle and the
    store entry of one key and push or pop one wallet coin. *)
Lemma collect_cases k g :
  coherent g ->
  collect k g = g \/
  exists r rest coin,
    Js.map_get k (activeCacheRects g) = Some r /\
    cellToString (popup_cell r) = k /\
    Js.map_get k (cacheStates g) = Some (rest ++ [coin])%list /\
    coins (popup_cache r) = (rest ++ [coin])%list /\
    collect k g =
    saveGameState
      (mkGame (board g) (playerWallet g ++ [coin])
         (Js.map_set k rest (cacheStates g))
         (Js.map_set k
            (mkRectangle (rect_bounds r)
               (mkCache rest (serialNumber (popup_cache r)) (location (popup_cache r)))
               (popup_cell r))
            (activeCacheRects g))
         (playerMarker g) (movementHistory g) (localStorage g)).
Proof.
  intros Hco.
  destruct (Js.map_get k (activeCacheRects g)) as [r|] eqn:Hr;
    [|left; unfold collect; now rewrite Hr].
  destruct (pop (coins (popup_cache r))) as [[coin rest]|] eqn:Hp;
    [|left; unfold collect; now rewrite Hr, Hp].
  apply pop_Some in Hp. right. exists r, rest, coin.
  pose proof (coherent_active_stored g k r Hco Hr) as Hst.
  assert (Hk : cellToString (popup_cell r) = k).
  { destruct Hco as [_ [_ [_ Hmir]]]. apply map_get_In in Hr.
    now destruct (Hmir _ _ Hr). }
  split; [reflexivity|]. split; [exact Hk|]. split; [now rewrite Hst, Hp|].
  split; [exact Hp|].
  rewrite (collect_snoc g k r rest coin Hr Hp), Hk. reflexivity.
Qed.

Lemma deposit_cases k g :
  coherent g ->
  deposit k g = g \/
  exists r rest coin,
    Js.map_get k (activeCacheRects g) = Some r /\
    cellToString (popup_cell r) = k /\
    Js.map_get k (cacheStates g) = Some (coins (popup_cache r)) /\
    playerWallet g = (rest ++ [coin])%list /\
    deposit k g =
    saveGameState
      (mkGame (board g) rest
         (Js.map_set k (coins (popup_cache r) ++ [coin])%list (cacheStates g))
         (Js.map_set k
            (mkRectangle (rect_bounds r)
               (mkCache (coins (popup_cache r) ++ [coin])%list
                  (serialNumber (popup_cache r)) (location (popup_cache r)))
               (popup_cell r))
            (activeCacheRects g))
         (playerMarker g) (movementHistory g) (localStorage g)).
Proof.
  intros Hco.
  destruct (Js.map_get k (activeCacheRects g)) as [r|] eqn:Hr;
    [|left; unfold deposit; now rewrite Hr].
  destruct (pop (playerWallet g)) as [[coin rest]|] eqn:Hp;
    [|left; unfold deposit; now rewrite Hr, Hp].
  apply pop_Some in Hp. right. exists r, rest, coin.
  pose proof (coherent_active_stored g k r Hco Hr) as Hst.
  assert (Hk : cellToString (popup_cell r) = k).
  { destruct Hco as [_ [_ [_ Hmir]]]. apply map_get_In in Hr.
    now destruct (Hmir _ _ Hr). }
  split; [reflexivity|]. split; [exact Hk|]. split; [exact Hst|].
  split; [exact Hp|].
  rewrite (deposit_snoc g k r rest coin Hr Hp), Hk. reflexivity.
Qed.

(** What both handlers leave alone, in the terms the invariants need. *)
Lemma popup_handler_keeps (g g' : Game) :
  coherent g ->
  (exists k, g' = collect k g) \/ (exists k, g' = deposit k g) ->
  board g' = board g /\ playerMarker g' = playerMarker g /\
  movementHistory g' = movementHistory g /\
  (forall k, in_window g' k = in_window g k) /\
  (forall k, Js.map_has k (cacheStates g') = Js.map_has k (cacheStates g)) /\
  (forall k, Js.map_has k (activeCacheRects g') = Js.map_has k (activeCacheRects g)) /\
  Js.map_keys (cacheStates g') = Js.map_keys (cacheStates g) /\
  (forall k r', Js.map_get k (activeCacheRects g') = Some r' ->
     exists r, Js.map_get k (activeCacheRects g) = Some r /\
               popup_cell r' = popup_cell r /\
               location (popup_cache r') = location (popup_cache r) /\
               rect_bounds r' = rect_bounds r).
Proof.
  intros Hco Hcase.
  assert (Hid : board g = board g /\ playerMarker g = playerMarker g /\
    movementHistory g = movementHistory g /\
    (forall k, in_window g k = in_window g k) /\
    (forall k, Js.map_has k (cacheStates g) = Js.map_has k (cacheStates g)) /\
    (forall k, Js.map_has k (activeCacheRects g) = Js.map_has k (activeCacheRects g)) /\
    Js.map_keys (cacheStates g) = Js.map_keys (cacheStates g) /\
    (forall k r', Js.map_get k (activeCacheRects g) = Some r' ->
       exists r, Js.map_get k (activeCacheRects g) = Some r /\
               popup_cell r' = popup_cell r /\
               location (popup_cache r') = location (popup_cache r) /\
               rect_bounds r' = rect_bounds r)).
  { repeat (split; [reflexivity|]). intros k r' H. exists r'. auto. }
  assert (Hupd : forall k r w cs st,
     Js.map_get k (activeCacheRects g) = Some r ->
     Js.map_get k (cacheStates g) = Some st ->
     g' = saveGameState
            (mkGame (board g) w (Js.map_set k cs (cacheStates g))
               (Js.map_set k
                  (mkRectangle (rect_bounds r)
                     (mkCache cs (serialNumber (popup_cache r)) (location (popup_cache r)))
                     (popup_cell r))
                  (activeCacheRects g))
               (playerMarker g) (movementHistory g) (localStorage g)) ->
     board g' = board g /\ playerMarker g' = playerMarker g /\
     movementHistory g' = movementHistory g /\
     (forall k, in_window g' k = in_window g k) /\
     (forall k, Js.map_has k (cacheStates g') = Js.map_has k (cacheStates g)) /\
     (forall k, Js.map_has k (activeCacheRects g') = Js.map_has k (activeCacheRects g)) /\
     Js.map_keys (cacheStates g') = Js.map_keys (cacheStates g) /\
     (forall k r', Js.map_get k (activeCacheRects g') = Some r' ->
        exists r, Js.map_get k (activeCacheRects g) = Some r /\
               popup_cell r' = popup_cell r /\
               location (popup_cache r') = location (popup_cache r) /\
               rect_bounds r' = rect_bounds r)).
  { intros k r w cs st Hr Hst ->. unfold saveGameState, with_localStorage.
    cbn [board playerWallet cacheStates activeCacheRects playerMarker movementHistory
         localStorage].
    assert (Hhs : Js.map_has k (cacheStates g) = true) by (apply map_has_true; eauto).
    assert (Hha : Js.map_has k (activeCacheRects g) = true) by (apply map_has_true; eauto).
    split; [reflexivity|]. split; [reflexivity|]. split; [reflexivity|].
    split; [reflexivity|].
    split; [intros k0; now apply map_has_set_present|].
    split; [intros k0; now apply map_has_set_present|].
    split; [now apply map_set_keys_present|].
    intros k0 r' H. destruct (string_dec k0 k) as [->|Hne].
    - rewrite map_get_set_same in H. injection H as <-. exists r. auto.
    - rewrite map_get_set_other in H by assumption. exists r'. auto. }
  destruct Hcase as [[k ->] | [k ->]].
  - destruct (collect_cases k g Hco) as [-> | [r [rest [coin [Hr [_ [Hst [_ E]]]]]]]];
      [exact Hid|].
    exact (Hupd k r _ rest _ Hr Hst E).
  - destruct (deposit_cases k g Hco) as [-> | [r [rest [coin [Hr [_ [Hst [_ E]]]]]]]];
      [exact Hid|].
    exact (Hupd k r _ _ _ Hr Hst E).
Qed.

(** The rendering invariant of the sessions the program reaches. *)
Lemma reachable_rendered luck g :
  reachable luck g ->
  forall k,
    Js.map_has k (activeCacheRects g)
    = (in_window g k && Js.map_has k (cacheStates g))%bool.
Proof.
  induction 1 as [stored g Hs | g e g' Hr IH He]; intros k.
  - destruct (start_cases luck stored g Hs) as [-> | [snap [_ ->]]].
    + cbn [initial activeCacheRects cacheStates].
      now rewrite andb_false_r.
    + apply populateMap_rendered, rebuilt_from_coherent.
  - pose proof (reachable_coherent luck g Hr) as Hco.
    destruct (handle_cases luck e g g' Hco He)
      as [[p [_ ->]] | [[first [rest [_ ->]]] | [Hc | [Hd | ->]]]].
    + apply populateMap_rendered. now apply after_move_coherent.
    + apply populateMap_rendered. now apply after_clear_coherent.
    + destruct (popup_handler_keeps g g' Hco (or_introl Hc))
        as [_ [_ [_ [Hw [Hst [Hac _]]]]]].
      now rewrite Hw, Hst, Hac.
    + destruct (popup_handler_keeps g g' Hco (or_intror Hd))
        as [_ [_ [_ [Hw [Hst [Hac _]]]]]].
      now rewrite Hw, Hst, Hac.
    + apply IH.
Qed.

(** X7. Exactly the stored cells of the window are rendered.  In every
    session the program reaches, a key has a rectangle in [activeCacheRects]
    if and only if its cell is in the visibility window of the player's
    position and it has an entry in [cacheStates]: nothing outside the
    window stays on the map and no stored cache of the window is missing
    from it. *)
Theorem rendered_iff_visible_and_stored
    (luck : string -> Q) (g : Game) (Hreach : reachable luck g) (k : string) :
  Js.map_has k (activeCacheRects g)
  = (in_window g k && Js.map_has k (cacheStates g))%bool /\
  (in_window g k = false -> Js.map_get k (activeCacheRects g) = None) /\
  (Js.map_get k (cacheStates g) = None -> Js.map_get k (activeCacheRects g) = None).
Proof.
  pose proof (reachable_rendered luck g Hreach k) as H.
  split; [exact H|]. split.
  - intros Hw. rewrite Hw in H. cbn [andb] in H. now apply map_has_false.
  - intros Hs. apply map_has_false in Hs. rewrite Hs, andb_false_r in H.
    now apply map_has_false.
Qed.

Lemma rendered_iff_visible_and_stored_witness :
  Js.map_get sample_key_a (activeCacheRects sample_session) = Some sample_rect_a /\
  in_window sample_session sample_key_a = true /\
  Js.map_has sample_key_a (cacheStates sample_session) = true.
Proof.
  destruct (rendered_iff_visible_and_stored sample_luck sample_session
              sample_session_reachable sample_key_a) as [H _].
  rewrite (map_has_get sample_key_a (activeCacheRects sample_session)),
    sample_session_rect in H.
  symmetry in H. apply andb_true_iff in H.
  split; [exact sample_session_rect | exact H].
Defined.

Lemma reachable_drawn luck g :
  reachable luck g ->
  forall k r, Js.map_get k (activeCacheRects g) = Some r ->
    drawn_for_its_cell (board g) r.
Proof.
  induction 1 as [stored g Hs | g e g' Hr IH He]; intros k r Hk.
  - destruct (start_cases luck stored g Hs) as [-> | [snap [_ ->]]].
    + discriminate Hk.
    + apply (populateMap_drawn luck _ (rebuilt_from_coherent snap stored)) with (k := k);
        [|exact Hk].
      intros k0 r0 H0. discriminate H0.
  - pose proof (reachable_coherent luck g Hr) as Hco.
    destruct (handle_cases luck e g g' Hco He)
      as [[p [_ ->]] | [[first [rest [_ ->]]] | [Hc | [Hd | ->]]]].
    + apply (populateMap_drawn luck _ (after_move_coherent p g Hco)) with (k := k);
        [|exact Hk].
      exact IH.
    + apply (populateMap_drawn luck _ (after_clear_coherent first g Hco)) with (k := k);
        [|exact Hk].
      intros k0 r0 H0. discriminate H0.
    + destruct (popup_handler_keeps g g' Hco (or_introl Hc))
        as [Hb [_ [_ [_ [_ [_ [_ Hrect]]]]]]].
      destruct (Hrect k r Hk) as [r0 [H0 [E1 [E2 E3]]]].
      destruct (IH k r0 H0) as [I1 I2].
      unfold drawn_for_its_cell. rewrite Hb, E1, E2, E3. now split.
    + destruct (popup_handler_keeps g g' Hco (or_intror Hd))
        as [Hb [_ [_ [_ [_ [_ [_ Hrect]]]]]]].
      destruct (Hrect k r Hk) as [r0 [H0 [E1 [E2 E3]]]].
      destruct (IH k r0 H0) as [I1 I2].
      unfold drawn_for_its_cell. rewrite Hb, E1, E2, E3. now split.
    + now apply (IH k).
Qed.

(** X8. A rendered cache mirrors the store.  In every session the program
    reaches, the rectangle registered under a key belongs to the cell of
    that key, is drawn at the bounds of that cell, its cache is located at
    that cell and holds exactly the coins of the store entry of that key, in
    the same order; the cell is in the visibility window.  So the popup of a
    rendered cache always shows the coins the store has for it. *)
Theorem rendered_cache_mirrors_the_store
    (luck : string -> Q) (g : Game) (k : string) (r : Rectangle)
    (Hreach : reachable luck g)
    (Hr : Js.map_get k (activeCacheRects g) = Some r) :
  cellToString (popup_cell r) = k /\
  location (popup_cache r) = popup_cell r /\
  rect_bounds r = getCellBounds (popup_cell r) (board g) /\
  Js.map_get k (cacheStates g) = Some (coins (popup_cache r)) /\
  in_window g k = true.
Proof.
  pose proof (reachable_coherent luck g Hreach) as Hco.
  destruct (reachable_drawn luck g Hreach k r Hr) as [D1 D2].
  pose proof (coherent_active_stored g k r Hco Hr) as Hst.
  split.
  { destruct Hco as [_ [_ [_ Hmir]]]. apply map_get_In in Hr.
    now destruct (Hmir _ _ Hr). }
  split; [exact D1|]. split; [exact D2|]. split; [exact Hst|].
  pose proof (reachable_rendered luck g Hreach k) as H.
  rewrite map_has_get, Hr in H. symmetry in H.
  now apply andb_true_iff in H as [H _].
Qed.

Lemma rendered_cache_mirrors_the_store_witness :
  Js.map_get sample_key_a (cacheStates sample_session)
  = Some (List.map (mkCoin sample_cell_a) [0; 1; 2; 3; 4]) /\
  in_window sample_session sample_key_a = true.
Proof.
  destruct (rendered_cache_mirrors_the_store sample_luck sample_session sample_key_a
              sample_rect_a sample_session_reachable sample_session_rect)
    as [_ [_ [_ [H4 H5]]]].
  split; [exact H4 | exact H5].
Defined.

(** ** What a refresh adds *)

Lemma NoDup_app_not_In {A : Type} (l1 l2 : list A) x :
  NoDup (l1 ++ l2) -> In x l2 -> ~ In x l1.
Proof.
  induction l1 as [|a l1 IH]; simpl; intros Hnd Hx; [tauto|].
  inversion Hnd as [|? ? Hni Hnd']; subst. intros [-> | Hin].
  - apply Hni. apply in_or_app. now right.
  - now apply (IH Hnd' Hx).
Qed.

(** The entries a refresh appends to the store are the spawns of lucky cells
    of the window that had no entry. *)
Lemma populateMap_added luck pre :
  coherent pre ->
  exists extra,
    cacheStates (populateMap luck pre) = (cacheStates pre ++ extra)%list /\
    forall k cs, In (k, cs) extra ->
      Js.map_get k (cacheStates pre) = None /\
      in_window pre k = true /\
      lucky luck k = true /\
      exists c, k = cellToString c /\ cs = spawned_coins luck c.
Proof.
  intros Hco.
  destruct (populateMap_spec luck pre Hco) as [_ [[extra Hex] [Hco' [Hin Hout]]]].
  exists extra. split; [exact Hex|]. intros k cs Hk.
  destruct Hco' as [_ [Hnd _]].
  assert (Hget : Js.map_get k (cacheStates (populateMap luck pre)) = Some cs).
  { apply In_map_get; [exact Hnd|]. rewrite Hex. apply in_or_app. now right. }
  assert (Hnone : Js.map_get k (cacheStates pre) = None).
  { apply map_get_None_keys. rewrite Hex in Hnd. unfold Js.map_keys in *.
    rewrite List.map_app in Hnd. apply (NoDup_app_not_In _ _ k Hnd).
    change k with (fst (k, cs)). now apply in_map. }
  split; [exact Hnone|].
  destruct (in_window pre k) eqn:Hw.
  - destruct (in_window_key pre k Hw) as [c ->].
    destruct (Hin c Hw) as [Hst _]. rewrite Hnone in Hst. unfold store_after in Hst.
    rewrite Hst in Hget.
    destruct (lucky luck (cellToString c)); [|discriminate].
    injection Hget as <-. split; [reflexivity|]. split; [reflexivity|].
    now exists c.
  - destruct (Hout k Hw) as [Hst _]. congruence.
Qed.

Lemma concat_values_app {V : Type} (m1 m2 : Js.Map (list V)) :
  List.concat (Js.map_values (m1 ++ m2)%list)
  = (List.concat (Js.map_values m1) ++ List.concat (Js.map_values m2))%list.
Proof. unfold Js.map_values. now rewrite List.map_app, List.concat_app. Qed.

(** X9. A movement conserves the coins there are and adds only fresh
    caches.  When a move button or a position update is handled in a session
    the program reaches, the wallet and the stored snapshot are left as they
    were, the new position becomes the marker and the last point of the
    history, every store entry keeps its place and its coins, and the
    entries appended are caches newly spawned for lucky cells of the new
    window that had no entry; the coins of the session are those it had,
    followed by the coins of these new caches. *)
Theorem movement_conserves_coins_and_adds_fresh_caches
    (luck : string -> Q) (e : Event) (g g' : Game)
    (Hreach : reachable luck g)
    (Hm : is_movement e = true)
    (He : handle luck e g = Done g') :
  playerWallet g' = playerWallet g /\
  localStorage g' = localStorage g /\
  movementHistory g' = (movementHistory g ++ [playerMarker g'])%list /\
  (forall d, e = ClickMove d ->
     playerMarker g' =
     match d with
     | MoveUp => latLng (lat (playerMarker g) + TILE_DEGREES) (lng (playerMarker g))
     | MoveDown => latLng (lat (playerMarker g) - TILE_DEGREES) (lng (playerMarker g))
     | MoveLeft => latLng (lat (playerMarker g)) (lng (playerMarker g) - TILE_DEGREES)
     | MoveRight => latLng (lat (playerMarker g)) (lng (playerMarker g) + TILE_DEGREES)
     end) /\
  (forall a b, e = PositionUpdate a b -> playerMarker g' = latLng a b) /\
  exists added,
    cacheStates g' = (cacheStates g ++ added)%list /\
    all_coins g' = (all_coins g ++ List.concat (Js.map_values added))%list /\
    forall k cs, In (k, cs) added ->
      Js.map_has k (cacheStates g) = false /\
      in_window g' k = true /\
      (luck k < CACHE_SPAWN_PROBABILITY)%Q /\
      exists c, k = cellToString c /\ cs = spawned_coins luck c.
Proof.
  pose proof (reachable_coherent luck g Hreach) as Hco.
  destruct (movement_refresh luck e g g' Hm He) as [p Hp].
  fold (after_move p g) in Hp.
  pose proof (after_move_coherent p g Hco) as Hpre.
  destruct (populateMap_frame luck (after_move p g)) as [S1 [S2 [S3 [S4 _]]]].
  pose proof (populateMap_frame luck (after_move p g)) as Hs.
  rewrite <- Hp in S1, S2, S3, S4.
  change (playerWallet (after_move p g)) with (playerWallet g) in S1.
  change (playerMarker (after_move p g)) with p in S2.
  change (movementHistory (after_move p g)) with (movementHistory g ++ [p])%list in S3.
  change (localStorage (after_move p g)) with (localStorage g) in S4.
  split; [exact S1|]. split; [exact S4|]. split; [now rewrite S2|].
  split.
  { intros d ->. rewrite S2. simpl in He. injection He as He.
    rewrite Hp in He. clear - He S2 Hp.
    assert (H : playerMarker (clickMove luck d g) = p) by (rewrite He, <- Hp; exact S2).
    rewrite <- H. destruct d; simpl; rewrite movePlayer_positionUpdate,
      positionUpdate_marker; f_equal; unfold TILE_DEGREES; lia. }
  split.
  { intros a b ->. simpl in He. injection He as He.
    rewrite <- He. apply positionUpdate_marker. }
  destruct (populateMap_added luck (after_move p g) Hpre) as [added [Hex Hadd]].
  rewrite <- Hp in Hex. change (cacheStates (after_move p g)) with (cacheStates g) in Hex.
  exists added. split; [exact Hex|]. split.
  { unfold all_coins. rewrite S1, Hex, concat_values_app. apply List.app_assoc. }
  intros k cs Hk. destruct (Hadd k cs Hk) as [H1 [H2 [H3 H4]]].
  split; [now apply map_has_false|].
  split; [rewrite Hp, (in_window_same_session _ _ k Hs); exact H2|].
  split; [now apply Qlt_bool_iff | exact H4].
Qed.

Lemma movement_conserves_coins_and_adds_fresh_caches_witness :
  playerMarker sample_session = latLng 369895000 (-1220627000) /\
  playerWallet sample_session = playerWallet (initial None) /\
  movementHistory sample_session
  = (movementHistory (initial None) ++ [playerMarker sample_session])%list.
Proof.
  assert (He : handle sample_luck (ClickMove MoveUp) (initial None) = Done sample_session)
    by (unfold sample_session; reflexivity).
  destruct (movement_conserves_coins_and_adds_fresh_caches sample_luck
              (ClickMove MoveUp) (initial None) sample_session
              (reach_start sample_luck None (initial None) eq_refl) eq_refl He)
    as [H1 [_ [H3 [H4 _]]]].
  split; [exact (H4 MoveUp eq_refl)|]. split; [exact H1 | exact H3].
Defined.

(** What each event does when its handler ends normally. *)
Lemma handle_by_event luck e g g' :
  coherent g -> handle luck e g = Done g' ->
  match e with
  | ClickMove _ | PositionUpdate _ _ =>
      exists p, g' = populateMap luck (after_move p g)
  | ClickCollect k => g' = collect k g
  | ClickDeposit k => g' = deposit k g
  | ClickReset answer =>
      (confirmed answer = true /\
       exists first rest,
         movementHistory g = first :: rest /\
         g' = populateMap luck (after_clear first g)) \/
      (confirmed answer = false /\ g' = g)
  end.
Proof.
  intros Hco He. destruct e as [d | a b | k | k | answer].
  - exact (movement_refresh luck (ClickMove d) g g' eq_refl He).
  - exact (movement_refresh luck (PositionUpdate a b) g g' eq_refl He).
  - simpl in He. congruence.
  - simpl in He. congruence.
  - simpl in He. unfold resetGame in He.
    destruct (confirmed answer); [|right; split; congruence].
    destruct (movementHistory g) as [|first rest] eqn:Eh; [discriminate|].
    left. split; [reflexivity|]. exists first, rest. split; [reflexivity|].
    injection He as <-. unfold after_clear.
    destruct Hco as [_ [Hnd _]].
    unfold with_playerWallet, with_cacheStates, with_activeCacheRects,
      with_movementHistory, with_playerMarker.
    cbn [board playerWallet cacheStates activeCacheRects playerMarker movementHistory
         localStorage].
    now rewrite (rewriteEntries_same (cacheStates g) Hnd).
Qed.

(** X10. No handler removes a store entry.  Whatever event is handled in
    a session the program reaches, collect, deposit and the confirmed reset
    included, the keys of [cacheStates] afterwards are the keys before, in
    the same order, followed by the keys of newly spawned caches.  The popup
    handlers add no key; a movement and a reset leave the coins of every
    existing entry as they were.  An entry, once created, stays for the rest
    of the session. *)
Theorem store_entries_are_never_removed
    (luck : string -> Q) (e : Event) (g g' : Game)
    (Hreach : reachable luck g)
    (He : handle luck e g = Done g') :
  (exists added,
     Js.map_keys (cacheStates g') = (Js.map_keys (cacheStates g) ++ added)%list) /\
  (forall k, Js.map_has k (cacheStates g) = true ->
             Js.map_has k (cacheStates g') = true) /\
  match e with
  | ClickCollect _ | ClickDeposit _ =>
      Js.map_keys (cacheStates g') = Js.map_keys (cacheStates g)
  | _ =>
      forall k cs, Js.map_get k (cacheStates g) = Some cs ->
                   Js.map_get k (cacheStates g') = Some cs
  end.
Proof.
  pose proof (reachable_coherent luck g Hreach) as Hco.
  assert (Hrefresh : forall pre,
            coherent pre -> cacheStates pre = cacheStates g ->
            g' = populateMap luck pre ->
            (exists added,
               Js.map_keys (cacheStates g')
               = (Js.map_keys (cacheStates g) ++ added)%list) /\
            (forall k cs, Js.map_get k (cacheStates g) = Some cs ->
                          Js.map_get k (cacheStates g') = Some cs)).
  { intros pre Hpre Hst ->.
    destruct (populateMap_spec luck pre Hpre) as [_ [[extra Hex] _]].
    rewrite Hst in Hex. split.
    - exists (Js.map_keys extra). rewrite Hex. unfold Js.map_keys.
      apply List.map_app.
    - intros k cs Hk. rewrite Hex. now apply map_get_app_l. }
  assert (Hhas : (exists added,
               Js.map_keys (cacheStates g')
               = (Js.map_keys (cacheStates g) ++ added)%list) ->
            forall k, Js.map_has k (cacheStates g) = true ->
                      Js.map_has k (cacheStates g') = true).
  { intros [added E] k Hk. apply map_has_keys. rewrite E.
    apply in_or_app. left. now apply map_has_keys. }
  assert (Hsame : Js.map_keys (cacheStates g') = Js.map_keys (cacheStates g) ->
            exists added,
               Js.map_keys (cacheStates g')
               = (Js.map_keys (cacheStates g) ++ added)%list).
  { intros E. exists []. now rewrite List.app_nil_r. }
  pose proof (handle_by_event luck e g g' Hco He) as Hev.
  destruct e as [d | a b | k | k | answer].
  - destruct Hev as [p Hp].
    destruct (Hrefresh _ (after_move_coherent p g Hco) eq_refl Hp) as [Hadd Hkeep].
    split; [exact Hadd|]. split; [now apply Hhas | exact Hkeep].
  - destruct Hev as [p Hp].
    destruct (Hrefresh _ (after_move_coherent p g Hco) eq_refl Hp) as [Hadd Hkeep].
    split; [exact Hadd|]. split; [now apply Hhas | exact Hkeep].
  - destruct (popup_handler_keeps g g' Hco (or_introl (ex_intro _ k Hev)))
      as [_ [_ [_ [_ [_ [_ [Hkeys _]]]]]]].
    split; [now apply Hsame|]. split; [now apply Hhas, Hsame | exact Hkeys].
  - destruct (popup_handler_keeps g g' Hco (or_intror (ex_intro _ k Hev)))
      as [_ [_ [_ [_ [_ [_ [Hkeys _]]]]]]].
    split; [now apply Hsame|]. split; [now apply Hhas, Hsame | exact Hkeys].
  - destruct Hev as [[_ [first [rest [_ Hp]]]] | [_ ->]].
    + destruct (Hrefresh _ (after_clear_coherent first g Hco) eq_refl Hp)
        as [Hadd Hkeep].
      split; [exact Hadd|]. split; [now apply Hhas | exact Hkeep].
    + split; [now apply Hsame|]. split; auto.
Qed.

Lemma store_entries_are_never_removed_witness :
  Js.map_keys (cacheStates sample_after_reset) = [sample_key_a; sample_key_b] /\
  Js.map_has sample_key_a (cacheStates sample_after_reset) = true.
Proof.
  destruct (store_entries_are_never_removed sample_luck (ClickReset (Some "yes"))
              sample_collected sample_after_reset sample_collected_reachable
              sample_reset_done) as [_ [H _]].
  split.
  - rewrite sample_reset_store, sample_collected_store. reflexivity.
  - apply H. rewrite sample_collected_store. reflexivity.
Defined.

(** ** Collect and deposit, composed and framed *)

Lemma map_set_set {V : Type} k (v v' : V) m :
  Js.map_set k v (Js.map_set k v' m) = Js.map_set k v m.
Proof.
  induction m as [|[k0 v0] m IH]; simpl.
  - now rewrite String.eqb_refl.
  - destruct (String.eqb k k0) eqn:E; simpl; rewrite E; [reflexivity|].
    now rewrite IH.
Qed.

Lemma map_set_back {V : Type} k (v v' : V) m :
  Js.map_get k m = Some v -> Js.map_set k v (Js.map_set k v' m) = m.
Proof. intros H. rewrite map_set_set. now apply map_set_same_value. Qed.

Lemma nonempty_snoc {A : Type} (l : list A) :
  l <> [] -> exists rest x, l = (rest ++ [x])%list.
Proof.
  intros H. destruct (List.exists_last H) as [rest [x E]]. now exists rest, x.
Qed.

Lemma rectangle_eta r cs :
  coins (popup_cache r) = cs ->
  mkRectangle (rect_bounds r)
    (mkCache cs (serialNumber (popup_cache r)) (location (popup_cache r)))
    (popup_cell r) = r.
Proof. destruct r as [bd [cs0 sn loc] cell]. simpl. now intros ->. Qed.

Lemma saveGameState_eq g1 g2 :
  board g1 = board g2 -> playerWallet g1 = playerWallet g2 ->
  cacheStates g1 = cacheStates g2 -> activeCacheRects g1 = activeCacheRects g2 ->
  playerMarker g1 = playerMarker g2 -> movementHistory g1 = movementHistory g2 ->
  saveGameState g1 = saveGameState g2.
Proof.
  destruct g1 as [b1 w1 s1 a1 m1 h1 l1], g2 as [b2 w2 s2 a2 m2 h2 l2].
  cbn [board playerWallet cacheStates activeCacheRects playerMarker movementHistory].
  intros -> -> -> -> -> ->. reflexivity.
Qed.

Ltac popup_fields :=
  cbn [board playerWallet cacheStates activeCacheRects playerMarker movementHistory
       saveGameState with_localStorage with_cacheStates with_activeCacheRects
       with_playerWallet rect_bounds popup_cache popup_cell coins serialNumber
       location].

(** X11. Collect and deposit undo each other.  In a session the program
    reaches, at a rendered cache that holds a coin, a click on Collect
    followed by a click on Deposit at the same cache gives back the wallet,
    the cache, the store and everything else as they were, the stored
    snapshot being the one of that session; and so does Deposit followed by
    Collect when the wallet holds a coin. *)
Theorem collect_and_deposit_undo_each_other
    (luck : string -> Q) (g : Game) (k : string) (r : Rectangle)
    (Hreach : reachable luck g)
    (Hr : Js.map_get k (activeCacheRects g) = Some r) :
  (coins (popup_cache r) <> [] -> deposit k (collect k g) = saveGameState g) /\
  (playerWallet g <> [] -> collect k (deposit k g) = saveGameState g).
Proof.
  pose proof (reachable_coherent luck g Hreach) as Hco.
  pose proof (coherent_active_stored g k r Hco Hr) as Hst.
  assert (Hk : cellToString (popup_cell r) = k).
  { destruct Hco as [_ [_ [_ Hmir]]]. apply map_get_In in Hr as Hin.
    now destruct (Hmir _ _ Hin). }
  split.
  - intros Hne. destruct (nonempty_snoc _ Hne) as [rest [coin Hc]].
    rewrite (collect_snoc g k r rest coin Hr Hc).
    match goal with |- deposit k ?x = _ => set (g1 := x) end.
    set (r1 := mkRectangle (rect_bounds r)
                 (mkCache rest (serialNumber (popup_cache r)) (location (popup_cache r)))
                 (popup_cell r)).
    assert (Hr1 : Js.map_get k (activeCacheRects g1) = Some r1)
      by (unfold g1; popup_fields; apply map_get_set_same).
    assert (Hw1 : playerWallet g1 = (playerWallet g ++ [coin])%list)
      by (unfold g1; popup_fields; reflexivity).
    rewrite (deposit_snoc g1 k r1 (playerWallet g) coin Hr1 Hw1).
    apply saveGameState_eq; unfold g1, r1; popup_fields; try reflexivity.
    + rewrite Hk. apply map_set_back. now rewrite Hst, Hc.
    + rewrite map_set_set, <- Hc, (rectangle_eta r _ eq_refl).
      now apply map_set_same_value.
  - intros Hne. destruct (nonempty_snoc _ Hne) as [rest [coin Hw]].
    rewrite (deposit_snoc g k r rest coin Hr Hw).
    match goal with |- collect k ?x = _ => set (g1 := x) end.
    set (r1 := mkRectangle (rect_bounds r)
                 (mkCache (coins (popup_cache r) ++ [coin])%list
                    (serialNumber (popup_cache r)) (location (popup_cache r)))
                 (popup_cell r)).
    assert (Hr1 : Js.map_get k (activeCacheRects g1) = Some r1)
      by (unfold g1; popup_fields; apply map_get_set_same).
    assert (Hc1 : coins (popup_cache r1) = (coins (popup_cache r) ++ [coin])%list)
      by reflexivity.
    rewrite (collect_snoc g1 k r1 (coins (popup_cache r)) coin Hr1 Hc1).
    apply saveGameState_eq; unfold g1, r1; popup_fields; try reflexivity.
    + now symmetry.
    + rewrite Hk. now apply map_set_back.
    + rewrite map_set_set, (rectangle_eta r _ eq_refl).
      now apply map_set_same_value.
Qed.

Lemma collect_and_deposit_undo_each_other_witness :
  deposit sample_key_a (collect sample_key_a sample_session)
  = saveGameState sample_session.
Proof.
  destruct (collect_and_deposit_undo_each_other sample_luck sample_session
              sample_key_a sample_rect_a sample_session_reachable sample_session_rect)
    as [H _].
  apply H. rewrite sample_rect_coins. intros E.
  destruct (List.app_eq_nil _ _ E) as [_ E']. discriminate E'.
Defined.

(** X12. The popup handlers touch one cache only.  In a session the
    program reaches, a click on Collect or Deposit in the popup of the cache
    at key [k] leaves the store entry and the rectangle of every other key
    as they were, and leaves the board, the player's position and the
    movement history alone; the wallet changes by the one coin moved, or not
    at all. *)
Theorem popup_handlers_touch_one_cache_only
    (luck : string -> Q) (g : Game) (k other : string)
    (Hreach : reachable luck g)
    (Hother : other <> k) :
  let after_collect := collect k g in
  let after_deposit := deposit k g in
  (Js.map_get other (cacheStates after_collect) = Js.map_get other (cacheStates g) /\
   Js.map_get other (activeCacheRects after_collect)
   = Js.map_get other (activeCacheRects g) /\
   board after_collect = board g /\
   playerMarker after_collect = playerMarker g /\
   movementHistory after_collect = movementHistory g /\
   (playerWallet after_collect = playerWallet g \/
    exists coin, playerWallet after_collect = (playerWallet g ++ [coin])%list)) /\
  (Js.map_get other (cacheStates after_deposit) = Js.map_get other (cacheStates g) /\
   Js.map_get other (activeCacheRects after_deposit)
   = Js.map_get other (activeCacheRects g) /\
   board after_deposit = board g /\
   playerMarker after_deposit = playerMarker g /\
   movementHistory after_deposit = movementHistory g /\
   (playerWallet after_deposit = playerWallet g \/
    exists coin, playerWallet g = (playerWallet after_deposit ++ [coin])%list)).
Proof.
  pose proof (reachable_coherent luck g Hreach) as Hco.
  intros after_collect after_deposit. subst after_collect after_deposit. split.
  - destruct (collect_cases k g Hco) as [-> | [r [rest [coin [_ [_ [_ [_ ->]]]]]]]].
    + repeat (split; [reflexivity|]). now left.
    + unfold saveGameState, with_localStorage.
      cbn [board playerWallet cacheStates activeCacheRects playerMarker
           movementHistory localStorage].
      split; [now apply map_get_set_other|]. split; [now apply map_get_set_other|].
      repeat (split; [reflexivity|]). right. now exists coin.
  - destruct (deposit_cases k g Hco) as [-> | [r [rest [coin [_ [_ [_ [Hw ->]]]]]]]].
    + repeat (split; [reflexivity|]). now left.
    + unfold saveGameState, with_localStorage.
      cbn [board playerWallet cacheStates activeCacheRects playerMarker
           movementHistory localStorage].
      split; [now apply map_get_set_other|]. split; [now apply map_get_set_other|].
      repeat (split; [reflexivity|]). right. now exists coin.
Qed.

Lemma popup_handlers_touch_one_cache_only_witness :
  Js.map_get sample_key_b (cacheStates (collect sample_key_a sample_session))
  = Some (List.map (mkCoin sample_cell_b) [0; 1; 2]) /\
  movementHistory (collect sample_key_a sample_session)
  = [OAKES_CLASSROOM; latLng 369895000 (-1220627000)].
Proof.
  assert (Hne : sample_key_b <> sample_key_a) by discriminate.
  pose proof (popup_handlers_touch_one_cache_only sample_luck sample_session
                sample_key_a sample_key_b sample_session_reachable Hne) as H.
  cbv zeta in H. destruct H as [[H1 [_ [_ [_ [H5 _]]]]] _].
  split.
  - rewrite H1, sample_session_store. reflexivity.
  - rewrite H5. exact sample_session_history.
Defined.

(** ** Coins are never duplicated *)

Lemma spawned_coins_NoDup luck c : NoDup (spawned_coins luck c).
Proof.
  rewrite spawned_coins_eq. apply map_NoDup_on; [|apply count_from_NoDup].
  now intros x y _ _ [= E].
Qed.

Lemma spawned_coins_location luck c coin :
  In coin (spawned_coins luck c) -> spawnLocation coin = c.
Proof.
  rewrite spawned_coins_eq. intros H. apply in_map_iff in H as [s [<- _]]. reflexivity.
Qed.

(** Entries with distinct keys whose coins all carry the key of their entry
    hold pairwise distinct coins. *)
Lemma concat_entries_NoDup (entries : Js.Map (list Coin)) :
  NoDup (Js.map_keys entries) ->
  (forall k cs, In (k, cs) entries ->
     NoDup cs /\ forall coin, In coin cs -> cellToString (spawnLocation coin) = k) ->
  NoDup (List.concat (Js.map_values entries)).
Proof.
  induction entries as [|[k cs] entries IH]; intros Hnd Hent; simpl; [constructor|].
  simpl in Hnd. inversion Hnd as [|? ? Hni Hnd']; subst.
  destruct (Hent k cs (or_introl eq_refl)) as [Hcs Hkey].
  apply NoDup_app.
  - exact Hcs.
  - apply IH; [exact Hnd'|]. intros k' cs' H'. apply Hent. now right.
  - intros coin Hin Hin'. apply in_concat in Hin' as [cs' [Hcs' Hc']].
    unfold Js.map_values in Hcs'. apply in_map_iff in Hcs' as [[k' cs''] [E Hk']].
    simpl in E. subst cs''.
    destruct (Hent k' cs' (or_intror Hk')) as [_ Hkey'].
    apply Hni. rewrite <- (Hkey coin Hin), (Hkey' coin Hc').
    unfold Js.map_keys. change k' with (fst (k', cs')). now apply in_map.
Qed.

Lemma populateMap_accounted luck pre :
  coherent pre -> coins_accounted pre -> coins_accounted (populateMap luck pre).
Proof.
  intros Hco [Hnd Hsrc].
  destruct (populateMap_added luck pre Hco) as [extra [Hex Hadd]].
  destruct (populateMap_frame luck pre) as [Hw _].
  pose proof (populateMap_coherent luck pre Hco) as [_ [Hkeys _]].
  assert (Hall : all_coins (populateMap luck pre)
                 = (all_coins pre ++ List.concat (Js.map_values extra))%list).
  { unfold all_coins. rewrite Hw, Hex, concat_values_app. apply List.app_assoc. }
  assert (Hkx : NoDup (Js.map_keys extra)).
  { rewrite Hex in Hkeys. unfold Js.map_keys in *. rewrite List.map_app in Hkeys.
    now apply NoDup_app_remove_l in Hkeys. }
  assert (Hnew : forall coin, In coin (List.concat (Js.map_values extra)) ->
            exists k cs, In (k, cs) extra /\ In coin cs /\
                         cellToString (spawnLocation coin) = k).
  { intros coin Hc. apply in_concat in Hc as [cs [Hcs Hc]].
    unfold Js.map_values in Hcs. apply in_map_iff in Hcs as [[k cs'] [E Hk]].
    simpl in E. subst cs'. exists k, cs. split; [exact Hk|]. split; [exact Hc|].
    destruct (Hadd k cs Hk) as [_ [_ [_ [c [-> ->]]]]].
    now rewrite (spawned_coins_location luck c coin Hc). }
  split.
  - rewrite Hall. apply NoDup_app.
    + exact Hnd.
    + apply concat_entries_NoDup; [exact Hkx|].
      intros k cs Hk. destruct (Hadd k cs Hk) as [_ [_ [_ [c [-> ->]]]]].
      split; [apply spawned_coins_NoDup|].
      intros coin Hc. now rewrite (spawned_coins_location luck c coin Hc).
    + intros coin Hold Hfresh.
      destruct (Hnew coin Hfresh) as [k [cs [Hk [_ Hkey]]]].
      destruct (Hadd k cs Hk) as [Hnone _].
      apply Hsrc in Hold. rewrite Hkey in Hold.
      apply map_has_false in Hnone. congruence.
  - intros coin Hc. rewrite Hall in Hc. apply in_app_or in Hc as [Hold | Hfresh].
    + apply Hsrc in Hold. apply map_has_true in Hold as [cs Hcs].
      apply map_has_true. exists cs. rewrite Hex. now apply map_get_app_l.
    + destruct (Hnew coin Hfresh) as [k [cs [Hk [_ Hkey]]]].
      rewrite Hkey. apply map_has_keys. rewrite Hex. unfold Js.map_keys.
      rewrite List.map_app. apply in_or_app. right.
      change k with (fst (k, cs)). now apply in_map.
Qed.

Lemma popup_handler_accounted g g' :
  coherent g -> coins_accounted g ->
  (exists k, g' = collect k g) \/ (exists k, g' = deposit k g) ->
  coins_accounted g'.
Proof.
  intros Hco [Hnd Hsrc] Hcase.
  destruct (popup_handler_keeps g g' Hco Hcase) as [_ [_ [_ [_ [Hst _]]]]].
  assert (Hperm : Permutation (all_coins g') (all_coins g)).
  { destruct Hcase as [[k ->] | [k ->]];
      [now apply all_coins_collect | now apply all_coins_deposit]. }
  split.
  - apply (Permutation_NoDup (Permutation_sym Hperm) Hnd).
  - intros coin Hc. rewrite Hst. apply Hsrc.
    now apply (Permutation_in _ Hperm).
Qed.

Lemma handle_accounted luck e g g' :
  coherent g -> coins_accounted g -> handle luck e g = Done g' ->
  coins_accounted g'.
Proof.
  intros Hco Hacc He.
  destruct (handle_cases luck e g g' Hco He)
    as [[p [_ ->]] | [[first [rest [_ ->]]] | [Hc | [Hd | ->]]]].
  - apply populateMap_accounted; [now apply after_move_coherent|exact Hacc].
  - apply populateMap_accounted; [now apply after_clear_coherent|].
    destruct Hacc as [Hnd Hsrc]. unfold coins_accounted, all_coins in *.
    change (playerWallet (after_clear first g)) with (@nil Coin).
    change (cacheStates (after_clear first g)) with (cacheStates g).
    cbn [List.app]. split.
    + now apply NoDup_app_remove_l in Hnd.
    + intros coin Hc. apply Hsrc. apply in_or_app. now right.
  - apply (popup_handler_accounted g g' Hco Hacc). now left.
  - apply (popup_handler_accounted g g' Hco Hacc). now right.
  - exact Hacc.
Qed.

Lemma run_accounted luck es : forall g g',
  coherent g -> coins_accounted g -> run luck es g = Done g' ->
  coherent g' /\ coins_accounted g'.
Proof.
  induction es as [|e es IH]; intros g g' Hco Hacc Hrun; simpl in Hrun.
  - injection Hrun as <-. now split.
  - destruct (handle luck e g) as [g1| |] eqn:He; try discriminate Hrun.
    apply (IH g1 g'); [| |exact Hrun].
    + exact (handle_coherent luck e g g1 Hco He).
    + exact (handle_accounted luck e g g1 Hco Hacc He).
Qed.

(** X13. No coin is ever duplicated.  In every session reached from a
    fresh page (nothing stored) by any sequence of moves, position updates,
    collects, deposits and resets, the coins of the wallet and of all store
    entries are pairwise distinct, and so are their identity strings
    ["i:j#serial"]: no coin is in the wallet and in a cache, in two caches,
    or twice in one.  Every coin comes from a cell that has a store
    entry. *)
Theorem no_coin_is_ever_duplicated
    (luck : string -> Q) (es : list Event) (g : Game)
    (Hrun : run luck es (initial None) = Done g) :
  NoDup (all_coins g) /\
  NoDup (List.map serializeCoin (all_coins g)) /\
  (forall coin, In coin (playerWallet g) ->
     forall k cs, Js.map_get k (cacheStates g) = Some cs -> ~ In coin cs) /\
  (forall coin, In coin (all_coins g) ->
     Js.map_has (cellToString (spawnLocation coin)) (cacheStates g) = true).
Proof.
  assert (H0 : coins_accounted (initial None)).
  { split; [constructor | intros coin []]. }
  destruct (run_accounted luck es (initial None) g (initial_coherent None) H0 Hrun)
    as [Hco [Hnd Hsrc]].
  split; [exact Hnd|]. split.
  { apply map_NoDup_on; [|exact Hnd]. intros x y _ _. apply serializeCoin_inj. }
  split; [|exact Hsrc].
  intros coin Hw k cs Hk Hc. unfold all_coins in Hnd.
  apply (NoDup_app_not_In _ _ coin Hnd); [|exact Hw].
  apply in_concat. exists cs. split; [|exact Hc].
  unfold Js.map_values. apply in_map_iff. exists (k, cs). split; [reflexivity|].
  now apply map_get_In.
Qed.

Lemma no_coin_is_ever_duplicated_witness :
  run sample_luck
      [ClickMove MoveUp; ClickCollect sample_key_a; ClickDeposit sample_key_b]
      (initial None) = Done sample_deposited /\
  NoDup (List.map serializeCoin (all_coins sample_deposited)).
Proof.
  assert (Hrun : run sample_luck
                   [ClickMove MoveUp; ClickCollect sample_key_a;
                    ClickDeposit sample_key_b]
                   (initial None) = Done sample_deposited).
  { unfold sample_deposited, sample_collected, sample_session.
    cbv [run handle]. reflexivity. }
  destruct (no_coin_is_ever_duplicated sample_luck _ sample_deposited Hrun)
    as [_ [H _]].
  split; [exact Hrun | exact H].
Defined.

(** ** The trail *)

Lemma populateMap_trail luck pre : trail_ok pre -> trail_ok (populateMap luck pre).
Proof.
  intros [H1 H2]. destruct (populateMap_frame luck pre) as [_ [S2 [S3 _]]].
  unfold trail_ok. now rewrite S2, S3.
Qed.

Lemma handle_trail luck e g :
  coherent g -> trail_ok g ->
  exists g', handle luck e g = Done g' /\ trail_ok g'.
Proof.
  intros Hco [H1 H2].
  assert (Hne : exists rest, movementHistory g = OAKES_CLASSROOM :: rest).
  { destruct (movementHistory g) as [|p rest]; [discriminate|].
    injection H1 as ->. now exists rest. }
  destruct Hne as [rest Hh].
  assert (Hmove : forall p, trail_ok (populateMap luck (after_move p g))).
  { intros p. apply populateMap_trail. unfold trail_ok, after_move.
    cbn [movementHistory playerMarker with_movementHistory with_playerMarker].
    rewrite Hh. split; [reflexivity|].
    change (OAKES_CLASSROOM :: rest ++ [p])%list
      with ((OAKES_CLASSROOM :: rest) ++ [p])%list.
    apply List.last_last. }
  destruct e as [d | a b | k | k | answer].
  - eexists. split; [reflexivity|].
    destruct (movement_refresh luck (ClickMove d) g _ eq_refl eq_refl) as [p ->].
    apply Hmove.
  - eexists. split; [reflexivity|].
    destruct (movement_refresh luck (PositionUpdate a b) g _ eq_refl eq_refl) as [p ->].
    apply Hmove.
  - eexists. split; [reflexivity|].
    destruct (popup_handler_keeps g (collect k g) Hco (or_introl (ex_intro _ k eq_refl)))
      as [_ [E1 [E2 _]]].
    unfold trail_ok. now rewrite E1, E2.
  - eexists. split; [reflexivity|].
    destruct (popup_handler_keeps g (deposit k g) Hco (or_intror (ex_intro _ k eq_refl)))
      as [_ [E1 [E2 _]]].
    unfold trail_ok. now rewrite E1, E2.
  - simpl. unfold resetGame. destruct (confirmed answer).
    + rewrite Hh. eexists. split; [reflexivity|].
      apply populateMap_trail. split; reflexivity.
    + exists g. split; [reflexivity|]. now split.
Qed.

(** A run from a reachable session with a sound trail ends normally in
    such a session. *)
Lemma run_trail luck es : forall g,
  reachable luck g -> trail_ok g ->
  exists g', run luck es g = Done g' /\ reachable luck g' /\ trail_ok g'.
Proof.
  induction es as [|e es IH]; intros g Hr Ht.
  - exists g. split; [reflexivity|]. now split.
  - destruct (handle_trail luck e g (reachable_coherent luck g Hr) Ht)
      as [g1 [He Ht1]].
    destruct (IH g1 (reach_step luck g e g1 Hr He) Ht1) as [g' [Hrun [Hr' Ht']]].
    exists g'. split; [|now split]. simpl. now rewrite He.
Qed.

Lemma initial_fresh luck : reachable luck (initial None) /\ trail_ok (initial None).
Proof.
  split; [apply (reach_start luck None); reflexivity | split; reflexivity].
Qed.

(** X14. From a fresh page every handler ends normally and the trail is
    sound.  Starting with nothing stored, any sequence of moves, position
    updates, collects, deposits and resets (confirmed or not) runs to its
    end: in particular a reset never finds the movement history empty.  In
    the session it reaches the movement history begins at the classroom,
    and its last point is the player's position. *)
Theorem fresh_sessions_run_and_keep_the_trail
    (luck : string -> Q) (es : list Event) :
  exists g,
    run luck es (initial None) = Done g /\
    reachable luck g /\
    List.hd_error (movementHistory g) = Some OAKES_CLASSROOM /\
    movementHistory g <> [] /\
    List.last (movementHistory g) OAKES_CLASSROOM = playerMarker g.
Proof.
  destruct (initial_fresh luck) as [Hr0 Ht0].
  destruct (run_trail luck es (initial None) Hr0 Ht0) as [g [Hrun [Hr [H1 H2]]]].
  exists g. split; [exact Hrun|]. split; [exact Hr|]. split; [exact H1|].
  split; [|exact H2]. intros E. rewrite E in H1. discriminate H1.
Qed.

(** ** The refresh, once the cells are known *)

Lemma with_board_same g : with_board (board g) g = g.
Proof. now destruct g. Qed.

Lemma getCanonicalCell_again c b :
  board_ok b -> knows b c ->
  exists o, getCanonicalCell c b = (o, b) /\ cell_of o = c.
Proof.
  intros Hok Hk. destruct (getCanonicalCell_known c b Hk) as [o [_ E]].
  exists o. split; [exact E|].
  now destruct (getCanonicalCell_filed c b Hok o b E).
Qed.

Lemma canonicalize_all_again cs : forall b,
  board_ok b -> (forall c, In c cs -> knows b c) ->
  exists os, canonicalize_all cs b = (os, b) /\ List.map cell_of os = cs.
Proof.
  induction cs as [|c cs IH]; intros b Hok Hk; simpl.
  - now exists [].
  - destruct (getCanonicalCell_again c b Hok (Hk c (or_introl eq_refl))) as [o [-> Ho]].
    destruct (IH b Hok (fun c' H => Hk c' (or_intror H))) as [os [-> Hos]].
    exists (o :: os). split; [reflexivity|]. simpl. now rewrite Ho, Hos.
Qed.

(** After [getCellsNearPoint] the board knows the cell of the point and all
    the cells of the square. *)
Lemma getCellsNearPoint_knows p b :
  board_ok b ->
  forall os b', getCellsNearPoint p b = (os, b') ->
  knows b' (mkCell (lat p / tileWidth b) (lng p / tileWidth b)) /\
  (forall c, In c (near_cells (tileWidth b) (tileVisibilityRadius b) p) -> knows b' c) /\
  (forall o, In o os -> knows b' (cell_of o)).
Proof.
  intros Hok os b' E.
  pose proof (getCellsNearPoint_ok p b Hok) as H. rewrite E in H.
  destruct H as [Hcells _].
  unfold getCellsNearPoint, getCellForPoint in E.
  destruct (getCanonicalCell _ b) as [o0 b0] eqn:E0.
  destruct (getCanonicalCell_filed _ b Hok o0 b0 E0) as [_ [Hok0 [G0 _]]].
  pose proof (canonicalize_all_filed _ b0 os b' Hok0 E) as Hfiled.
  assert (Hos : forall o, In o os -> knows b' (cell_of o)).
  { intros o Ho. apply map_has_true. exists o. now apply Hfiled. }
  split; [|split; [|exact Hos]].
  - match type of E with canonicalize_all ?l b0 = _ =>
      pose proof (canonicalize_all_cached l b0) as Hc
    end.
    rewrite E in Hc. destruct Hc as [Hc _].
    apply map_has_true. exists o0. now apply Hc.
  - intros c Hc. rewrite <- Hcells in Hc. apply in_map_iff in Hc as [o [<- Ho]].
    now apply Hos.
Qed.

(** On a board that knows the cells, [getCellsNearPoint] files nothing. *)
Lemma getCellsNearPoint_again p b :
  board_ok b ->
  knows b (mkCell (lat p / tileWidth b) (lng p / tileWidth b)) ->
  (forall c, In c (near_cells (tileWidth b) (tileVisibilityRadius b) p) -> knows b c) ->
  snd (getCellsNearPoint p b) = b.
Proof.
  intros Hok H0 Hall. unfold getCellsNearPoint, getCellForPoint.
  destruct (getCanonicalCell_again _ b Hok H0) as [o0 [-> Ho0]]. rewrite Ho0.
  cbn [i j].
  destruct (canonicalize_all_again
              (near_cells (tileWidth b) (tileVisibilityRadius b) p) b Hok Hall)
    as [os [E _]].
  unfold near_cells in E. now rewrite E.
Qed.

(** A visit to the key of a cell the board knows. *)
Lemma visitCell_known luck g c :
  board_ok (board g) -> knows (board g) c ->
  visitCell luck g (cellToString c)
  = restoreCacheIfNeeded c (cellToString c)
      (spawnCacheIfNeeded luck c (cellToString c) g).
Proof.
  intros Hok Hk. unfold visitCell. rewrite getCellAtKey_cellToString.
  destruct (getCanonicalCell_again c (board g) Hok Hk) as [o [-> ->]].
  now rewrite with_board_same.
Qed.

Lemma spawn_restore_board luck c k g :
  board (restoreCacheIfNeeded c k (spawnCacheIfNeeded luck c k g)) = board g.
Proof.
  unfold restoreCacheIfNeeded, spawnCacheIfNeeded, restoreCache, spawnCache.
  repeat match goal with
         | |- context [if ?x then _ else _] => destruct x
         | |- context [match ?x with Some _ => _ | None => _ end] => destruct x
         end; reflexivity.
Qed.

(** The one-loop form of the memento revision and the two calls of the last
    revision do the same to a session. *)
Lemma visitNeighbor_step luck g visible o :
  Rev2.visitNeighbor luck (g, visible) o
  = (restoreCacheIfNeeded (cell_of o) (cellToString (cell_of o))
       (spawnCacheIfNeeded luck (cell_of o) (cellToString (cell_of o)) g),
     Js.set_add (cellToString (cell_of o)) visible).
Proof.
  unfold Rev2.visitNeighbor, restoreCacheIfNeeded, spawnCacheIfNeeded.
  destruct (Js.map_has (cellToString (cell_of o)) (cacheStates g)) eqn:Hs;
    cbn [negb andb].
  - rewrite Hs. cbn [andb].
    destruct (negb (Js.map_has (cellToString (cell_of o)) (activeCacheRects g)));
      reflexivity.
  - destruct (Qlt_bool (cellLuck luck (cell_of o)) CACHE_SPAWN_PROBABILITY) eqn:Hl.
    + unfold spawnCache.
      cbn [cacheStates activeCacheRects with_cacheStates with_activeCacheRects].
      now rewrite !map_has_set_same.
    + now rewrite Hs.
Qed.

Lemma fold_visitNeighbor luck os : forall g visible,
  board_ok (board g) ->
  (forall o, In o os -> knows (board g) (cell_of o)) ->
  NoDup (visible ++ List.map (fun o => cellToString (cell_of o)) os) ->
  fold_left (Rev2.visitNeighbor luck) os (g, visible)
  = (fold_left (visitCell luck) (List.map (fun o => cellToString (cell_of o)) os) g,
     (visible ++ List.map (fun o => cellToString (cell_of o)) os)%list).
Proof.
  induction os as [|o os IH]; intros g visible Hok Hk Hnd; cbn [fold_left List.map].
  - now rewrite List.app_nil_r.
  - cbn [List.map] in Hnd.
    assert (Hfresh : ~ In (cellToString (cell_of o)) visible).
    { apply NoDup_remove_2 in Hnd. intros Hin. apply Hnd. apply in_or_app. now left. }
    rewrite visitNeighbor_step, (set_add_fresh _ _ Hfresh).
    rewrite <- (visitCell_known luck g (cell_of o) Hok (Hk o (or_introl eq_refl))).
    assert (Hb : board (visitCell luck g (cellToString (cell_of o))) = board g).
    { rewrite (visitCell_known luck g (cell_of o) Hok (Hk o (or_introl eq_refl))).
      apply spawn_restore_board. }
    rewrite IH.
    + now rewrite <- List.app_assoc.
    + now rewrite Hb.
    + intros o' Ho'. rewrite Hb. apply Hk. now right.
    + now rewrite <- List.app_assoc.
Qed.

Lemma fold_visitCell_board luck cs : forall g,
  board_ok (board g) -> (forall c, In c cs -> knows (board g) c) ->
  board (fold_left (visitCell luck) (List.map cellToString cs) g) = board g.
Proof.
  induction cs as [|c cs IH]; intros g Hok Hk; cbn [List.map fold_left];
    [reflexivity|].
  assert (Hb : board (visitCell luck g (cellToString c)) = board g).
  { rewrite (visitCell_known luck g c Hok (Hk c (or_introl eq_refl))).
    apply spawn_restore_board. }
  rewrite IH; [exact Hb | now rewrite Hb |].
  intros c' Hc'. rewrite Hb. apply Hk. now right.
Qed.

Lemma populateMap_one_loop luck g :
  board_ok (board g) ->
  populateMap luck g = Rev2.populateMap luck g /\
  board (populateMap luck g) = snd (getCellsNearPoint (playerMarker g) (board g)).
Proof.
  intros Hok.
  pose proof (getCellsNearPoint_ok (playerMarker g) (board g) Hok) as H.
  pose proof (getCellsNearPoint_knows (playerMarker g) (board g) Hok) as Hkn.
  unfold populateMap, Rev2.populateMap, getVisibleCells.
  destruct (getCellsNearPoint (playerMarker g) (board g)) as [os b].
  destruct H as [Hcells [Hokb _]].
  destruct (Hkn os b eq_refl) as [_ [_ Hknows]].
  assert (Hnd : NoDup ([] ++ List.map (fun o => cellToString (cell_of o)) os)).
  { simpl. rewrite <- (List.map_map cell_of cellToString), Hcells.
    apply window_keys_NoDup. }
  rewrite (fold_visitNeighbor luck os (with_board b g) [] Hokb Hknows Hnd).
  rewrite (fold_set_add_exact (fun o => cellToString (cell_of o)) os [] Hnd).
  split; [reflexivity|].
  unfold removeInactiveCaches. cbn [board with_activeCacheRects snd List.app].
  rewrite <- (List.map_map cell_of cellToString).
  rewrite fold_visitCell_board; [reflexivity | exact Hokb |].
  intros c Hc. apply in_map_iff in Hc as [o [<- Ho]]. now apply Hknows.
Qed.

(** X15. The last revision's refresh is the memento revision's.  On a
    well formed board with a non-zero tile width, [populateMap] of the last
    revision (keys first, then [getCellAtKey], [spawnCacheIfNeeded],
    [restoreCacheIfNeeded] per key and [removeInactiveCaches]) returns the
    very session that [populateMap] of the memento revision (one loop over
    the cell objects of [getCellsNearPoint]) returns: same board, same store,
    same rectangles in the same order.  The refactoring changed no
    behaviour, with [getCellAtKey] giving back the canonical cell of a key;
    in particular the calls of [getCellAtKey] file no new cell. *)
Theorem refresh_agrees_with_the_memento_revision
    (luck : string -> Q) (g : Game)
    (Hok : board_ok (board g)) (Htw : tileWidth (board g) <> 0) :
  populateMap luck g = Rev2.populateMap luck g /\
  board (populateMap luck g) = snd (getCellsNearPoint (playerMarker g) (board g)).
Proof. exact (populateMap_one_loop luck g Hok). Qed.

Lemma refresh_agrees_with_the_memento_revision_witness :
  populateMap sample_luck (initial None) = Rev2.populateMap sample_luck (initial None).
Proof.
  destruct (refresh_agrees_with_the_memento_revision sample_luck (initial None))
    as [H _]; [apply newBoard_ok | discriminate | exact H].
Defined.

(** ** A refresh without a move *)

Lemma fold_left_fixed {A B : Type} (f : A -> B -> A) (l : list B) (a : A) :
  (forall x, In x l -> f a x = a) -> fold_left f l a = a.
Proof.
  induction l as [|x l IH]; intros H; simpl; [reflexivity|].
  rewrite (H x (or_introl eq_refl)). apply IH. intros y Hy. apply H. now right.
Qed.

Lemma filter_all {A : Type} (p : A -> bool) (l : list A) :
  (forall x, In x l -> p x = true) -> filter p l = l.
Proof.
  induction l as [|x l IH]; intros H; simpl; [reflexivity|].
  rewrite (H x (or_introl eq_refl)). f_equal. apply IH. intros y Hy. apply H. now right.
Qed.

Lemma with_activeCacheRects_same g : with_activeCacheRects (activeCacheRects g) g = g.
Proof. now destruct g. Qed.

(** A session on which a refresh has nothing to do: the board knows the
    window, every lucky cell of the window has its entry, and exactly the
    stored cells of the window are rendered. *)
Lemma populateMap_settled luck g :
  board_ok (board g) ->
  NoDup (Js.map_keys (activeCacheRects g)) ->
  knows (board g) (mkCell (lat (playerMarker g) / tileWidth (board g))
                          (lng (playerMarker g) / tileWidth (board g))) ->
  (forall c, In c (near_cells (tileWidth (board g)) (tileVisibilityRadius (board g))
                     (playerMarker g)) ->
     knows (board g) c /\
     (Js.map_has (cellToString c) (cacheStates g) = false ->
      lucky luck (cellToString c) = false)) ->
  (forall k, Js.map_has k (activeCacheRects g)
             = (in_window g k && Js.map_has k (cacheStates g))%bool) ->
  populateMap luck g = g.
Proof.
  intros Hok Hnd H0 Hcells Hrend. unfold populateMap.
  destruct (getVisibleCells (playerMarker g) (board g)) as [keys b] eqn:E.
  destruct (getVisibleCells_exact _ _ Hok keys b E) as [Hkeys Hb].
  rewrite (getCellsNearPoint_again (playerMarker g) (board g) Hok H0) in Hb
    by (intros c Hc; now destruct (Hcells c Hc)).
  subst b. rewrite with_board_same.
  rewrite fold_left_fixed.
  - unfold removeInactiveCaches. rewrite filter_all.
    + apply with_activeCacheRects_same.
    + intros [k r] Hin. cbn [fst].
      assert (Hhas : Js.map_has k (activeCacheRects g) = true).
      { apply map_has_true. exists r. now apply In_map_get. }
      rewrite Hrend in Hhas. apply andb_true_iff in Hhas as [Hw _].
      unfold in_window, window_keys in Hw. now rewrite Hkeys.
  - intros k Hk. rewrite Hkeys in Hk. apply in_map_iff in Hk as [c [<- Hc]].
    destruct (Hcells c Hc) as [Hkn Hluck].
    rewrite (visitCell_known luck g c Hok Hkn).
    assert (Hw : in_window g (cellToString c) = true).
    { unfold in_window, window_keys. apply set_has_In. now apply in_map. }
    specialize (Hrend (cellToString c)). rewrite Hw in Hrend. cbn [andb] in Hrend.
    unfold restoreCacheIfNeeded, spawnCacheIfNeeded.
    destruct (Js.map_has (cellToString c) (cacheStates g)) eqn:Hs; cbn [negb].
    + rewrite Hs, Hrend. reflexivity.
    + unfold lucky in Hluck. unfold cellLuck. rewrite (Hluck eq_refl), Hs. reflexivity.
Qed.

(** X16. A refresh without a move changes nothing.  In a session the
    program reaches, running [populateMap] a second time right after a
    first gives back the very same session: no cache is spawned or restored
    twice, no rectangle is removed or replaced, no cell object is
    allocated.  What a refresh does depends on the position only through
    the cells that enter or leave the window. *)
Theorem refresh_is_idempotent
    (luck : string -> Q) (g : Game) (Hreach : reachable luck g) :
  populateMap luck (populateMap luck g) = populateMap luck g.
Proof.
  pose proof (reachable_coherent luck g Hreach) as Hco.
  pose proof Hco as [Hok _].
  destruct (populateMap_spec luck g Hco) as [Hs [_ [Hco' [Hin _]]]].
  pose proof Hs as [_ [Hm [_ [_ [Htw Hrad]]]]].
  destruct (populateMap_one_loop luck g Hok) as [_ Hb].
  pose proof (getCellsNearPoint_knows (playerMarker g) (board g) Hok) as Hkn.
  destruct (getCellsNearPoint (playerMarker g) (board g)) as [os b1] eqn:E.
  destruct (Hkn os b1 eq_refl) as [K0 [Kall _]]. cbn [snd] in Hb.
  pose proof Hco' as [Hok' [_ [Hnd' _]]].
  apply populateMap_settled.
  - exact Hok'.
  - exact Hnd'.
  - rewrite Hm, Htw, Hb. exact K0.
  - intros c Hc. rewrite Hm, Htw, Hrad in Hc. split.
    + rewrite Hb. now apply Kall.
    + intros Hnone.
      assert (Hw : in_window g (cellToString c) = true).
      { unfold in_window, window_keys. apply set_has_In. now apply in_map. }
      destruct (Hin c Hw) as [Hst _]. apply map_has_false in Hnone.
      rewrite Hnone in Hst. unfold store_after in Hst.
      destruct (Js.map_get (cellToString c) (cacheStates g)); [discriminate|].
      destruct (lucky luck (cellToString c)); [discriminate | reflexivity].
  - apply populateMap_rendered. exact Hco.
Qed.

Lemma refresh_is_idempotent_witness :
  populateMap sample_luck (populateMap sample_luck sample_session)
  = populateMap sample_luck sample_session.
Proof.
  exact (refresh_is_idempotent sample_luck sample_session sample_session_reachable).
Defined.

(** ** The snapshot and the session *)

Lemma populateMap_lags luck pre :
  coherent pre -> snapshot_lags pre -> snapshot_lags (populateMap luck pre).
Proof.
  intros Hco H. unfold snapshot_lags in *.
  destruct (populateMap_spec luck pre Hco) as [[S1 [_ [S3 [S4 _]]]] [[extra Hex] _]].
  rewrite (stored_snapshot_storage pre _ S4), S1, S3, S4, Hex.
  destruct (stored_snapshot pre) as [snap|]; [|exact H].
  destruct H as [H1 [H2 [ex0 H3]]]. split; [exact H1|]. split; [exact H2|].
  exists (ex0 ++ extra)%list. now rewrite H3, List.app_assoc.
Qed.

Lemma saveGameState_lags g : snapshot_lags (saveGameState g).
Proof.
  unfold snapshot_lags. rewrite stored_snapshot_save.
  cbn [snapshot_of snap_wallet snap_history snap_entries].
  split; [reflexivity|]. split; exists []; now rewrite List.app_nil_r.
Qed.

Lemma handle_lags luck e g g' :
  coherent g -> snapshot_lags g -> handle luck e g = Done g' -> snapshot_lags g'.
Proof.
  intros Hco Hl He.
  destruct (handle_cases luck e g g' Hco He)
    as [[p [_ ->]] | [[first [rest [_ ->]]] | [[k ->] | [[k ->] | ->]]]].
  - apply populateMap_lags; [now apply after_move_coherent|].
    unfold snapshot_lags in *.
    rewrite (stored_snapshot_storage g (after_move p g) eq_refl).
    change (playerWallet (after_move p g)) with (playerWallet g).
    change (localStorage (after_move p g)) with (localStorage g).
    change (cacheStates (after_move p g)) with (cacheStates g).
    change (movementHistory (after_move p g)) with (movementHistory g ++ [p])%list.
    destruct (stored_snapshot g) as [snap|]; [|exact Hl].
    destruct Hl as [H1 [[later H2] H3]]. split; [exact H1|]. split; [|exact H3].
    exists (later ++ [p])%list. now rewrite H2, List.app_assoc.
  - apply populateMap_lags; [now apply after_clear_coherent|].
    apply saveGameState_lags.
  - destruct (collect_cases k g Hco) as [-> | [r [rest [coin [_ [_ [_ [_ ->]]]]]]]];
      [exact Hl | apply saveGameState_lags].
  - destruct (deposit_cases k g Hco) as [-> | [r [rest [coin [_ [_ [_ [_ ->]]]]]]]];
      [exact Hl | apply saveGameState_lags].
  - exact Hl.
Qed.

Lemma run_lags luck es : forall g g',
  coherent g -> snapshot_lags g -> run luck es g = Done g' ->
  coherent g' /\ snapshot_lags g'.
Proof.
  induction es as [|e es IH]; intros g g' Hco Hl Hrun; simpl in Hrun.
  - injection Hrun as <-. now split.
  - destruct (handle luck e g) as [g1| |] eqn:He; try discriminate Hrun.
    apply (IH g1 g'); [| |exact Hrun].
    + exact (handle_coherent luck e g g1 Hco He).
    + exact (handle_lags luck e g g1 Hco Hl He).
Qed.

(** Loading a stored text that decodes to a snapshot. *)
Lemma start_of_snapshot luck g snap :
  stored_snapshot g = Some snap ->
  start luck (localStorage g)
  = Done (populateMap luck (rebuilt_from snap (localStorage g))).
Proof.
  unfold stored_snapshot, start, loadGameState. cbn [initial localStorage].
  destruct (localStorage g) as [text|]; [|discriminate].
  destruct text as [|ch text]; [discriminate|].
  destruct (Json.parse (String ch text)) as [doc|err]; [|discriminate].
  intros Hd. rewrite Hd.
  unfold rebuilt_from, with_movementHistory, with_cacheStates, with_playerWallet,
    with_playerMarker.
  cbn [board playerWallet cacheStates activeCacheRects playerMarker movementHistory
       localStorage].
  rewrite <- (rev_head_last (snap_history snap) OAKES_CLASSROOM).
  destruct (List.rev (snap_history snap)); reflexivity.
Qed.

(** X17. A reload never fails and never costs a coin of the wallet.  Let
    a session be reached from a fresh page by any sequence of events.  What
    it has left in [localStorage] (nothing, or the snapshot of its last
    collect, deposit or reset) loads without an exception, and the session
    loaded has the wallet of the session left behind, coin for coin, and a
    movement history that is a beginning of its history: only the moves
    made since the last save are forgotten, because the movement handlers
    do not save. *)
Theorem reload_keeps_the_wallet
    (luck : string -> Q) (es : list Event) (g : Game)
    (Hrun : run luck es (initial None) = Done g) :
  exists reloaded,
    start luck (localStorage g) = Done reloaded /\
    playerWallet reloaded = playerWallet g /\
    (exists later,
       movementHistory g = (movementHistory reloaded ++ later)%list) /\
    (localStorage g = None -> reloaded = initial None /\ playerWallet g = []).
Proof.
  assert (H0 : snapshot_lags (initial None)) by (split; reflexivity).
  destruct (run_lags luck es (initial None) g (initial_coherent None) H0 Hrun)
    as [Hco Hl].
  destruct (initial_fresh luck) as [Hr0 Ht0].
  destruct (run_trail luck es (initial None) Hr0 Ht0) as [g1 [Hrun1 [_ [Hhd _]]]].
  rewrite Hrun in Hrun1. injection Hrun1 as <-.
  unfold snapshot_lags in Hl.
  destruct (stored_snapshot g) as [snap|] eqn:Hsnap.
  - destruct Hl as [H1 [H2 _]].
    exists (populateMap luck (rebuilt_from snap (localStorage g))).
    split; [now apply start_of_snapshot|].
    destruct (populateMap_frame luck (rebuilt_from snap (localStorage g)))
      as [S1 [_ [S3 _]]].
    split; [rewrite S1; exact H1|]. split; [rewrite S3; exact H2|].
    intros Hnone. unfold stored_snapshot in Hsnap. rewrite Hnone in Hsnap.
    discriminate Hsnap.
  - destruct Hl as [Hnone Hw]. exists (initial None). rewrite Hnone.
    split; [reflexivity|]. split; [now rewrite Hw|]. split; [|now split].
    cbn [initial movementHistory].
    destruct (movementHistory g) as [|p rest]; [discriminate Hhd|].
    injection Hhd as ->. now exists rest.
Qed.

Lemma reload_keeps_the_wallet_witness :
  exists reloaded,
    start sample_luck (localStorage sample_deposited) = Done reloaded /\
    playerWallet reloaded = playerWallet sample_deposited.
Proof.
  assert (Hrun : run sample_luck
                   [ClickMove MoveUp; ClickCollect sample_key_a;
                    ClickDeposit sample_key_b]
                   (initial None) = Done sample_deposited).
  { unfold sample_deposited, sample_collected, sample_session.
    cbv [run handle]. reflexivity. }
  destruct (reload_keeps_the_wallet sample_luck _ sample_deposited Hrun)
    as [reloaded [H1 [H2 _]]].
  exists reloaded. split; [exact H1 | exact H2].
Defined.

(** ** What the refresh does not read *)

Lemma spawnCacheIfNeeded_independent luck w h s c k g :
  spawnCacheIfNeeded luck c k
    (with_playerWallet w (with_movementHistory h (with_localStorage s g)))
  = with_playerWallet w (with_movementHistory h (with_localStorage s
      (spawnCacheIfNeeded luck c k g))).
Proof.
  unfold spawnCacheIfNeeded.
  cbn [cacheStates with_playerWallet with_movementHistory with_localStorage].
  destruct (negb (Js.map_has k (cacheStates g))); [|reflexivity].
  destruct (Qlt_bool (cellLuck luck c) CACHE_SPAWN_PROBABILITY); reflexivity.
Qed.

Lemma restoreCacheIfNeeded_independent w h s c k g :
  restoreCacheIfNeeded c k
    (with_playerWallet w (with_movementHistory h (with_localStorage s g)))
  = with_playerWallet w (with_movementHistory h (with_localStorage s
      (restoreCacheIfNeeded c k g))).
Proof.
  unfold restoreCacheIfNeeded.
  cbn [cacheStates activeCacheRects with_playerWallet with_movementHistory
       with_localStorage].
  destruct (Js.map_has k (cacheStates g) && negb (Js.map_has k (activeCacheRects g)))%bool;
    [|reflexivity].
  unfold restoreCache.
  cbn [cacheStates with_playerWallet with_movementHistory with_localStorage].
  destruct (Js.map_get (cellToString c) (cacheStates g)); reflexivity.
Qed.

Lemma visitCell_independent luck w h s g k :
  visitCell luck (with_playerWallet w (with_movementHistory h (with_localStorage s g))) k
  = with_playerWallet w (with_movementHistory h (with_localStorage s (visitCell luck g k))).
Proof.
  unfold visitCell.
  cbn [board with_playerWallet with_movementHistory with_localStorage].
  destruct (getCellAtKey k (board g)) as [cell b].
  change (with_board b (with_playerWallet w (with_movementHistory h (with_localStorage s g))))
    with (with_playerWallet w (with_movementHistory h (with_localStorage s (with_board b g)))).
  now rewrite spawnCacheIfNeeded_independent, restoreCacheIfNeeded_independent.
Qed.

Lemma fold_visitCell_independent luck w h s ks : forall g,
  fold_left (visitCell luck) ks
    (with_playerWallet w (with_movementHistory h (with_localStorage s g)))
  = with_playerWallet w (with_movementHistory h (with_localStorage s
      (fold_left (visitCell luck) ks g))).
Proof.
  induction ks as [|k ks IH]; intros g; simpl; [reflexivity|].
  now rewrite visitCell_independent, IH.
Qed.

Lemma populateMap_independent luck w h s g :
  populateMap luck (with_playerWallet w (with_movementHistory h (with_localStorage s g)))
  = with_playerWallet w (with_movementHistory h (with_localStorage s (populateMap luck g))).
Proof.
  unfold populateMap.
  cbn [board playerMarker with_playerWallet with_movementHistory with_localStorage].
  destruct (getVisibleCells (playerMarker g) (board g)) as [keys b].
  change (with_board b (with_playerWallet w (with_movementHistory h (with_localStorage s g))))
    with (with_playerWallet w (with_movementHistory h (with_localStorage s (with_board b g)))).
  rewrite fold_visitCell_independent. reflexivity.
Qed.

(** X18. The refresh reads neither the wallet, nor the movement history,
    nor the stored snapshot.  Replacing any of the three before a refresh
    gives the same session as replacing it after: what [populateMap] spawns,
    restores and removes depends on the board, the position, the store and
    the rectangles only.  Hence [movePlayer] of the last revision is
    [movePlayer] of the memento revision followed by the push of the new
    position to the history. *)
Theorem refresh_ignores_wallet_history_and_snapshot
    (luck : string -> Q) (g : Game) (wallet : list Coin) (history : list LatLng)
    (stored : option string) (deltaLat deltaLng : Z) :
  populateMap luck
    (with_playerWallet wallet (with_movementHistory history (with_localStorage stored g)))
  = with_playerWallet wallet
      (with_movementHistory history (with_localStorage stored (populateMap luck g))) /\
  (board_ok (board g) ->
   movePlayer luck deltaLat deltaLng g
   = with_movementHistory
       (movementHistory g ++
        [latLng (lat (playerMarker g) + deltaLat) (lng (playerMarker g) + deltaLng)])
       (Rev2.movePlayer luck deltaLat deltaLng g)).
Proof.
  split; [apply populateMap_independent|].
  intros Hok. unfold movePlayer, Rev2.movePlayer.
  set (p := latLng (lat (playerMarker g) + deltaLat) (lng (playerMarker g) + deltaLng)).
  destruct (populateMap_one_loop luck (with_playerMarker p g) Hok) as [<- _].
  pose proof (populateMap_independent luck (playerWallet g)
                (movementHistory g ++ [p])%list (localStorage g)
                (with_playerMarker p g)) as H.
  cbn [movementHistory with_playerMarker].
  replace (with_movementHistory (movementHistory g ++ [p]) (with_playerMarker p g))
    with (with_playerWallet (playerWallet g)
            (with_movementHistory (movementHistory g ++ [p])%list
               (with_localStorage (localStorage g) (with_playerMarker p g))))
    by reflexivity.
  rewrite H.
  destruct (populateMap_frame luck (with_playerMarker p g)) as [S1 [_ [_ [S4 _]]]].
  cbn [playerWallet localStorage with_playerMarker] in S1, S4.
  destruct (populateMap luck (with_playerMarker p g)) as [b w st ac pm hs ls].
  cbn [playerWallet localStorage] in S1, S4. subst w ls. reflexivity.
Qed.

(** ** The first page load *)

(** X19. A fresh page shows no cache until the first move.  With nothing
    stored, the load of the last revision ends with the initial values and
    does not refresh: no rectangle is on the map and the store is empty,
    whatever luck the cells around the classroom have.  The start-up of the
    memento revision, which ends with [populateMap()], renders every lucky
    cell of the classroom window; the last revision renders it at its first
    refresh. *)
Theorem fresh_page_shows_no_cache_until_refreshed
    (luck : string -> Q) (c : Cell)
    (Hwin : in_window (initial None) (cellToString c) = true)
    (Hluck : (luck (cellToString c) < CACHE_SPAWN_PROBABILITY)%Q) :
  start luck None = Done (initial None) /\
  activeCacheRects (initial None) = [] /\
  cacheStates (initial None) = [] /\
  Js.map_get (cellToString c) (activeCacheRects (Rev2.populateMap luck (initial None)))
  = Some (rendering (board (initial None)) c (spawned_coins luck c)) /\
  Js.map_get (cellToString c) (activeCacheRects (populateMap luck (initial None)))
  = Some (rendering (board (initial None)) c (spawned_coins luck c)) /\
  Js.map_get (cellToString c) (cacheStates (populateMap luck (initial None)))
  = Some (spawned_coins luck c).
Proof.
  split; [reflexivity|]. split; [reflexivity|]. split; [reflexivity|].
  destruct (populateMap_one_loop luck (initial None) (newBoard_ok _ _)) as [<- _].
  destruct (populateMap_spec luck (initial None) (initial_coherent None))
    as [_ [_ [_ [Hin _]]]].
  destruct (Hin c Hwin) as [Hst Hac].
  cbn [initial cacheStates activeCacheRects Js.map_get] in Hst, Hac.
  unfold store_after in Hst. apply Qlt_bool_iff in Hluck.
  fold (lucky luck (cellToString c)) in Hluck. rewrite Hluck in Hst.
  rewrite Hst in Hac. cbn [active_after] in Hac.
  split; [exact Hac|]. split; [exact Hac | exact Hst].
Qed.

Lemma fresh_page_shows_no_cache_until_refreshed_witness :
  start sample_luck None = Done (initial None) /\
  Js.map_get (cellToString sample_cell_a)
    (cacheStates (populateMap sample_luck (initial None)))
  = Some (List.map (mkCoin sample_cell_a) [0; 1; 2; 3; 4]).
Proof.
  assert (Hwin : in_window (initial None) (cellToString sample_cell_a) = true)
    by (vm_compute; reflexivity).
  assert (Hl : (sample_luck (cellToString sample_cell_a) < CACHE_SPAWN_PROBABILITY)%Q)
    by reflexivity.
  destruct (fresh_page_shows_no_cache_until_refreshed sample_luck sample_cell_a
              Hwin Hl) as [H1 [_ [_ [_ [_ H6]]]]].
  split; [exact H1|]. rewrite H6. reflexivity.
Defined.

(** ** Eviction and restoration *)

(** X20. Leaving the window and coming back keeps a cache as it was.  In
    a session the program reaches, let a cache be rendered at cell [c],
    whatever collects and deposits it has seen.  After a movement that takes
    [c] out of the visibility window the cache has no rectangle and its
    store entry is untouched; after a movement that brings [c] back it is
    rendered again, at the bounds of [c], with exactly the coins it held
    when it left, in the same order, coins deposited from other cells
    included; its serial counter is reset to the number of its coins. *)
Theorem eviction_and_restoration_keep_the_coins
    (luck : string -> Q) (g : Game) (c : Cell) (r : Rectangle)
    (away back : Event) (g2 g3 : Game)
    (Hreach : reachable luck g)
    (Hr : Js.map_get (cellToString c) (activeCacheRects g) = Some r)
    (Haway : is_movement away = true)
    (Hg2 : handle luck away g = Done g2)
    (Hout : in_window g2 (cellToString c) = false)
    (Hback : is_movement back = true)
    (Hg3 : handle luck back g2 = Done g3)
    (Hin : in_window g3 (cellToString c) = true) :
  Js.map_get (cellToString c) (activeCacheRects g2) = None /\
  Js.map_get (cellToString c) (cacheStates g2) = Some (coins (popup_cache r)) /\
  Js.map_get (cellToString c) (cacheStates g3) = Some (coins (popup_cache r)) /\
  Js.map_get (cellToString c) (activeCacheRects g3)
  = Some (mkRectangle (getCellBounds c (board g))
            (mkCache (coins (popup_cache r))
                     (Z.of_nat (List.length (coins (popup_cache r)))) c)
            c).
Proof.
  pose proof (reachable_coherent luck g Hreach) as Hco.
  pose proof (coherent_active_stored g _ r Hco Hr) as Hst.
  destruct (movement_spec luck away g g2 Hco Haway Hg2)
    as [Hco2 [_ [_ [_ [_ Hout2]]]]].
  destruct (Hout2 _ Hout) as [Hst2 Hac2]. rewrite Hst in Hst2.
  destruct (movement_spec luck back g2 g3 Hco2 Hback Hg3)
    as [_ [_ [_ [_ [Hin3 _]]]]].
  destruct (Hin3 c Hin) as [Hst3 Hac3].
  rewrite Hst2 in Hst3. cbn [store_after] in Hst3.
  rewrite Hac2, Hst3 in Hac3. cbn [active_after] in Hac3.
  split; [exact Hac2|]. split; [exact Hst2|]. split; [exact Hst3|].
  rewrite Hac3. unfold rendering.
  destruct (movement_refresh luck away g g2 Haway Hg2) as [p Hp].
  destruct (populateMap_frame luck (after_move p g)) as [_ [_ [_ [_ [Htw _]]]]].
  fold (after_move p g) in Hp. rewrite <- Hp in Htw.
  now rewrite (getCellBounds_tileWidth c (board g) (board g2) Htw).
Qed.

Lemma eviction_and_restoration_keep_the_coins_witness :
  let k := cellToString sample_cell_a in
  let g2 := positionUpdate sample_luck 0 0 sample_session in
  let g3 := positionUpdate sample_luck 369895000 (-1220627000) g2 in
  in_window g2 k = false /\
  in_window g3 k = true /\
  Js.map_get k (activeCacheRects g2) = None /\
  option_map (fun r => List.map serial (coins (popup_cache r)))
    (Js.map_get k (activeCacheRects g3)) = Some [0; 1; 2; 3; 4].
Proof.
  intros k g2 g3.
  assert (E2 : handle sample_luck (PositionUpdate 0 0) sample_session = Done g2)
    by reflexivity.
  assert (E3 : handle sample_luck (PositionUpdate 369895000 (-1220627000)) g2
               = Done g3) by reflexivity.
  assert (R2 : reachable sample_luck g2)
    by exact (reach_step sample_luck _ _ _ sample_session_reachable E2).
  assert (R3 : reachable sample_luck g3)
    by exact (reach_step sample_luck _ _ _ R2 E3).
  assert (Hout : in_window g2 k = false).
  { rewrite (in_window_standard g2 _ (reachable_standard_board _ _ R2)).
    unfold g2. rewrite positionUpdate_marker. vm_compute. reflexivity. }
  assert (Hin : in_window g3 k = true).
  { rewrite (in_window_standard g3 _ (reachable_standard_board _ _ R3)).
    unfold g3. rewrite positionUpdate_marker. vm_compute. reflexivity. }
  assert (Hr : Js.map_get k (activeCacheRects sample_session) = Some sample_rect_a)
    by (change k with sample_key_a; exact sample_session_rect).
  destruct (eviction_and_restoration_keep_the_coins sample_luck sample_session
              sample_cell_a sample_rect_a (PositionUpdate 0 0)
              (PositionUpdate 369895000 (-1220627000)) g2 g3
              sample_session_reachable Hr eq_refl E2 Hout eq_refl E3 Hin)
    as [H1 [_ [_ H4]]].
  split; [exact Hout|]. split; [exact Hin|]. split; [exact H1|].
  unfold k. rewrite H4. reflexivity.
Defined.

(** ** How many coins there can be *)

Lemma spawned_coins_few luck c :
  lucky luck (cellToString c) = true ->
  (List.length (spawned_coins luck c) <= 10)%nat.
Proof.
  intros Hl. apply Qlt_bool_iff in Hl. apply mul_hundred_below_threshold in Hl.
  rewrite spawned_coins_eq, List.length_map, count_from_length. lia.
Qed.

Lemma concat_values_few (entries : Js.Map (list Coin)) :
  (forall k cs, In (k, cs) entries -> (List.length cs <= 10)%nat) ->
  (List.length (List.concat (Js.map_values entries)) <= 10 * List.length entries)%nat.
Proof.
  induction entries as [|[k cs] entries IH]; intros H; simpl; [lia|].
  rewrite List.length_app.
  pose proof (H k cs (or_introl eq_refl)).
  assert (List.length (List.concat (Js.map_values entries))
          <= 10 * List.length entries)%nat
    by (apply IH; intros k' cs' H'; apply (H k' cs'); now right).
  unfold Js.map_values in *. lia.
Qed.

Lemma populateMap_few luck pre :
  coherent pre ->
  (total_coins pre <= 10 * List.length (cacheStates pre))%nat ->
  (total_coins (populateMap luck pre)
   <= 10 * List.length (cacheStates (populateMap luck pre)))%nat.
Proof.
  intros Hco H.
  destruct (populateMap_added luck pre Hco) as [extra [Hex Hadd]].
  destruct (populateMap_frame luck pre) as [Hw _].
  unfold total_coins, all_coins in *.
  rewrite Hw, Hex, concat_values_app, !List.length_app.
  rewrite List.length_app in H.
  assert (List.length (List.concat (Js.map_values extra)) <= 10 * List.length extra)%nat.
  { apply concat_values_few. intros k cs Hk.
    destruct (Hadd k cs Hk) as [_ [_ [Hl [c [-> ->]]]]]. now apply spawned_coins_few. }
  lia.
Qed.

Lemma handle_few luck e g g' :
  coherent g -> handle luck e g = Done g' ->
  (total_coins g <= 10 * List.length (cacheStates g))%nat ->
  (total_coins g' <= 10 * List.length (cacheStates g'))%nat.
Proof.
  intros Hco He H.
  destruct (handle_cases luck e g g' Hco He)
    as [[p [_ ->]] | [[first [rest [_ ->]]] | [Hc | [Hd | ->]]]].
  - apply populateMap_few; [now apply after_move_coherent | exact H].
  - apply populateMap_few; [now apply after_clear_coherent|].
    unfold total_coins, all_coins in *.
    change (playerWallet (after_clear first g)) with (@nil Coin).
    change (cacheStates (after_clear first g)) with (cacheStates g).
    rewrite List.length_app in H. cbn [List.app]. lia.
  - destruct (popup_handler_keeps g g' Hco (or_introl Hc))
      as [_ [_ [_ [_ [_ [_ [Hk _]]]]]]].
    apply (f_equal (@List.length string)) in Hk.
    unfold Js.map_keys in Hk. rewrite !List.length_map in Hk. rewrite Hk.
    destruct Hc as [k ->]. unfold total_coins.
    now rewrite (Permutation_length (all_coins_collect k g Hco)).
  - destruct (popup_handler_keeps g g' Hco (or_intror Hd))
      as [_ [_ [_ [_ [_ [_ [Hk _]]]]]]].
    apply (f_equal (@List.length string)) in Hk.
    unfold Js.map_keys in Hk. rewrite !List.length_map in Hk. rewrite Hk.
    destruct Hd as [k ->]. unfold total_coins.
    now rewrite (Permutation_length (all_coins_deposit k g Hco)).
  - exact H.
Qed.

(** X21. At most ten coins per cache ever spawned.  A cache spawns only
    for a luck below 0.1 and holds [Math.floor (luck * 100)] coins, so at
    most 10: the exact product is below 10, and its binary64 rounding can
    reach 10 but not pass it.  So in every session reached from a fresh page
    the wallet and the store together hold at most ten coins for each store
    entry, however the coins have been moved between caches.  Ten is reached:
    see [ten_coins_in_one_cache]. *)
Theorem coins_are_at_most_ten_per_cache
    (luck : string -> Q) (es : list Event) (g : Game)
    (Hrun : run luck es (initial None) = Done g) :
  (total_coins g <= 10 * List.length (cacheStates g))%nat /\
  (List.length (playerWallet g) <= 10 * List.length (cacheStates g))%nat.
Proof.
  assert (Hgen : forall es g0 g1, coherent g0 ->
            (total_coins g0 <= 10 * List.length (cacheStates g0))%nat ->
            run luck es g0 = Done g1 ->
            (total_coins g1 <= 10 * List.length (cacheStates g1))%nat).
  { clear. induction es as [|e es IH]; intros g0 g1 Hco H Hrun; simpl in Hrun.
    - now injection Hrun as <-.
    - destruct (handle luck e g0) as [g'| |] eqn:He; try discriminate Hrun.
      apply (IH g' g1); [| |exact Hrun].
      + exact (handle_coherent luck e g0 g' Hco He).
      + exact (handle_few luck e g0 g' Hco He H). }
  assert (H : (total_coins g <= 10 * List.length (cacheStates g))%nat).
  { apply (Hgen es (initial None) g (initial_coherent None)); [|exact Hrun].
    cbn. lia. }
  split; [exact H|].
  unfold total_coins, all_coins in H. rewrite List.length_app in H. lia.
Qed.

Lemma coins_are_at_most_ten_per_cache_witness :
  (total_coins sample_deposited <= 10 * List.length (cacheStates sample_deposited))%nat.
Proof.
  assert (Hrun : run sample_luck
                   [ClickMove MoveUp; ClickCollect sample_key_a;
                    ClickDeposit sample_key_b]
                   (initial None) = Done sample_deposited).
  { unfold sample_deposited, sample_collected, sample_session.
    cbv [run handle]. reflexivity. }
  destruct (coins_are_at_most_ten_per_cache sample_luck _ sample_deposited Hrun)
    as [H _].
  exact H.
Defined.

(** The luck [0.09999999999999999] is below the threshold, its exact
    hundredfold is below 10, and the cache it spawns holds ten coins. *)
Lemma ten_coins_in_one_cache :
  let g := clickMove rounding_luck MoveUp (initial None) in
  run rounding_luck [ClickMove MoveUp] (initial None) = Done g /\
  lucky rounding_luck sample_key_a = true /\
  Qfloor (rounding_luck sample_key_a * 100) = 9 /\
  List.length (cacheStates g) = 1%nat /\
  total_coins g = 10%nat /\
  Js.map_get sample_key_a (cacheStates g)
  = Some (List.map (mkCoin sample_cell_a) (count_from 0 10)).
Proof. vm_compute. repeat split; reflexivity. Qed.

(** ** Rendering from an empty map *)

Lemma rectangles_of_tileWidth b b' store cells :
  tileWidth b' = tileWidth b -> rectangles_of b' store cells = rectangles_of b store cells.
Proof.
  intros H. unfold rectangles_of. apply flat_map_ext. intros c.
  destruct (Js.map_get (cellToString c) store); [|reflexivity].
  now rewrite (rendering_tileWidth b b' c l H).
Qed.

Lemma rectangles_of_store b store store' cells :
  (forall c, In c cells ->
     Js.map_get (cellToString c) store' = Js.map_get (cellToString c) store) ->
  rectangles_of b store' cells = rectangles_of b store cells.
Proof.
  intros H. unfold rectangles_of.
  induction cells as [|c cells IH]; simpl; [reflexivity|].
  rewrite (H c (or_introl eq_refl)). f_equal. apply IH.
  intros c' Hc'. apply H. now right.
Qed.

(** The loop of [populateMap] over cells none of which is rendered yet
    appends, in order, one rectangle for each of them that ends with a store
    entry. *)
Lemma fold_visitCell_rectangles luck cs : forall g,
  coherent g ->
  NoDup (List.map cellToString cs) ->
  (forall c, In c cs -> Js.map_get (cellToString c) (activeCacheRects g) = None) ->
  let g' := fold_left (visitCell luck) (List.map cellToString cs) g in
  activeCacheRects g'
  = (activeCacheRects g ++ rectangles_of (board g) (cacheStates g') cs)%list.
Proof.
  induction cs as [|c cs IH]; intros g Hco Hnd Hnone; cbn [List.map fold_left].
  - cbn [rectangles_of flat_map]. now rewrite List.app_nil_r.
  - cbn [List.map] in Hnd. inversion Hnd as [|? ? Hni Hnd']; subst.
    pose proof Hco as [Hok _].
    destruct (visitCell_spec luck g c Hok) as [_ [Hs1 [Hst1 Hac1]]].
    destruct (visitCell_get luck g c Hco) as [_ [_ [Hget1 [_ [Hoth1 Hco1]]]]].
    set (g1 := visitCell luck g (cellToString c)) in *.
    assert (Htw : tileWidth (board g1) = tileWidth (board g)) by apply Hs1.
    assert (Hnone1 : forall c', In c' cs ->
              Js.map_get (cellToString c') (activeCacheRects g1) = None).
    { intros c' Hc'.
      assert (Hne : cellToString c' <> cellToString c).
      { intros E. apply Hni. rewrite <- E. now apply in_map. }
      destruct (Hoth1 _ Hne) as [_ ->]. apply Hnone. now right. }
    specialize (IH g1 Hco1 Hnd' Hnone1). cbv zeta in IH. rewrite IH.
    set (g' := fold_left (visitCell luck) (List.map cellToString cs) g1) in *.
    destruct (fold_visitCell luck cs g1 Hco1) as [_ [_ [_ [_ Hout]]]].
    assert (Hkeep : Js.map_get (cellToString c) (cacheStates g')
                    = Js.map_get (cellToString c) (cacheStates g1)).
    { apply Hout. destruct (Js.set_has (cellToString c) (List.map cellToString cs)) eqn:E;
        [|reflexivity].
      apply set_has_In in E. contradiction. }
    rewrite (rectangles_of_tileWidth (board g) (board g1) _ _ Htw).
    cbn [rectangles_of flat_map]. fold (rectangles_of (board g) (cacheStates g') cs).
    rewrite Hkeep, List.app_assoc. f_equal.
    pose proof (Hnone c (or_introl eq_refl)) as Hn.
    assert (Hha : Js.map_has (cellToString c) (activeCacheRects g) = false)
      by now apply map_has_false.
    rewrite Hac1, Hha, Hget1. unfold store_after.
    destruct (Js.map_has (cellToString c) (cacheStates g)) eqn:Hhs.
    + apply map_has_true in Hhs as [cs0 Hcs0]. rewrite Hcs0.
      now rewrite (map_set_absent _ _ _ Hn).
    + apply map_has_false in Hhs. rewrite Hhs.
      destruct (lucky luck (cellToString c)).
      * now rewrite (map_set_absent _ _ _ Hn).
      * now rewrite List.app_nil_r.
Qed.

Lemma rectangles_of_keys b store cells k r :
  In (k, r) (rectangles_of b store cells) -> In k (List.map cellToString cells).
Proof.
  unfold rectangles_of. intros H. apply in_flat_map in H as [c [Hc H]].
  destruct (Js.map_get (cellToString c) store); [|destruct H].
  destruct H as [[= <- _] | []]. now apply in_map.
Qed.

(** A refresh of a session with no rectangle renders, in the order of the
    window, the cells that end with a store entry. *)
Lemma populateMap_from_empty luck pre :
  coherent pre -> activeCacheRects pre = [] ->
  activeCacheRects (populateMap luck pre)
  = rectangles_of (board pre) (cacheStates (populateMap luck pre))
      (near_cells (tileWidth (board pre)) (tileVisibilityRadius (board pre))
                  (playerMarker pre)).
Proof.
  intros Hco Hempty. pose proof Hco as [Hok _].
  unfold populateMap.
  destruct (getVisibleCells (playerMarker pre) (board pre)) as [keys b] eqn:E.
  destruct (getVisibleCells_exact _ _ Hok keys b E) as [Hkeys _].
  pose proof (getVisibleCells_spec (playerMarker pre) (board pre) Hok) as Hsp.
  rewrite E in Hsp. destruct Hsp as [_ [_ [Hokb [Htwb _]]]].
  subst keys.
  set (cells := near_cells (tileWidth (board pre)) (tileVisibilityRadius (board pre))
                  (playerMarker pre)).
  assert (Hco0 : coherent (with_board b pre)).
  { destruct Hco as [_ [H2 [H3 H4]]]. unfold coherent.
    cbn [board cacheStates activeCacheRects with_board]. auto. }
  pose proof (fold_visitCell_rectangles luck cells (with_board b pre) Hco0
                (window_keys_NoDup _ _ _)) as Hfold.
  cbv zeta in Hfold.
  set (g1 := fold_left (visitCell luck) (List.map cellToString cells) (with_board b pre))
    in *.
  unfold removeInactiveCaches.
  cbn [activeCacheRects cacheStates with_activeCacheRects].
  rewrite Hfold by (intros c _; cbn [activeCacheRects with_board]; now rewrite Hempty).
  cbn [activeCacheRects board with_board]. rewrite Hempty. cbn [List.app].
  rewrite filter_all.
  - now apply rectangles_of_tileWidth.
  - intros [k r] Hin. cbn [fst]. apply set_has_In.
    now apply (rectangles_of_keys b (cacheStates g1) cells k r).
Qed.

(** X22. A second reset changes nothing but the snapshot.  In a session
    the program reaches, a confirmed reset followed at once by another
    leaves the board, the wallet, the store, the rectangles, the position
    and the history exactly as the first reset left them: [reset] is
    idempotent on the session.  Only the stored snapshot may differ: the
    second reset saves the caches the first one spawned after saving, so
    after it the snapshot describes the session. *)
Theorem a_second_reset_changes_only_the_snapshot
    (luck : string -> Q) (g g1 g2 : Game) (answer : option string)
    (Hreach : reachable luck g)
    (Hyes : confirmed answer = true)
    (H1 : handle luck (ClickReset answer) g = Done g1)
    (H2 : handle luck (ClickReset answer) g1 = Done g2) :
  board g2 = board g1 /\
  playerWallet g2 = playerWallet g1 /\
  cacheStates g2 = cacheStates g1 /\
  activeCacheRects g2 = activeCacheRects g1 /\
  playerMarker g2 = playerMarker g1 /\
  movementHistory g2 = movementHistory g1 /\
  stored_snapshot g2 = Some (snapshot_of g2).
Proof.
  pose proof (reachable_coherent luck g Hreach) as Hco.
  pose proof (handle_coherent luck _ g g1 Hco H1) as Hco1.
  destruct (handle_by_event luck _ g g1 Hco H1)
    as [[_ [first [rest [Hh E1]]]] | [Hno _]]; [|congruence].
  destruct (handle_by_event luck _ g1 g2 Hco1 H2)
    as [[_ [first' [rest' [Hh' E2]]]] | [Hno _]]; [|congruence].
  set (pre1 := after_clear first g) in *.
  pose proof (after_clear_coherent first g Hco) as Hpre1. fold pre1 in Hpre1.
  destruct (populateMap_spec luck pre1 Hpre1) as [Hs1 [_ [_ [Hin1 _]]]].
  rewrite <- E1 in Hs1, Hin1.
  destruct Hs1 as [W1 [M1 [Hi1 [_ [Tw1 Ra1]]]]].
  cbn [pre1 after_clear saveGameState with_localStorage playerWallet playerMarker
       movementHistory board] in W1, M1, Hi1, Tw1, Ra1.
  rewrite Hi1 in Hh'. injection Hh' as <- <-.
  set (pre2 := after_clear first g1) in *.
  pose proof (after_clear_coherent first g1 Hco1) as Hpre2. fold pre2 in Hpre2.
  destruct (populateMap_frame luck pre2) as [W2 [M2 [Hi2 [L2 _]]]].
  rewrite <- E2 in W2, M2, Hi2, L2.
  cbn [pre2 after_clear saveGameState with_localStorage playerWallet playerMarker
       movementHistory] in W2, M2, Hi2.
  (* the board *)
  assert (Hb1 : board g1 = snd (getCellsNearPoint OAKES_CLASSROOM (board g))).
  { rewrite E1. destruct Hco as [Hok _].
    exact (proj2 (populateMap_one_loop luck pre1 Hok)). }
  pose proof Hco as [Hok _]. pose proof Hco1 as [Hok1 _].
  pose proof (getCellsNearPoint_knows OAKES_CLASSROOM (board g) Hok) as Hkn.
  destruct (getCellsNearPoint OAKES_CLASSROOM (board g)) as [os b1] eqn:Enear.
  destruct (Hkn os b1 eq_refl) as [K0 [Kall _]]. cbn [snd] in Hb1. subst b1.
  assert (Hb2 : board g2 = board g1).
  { rewrite E2.
    rewrite (proj2 (populateMap_one_loop luck pre2 Hok1)).
    cbn [pre2 after_clear saveGameState with_localStorage playerMarker board].
    apply (getCellsNearPoint_again OAKES_CLASSROOM (board g1) Hok1).
    - now rewrite Tw1.
    - intros c Hc. rewrite Tw1, Ra1 in Hc. now apply Kall. }
  (* the store *)
  assert (Hwin : forall k, in_window pre2 k = in_window pre1 k).
  { intros k. unfold in_window, window_keys.
    cbn [pre1 pre2 after_clear saveGameState with_localStorage playerMarker board].
    now rewrite Tw1, Ra1. }
  assert (Hst2 : cacheStates g2 = cacheStates g1).
  { destruct (populateMap_added luck pre2 Hpre2) as [extra [Hex Hadd]].
    rewrite <- E2 in Hex.
    change (cacheStates pre2) with (cacheStates g1) in Hex, Hadd.
    destruct extra as [|[k cs] extra]; [now rewrite List.app_nil_r in Hex|].
    exfalso. destruct (Hadd k cs (or_introl eq_refl)) as [Hnone [Hw [Hl [c [-> _]]]]].
    rewrite Hwin in Hw. destruct (Hin1 c Hw) as [Hst _].
    rewrite Hnone in Hst. unfold store_after in Hst.
    destruct (Js.map_get (cellToString c) (cacheStates pre1)); [discriminate|].
    rewrite Hl in Hst. discriminate Hst. }
  (* the rectangles *)
  assert (Hac2 : activeCacheRects g2 = activeCacheRects g1).
  { pose proof (populateMap_from_empty luck pre1 Hpre1 eq_refl) as A1.
    pose proof (populateMap_from_empty luck pre2 Hpre2 eq_refl) as A2.
    rewrite <- E1 in A1. rewrite <- E2 in A2. rewrite A2, A1, Hst2.
    cbn [pre1 pre2 after_clear saveGameState with_localStorage playerMarker board].
    rewrite Tw1, Ra1. now apply rectangles_of_tileWidth. }
  split; [exact Hb2|]. split; [congruence|]. split; [exact Hst2|].
  split; [exact Hac2|]. split; [congruence|]. split; [congruence|].
  rewrite (stored_snapshot_storage pre2 g2 L2).
  unfold pre2, after_clear. rewrite stored_snapshot_save.
  unfold snapshot_of. cbn [playerWallet cacheStates movementHistory].
  now rewrite W2, Hst2, Hi2.
Qed.

Lemma reset_confirmed luck g answer first rest :
  coherent g -> confirmed answer = true -> movementHistory g = first :: rest ->
  handle luck (ClickReset answer) g = Done (populateMap luck (after_clear first g)).
Proof.
  intros Hco Hyes Hh.
  destruct (handle luck (ClickReset answer) g) as [g'| |] eqn:He.
  - destruct (handle_by_event luck _ g g' Hco He)
      as [[_ [first' [rest' [Hh' E]]]] | [Hno _]]; [|congruence].
    rewrite Hh in Hh'. injection Hh' as <- <-. now rewrite E.
  - simpl in He. unfold resetGame in He. rewrite Hyes, Hh in He. discriminate He.
  - simpl in He. unfold resetGame in He. rewrite Hyes, Hh in He. discriminate He.
Qed.

Lemma a_second_reset_changes_only_the_snapshot_witness :
  exists g2,
    handle sample_luck (ClickReset (Some "yes")) sample_after_reset = Done g2 /\
    cacheStates g2 = cacheStates sample_collected /\
    playerWallet g2 = [].
Proof.
  assert (Hr1 : reachable sample_luck sample_after_reset)
    by exact (reach_step sample_luck _ _ _ sample_collected_reachable sample_reset_done).
  assert (Hhist : exists first, movementHistory sample_after_reset = [first]).
  { destruct (handle_by_event sample_luck _ sample_collected sample_after_reset
                sample_collected_coherent sample_reset_done)
      as [[_ [first [rest [_ E]]]] | [Hno _]]; [|discriminate Hno].
    exists first. rewrite E.
    destruct (populateMap_frame sample_luck (after_clear first sample_collected))
      as [_ [_ [S3 _]]].
    exact S3. }
  destruct Hhist as [first Hh].
  pose proof (reset_confirmed sample_luck sample_after_reset (Some "yes") first []
                (reachable_coherent sample_luck _ Hr1) eq_refl Hh) as H2.
  destruct (a_second_reset_changes_only_the_snapshot sample_luck sample_collected
              sample_after_reset _ (Some "yes") sample_collected_reachable eq_refl
              sample_reset_done H2) as [_ [Hw [Hst _]]].
  eexists. split; [exact H2|]. split.
  - rewrite Hst. exact sample_reset_store.
  - rewrite Hw. exact sample_reset_wallet.
Defined.

(** ** The confirmation of a reset *)

Lemma lower_char_is c target :
  (target = "y" \/ target = "e" \/ target = "s")%char ->
  Js.lower_char c = target <->
  c = target \/ c = ascii_of_nat (nat_of_ascii target - 32).
Proof.
  intros [-> | [-> | ->]];
    destruct c as [[] [] [] [] [] [] [] []]; vm_compute;
    split; intros H; try discriminate H; try reflexivity;
    try (now left); try (now right);
    destruct H as [H | H]; discriminate H.
Qed.

(** X23. A reset needs a yes.  The reset handler acts only when the
    answer to its prompt is the word yes in any letter case (yes, Yes, YES,
    ...): exactly the eight spellings.  A cancelled prompt, an empty answer
    or any other text (with a space, say) leaves the whole session as it
    was, snapshot included. *)
Theorem reset_needs_a_yes (luck : string -> Q) (g : Game) (answer : option string) :
  (confirmed answer = true <->
   exists a b c,
     answer = Some (String a (String b (String c EmptyString))) /\
     (a = "y" \/ a = "Y")%char /\ (b = "e" \/ b = "E")%char /\
     (c = "s" \/ c = "S")%char) /\
  (confirmed answer = false -> handle luck (ClickReset answer) g = Done g) /\
  confirmed None = false /\
  confirmed (Some EmptyString) = false /\
  confirmed (Some " yes") = false.
Proof.
  split; [|split; [|repeat split]].
  - unfold confirmed. destruct answer as [s|]; [|split; [discriminate|]].
    + rewrite String.eqb_eq. split.
      * destruct s as [|a [|b [|c [|d s]]]]; cbn [Js.toLowerCase]; try discriminate.
        intros [= Ha Hb Hc]. exists a, b, c. split; [reflexivity|].
        apply (lower_char_is a "y") in Ha; [|now left].
        apply (lower_char_is b "e") in Hb; [|right; now left].
        apply (lower_char_is c "s") in Hc; [|right; now right].
        auto.
      * intros [a [b [c [[= ->] [Ha [Hb Hc]]]]]]. cbn [Js.toLowerCase].
        destruct Ha as [-> | ->], Hb as [-> | ->], Hc as [-> | ->]; reflexivity.
    + intros [a [b [c [H _]]]]. discriminate H.
  - intros H. simpl. unfold resetGame. now rewrite H.
Qed.
